(** * Parallel sample sort (ssort.hpp): model and verification

    The program sorts one logical array that is split over [numprocs] MPI
    ranks.  Every rank runs the same code (SPMD); the only interaction
    between ranks is through MPI collectives.  The model below therefore
    keeps one value per rank in a rank-indexed list and turns every
    collective into a function on such lists; rank-local code between two
    collectives is a function applied on every rank.

    Conventions
    - [int] and [unsigned] are 32 bits wide.  Values are kept in [Z] and
      every arithmetic result is passed through [to_int] or [to_unsigned],
      which write the wrap-around out.  For [int] the language leaves an
      overflow undefined; the model takes the two's-complement result.
    - Iterators into [begin, end) are offsets into the list that holds the
      segment.
    - A run that hits a failed [assert], an access outside an array, or an
      erroneous MPI call has no result ([None]).
    - A run also records the [new] expressions and the collectives it
      executes; rank-local code is recorded rank after rank.
    - What the program takes from libraries is modelled by the libraries'
      documents: [std::sort] is any function (the properties below assume
      that it returns a sorted permutation of its input),
      [std::lower_bound] is the binary search of the standard library, and
      the collectives move blocks as the MPI standard says. *)

From Stdlib Require Import ZArith List Bool Arith Lia Permutation Sorted.
Import ListNotations.
Local Open Scope Z_scope.

(* ================================================================== *)
(** ** 32-bit integers *)

Definition INT_MAX : Z := 2147483647.
Definition UINT_MAX : Z := 4294967295.

(** Conversion to [unsigned]: reduction modulo 2^32. *)
Definition to_unsigned (z : Z) : Z := z mod 4294967296.

(** Conversion to [int]: two's-complement wrap-around. *)
Definition to_int (z : Z) : Z := (z + 2147483648) mod 4294967296 - 2147483648.

(** The value of a [bool] used in arithmetic, as in [jump + (i < leftover)]. *)
Definition b2z (b : bool) : Z := if b then 1 else 0.

Definition len {A : Type} (l : list A) : Z := Z.of_nat (length l).

(* ================================================================== *)
(** ** Runs: failure and the record of allocations and collectives *)

Inductive collective : Type :=
| Gather | Bcast | Alltoall | Alltoallv | Allgather.

Inductive event : Type :=
| Ev_new (n : Z)              (* new T[n]                    *)
| Ev_mpi (c : collective).    (* one collective, on all ranks *)

Definition M (A : Type) : Type := option (A * list event).

Definition ret {A} (a : A) : M A := Some (a, []).

Definition fail {A} : M A := None.

Definition bind {A B} (m : M A) (f : A -> M B) : M B :=
  match m with
  | None => None
  | Some (a, t1) =>
      match f a with
      | None => None
      | Some (b, t2) => Some (b, t1 ++ t2)
      end
  end.

Definition log (e : event) : M unit := Some (tt, [e]).

Declare Scope run_scope.
Delimit Scope run_scope with run.
Notation "x <- m ;; k" := (bind m (fun x => k))
  (at level 61, m at next level, right associativity) : run_scope.
Notation "m ;;; k" := (bind m (fun _ => k))
  (at level 61, right associativity) : run_scope.
Local Open Scope run_scope.

(** The same rank-local code on every rank, in rank order. *)
Fixpoint mapM {A B} (f : A -> M B) (l : list A) : M (list B) :=
  match l with
  | [] => ret []
  | a :: l' => b <- f a ;; bs <- mapM f l' ;; ret (b :: bs)
  end.

(** Rank-local code that looks at [myid]: [f i a] runs on rank [i]. *)
Fixpoint mapiM {A B} (f : nat -> A -> M B) (i : nat) (l : list A) : M (list B) :=
  match l with
  | [] => ret []
  | a :: l' => b <- f i a ;; bs <- mapiM f (S i) l' ;; ret (b :: bs)
  end.

(** Result of a run, without its record. *)
Definition result {A} (m : M A) : option A := option_map fst m.

(** Record of a run. *)
Definition trace {A} (m : M A) : option (list event) := option_map snd m.

(* ================================================================== *)
(** ** exclusive_sum and interval_overlap *)

(** The loop [for (i = 1; i < n; ++i) sums[i] = sums[i-1] + arr[i-1]]:
    [k] iterations are left, [prev] is [sums[i-1]]. *)
Fixpoint exclusive_sum_loop (arr : list Z) (prev : Z) (i k : nat) : M (list Z) :=
  match k with
  | O => ret []
  | S k' =>
      match nth_error arr (i - 1) with
      | None => fail
      | Some a =>
          let s := to_int (prev + a) in
          rest <- exclusive_sum_loop arr s (S i) k' ;;
          ret (s :: rest)
      end
  end.

(** [int *exclusive_sum(int *arr, size_t n)].  [sums[0] = 0] is executed
    whatever [n] is, so [n = 0] writes outside the fresh array. *)
Definition exclusive_sum (arr : list Z) (n : nat) : M (list Z) :=
  log (Ev_new (Z.of_nat n)) ;;;
  match n with
  | O => fail
  | S k => rest <- exclusive_sum_loop arr 0 1 k ;; ret (0 :: rest)
  end.

(** [unsigned interval_overlap(unsigned l1, r1, l2, r2)]: the arguments are
    already [unsigned] values; subtraction wraps. *)
Definition interval_overlap (l1 r1 l2 r2 : Z) : Z :=
  let '(l1, r1, l2, r2) :=
    if l2 <? l1 then (l2, r2, l1, r1) else (l1, r1, l2, r2) in
  if r1 <=? l2 then 0
  else if r1 >=? r2 then to_unsigned (r2 - l2)
  else to_unsigned (r1 - l2).

(* ================================================================== *)
(** ** Arrays *)

Section Arrays.
Context {T : Type}.

(** [buf[i]]; an index outside the array, which the [assert]s of the
    program exclude, gives no result. *)
Definition read (buf : list T) (i : Z) : M T :=
  if (0 <=? i) && (i <? len buf) then
    match nth_error buf (Z.to_nat i) with
    | Some x => ret x
    | None => fail
    end
  else fail.

(** The [count] elements of [buf] from offset [displ] on. *)
Definition read_block (buf : list T) (displ count : Z) : M (list T) :=
  if (0 <=? displ) && (0 <=? count) && (displ + count <=? len buf) then
    ret (firstn (Z.to_nat count) (skipn (Z.to_nat displ) buf))
  else fail.

(** [buf] with [blk] stored from offset [displ] on. *)
Definition write_block (buf : list T) (displ : Z) (blk : list T) : M (list T) :=
  if (0 <=? displ) && (displ + len blk <=? len buf) then
    ret (firstn (Z.to_nat displ) buf ++ blk
           ++ skipn (Z.to_nat (displ + len blk)) buf)
  else fail.

(** [new T[n]]: the fresh array holds at offset [i] whatever [junk i] is;
    a negative [n] cannot be allocated. *)
Definition new_array (junk : nat -> T) (n : Z) : M (list T) :=
  if n <? 0 then fail
  else log (Ev_new n) ;;; ret (map junk (seq 0 (Z.to_nat n))).

End Arrays.

(* ================================================================== *)
(** ** The collectives (MPI standard; spec section 6)

    Every collective takes the rank-indexed list of the arguments the
    ranks pass and returns what the ranks hold afterwards. *)

Section Collectives.
Context {T : Type}.

(** [MPI_Gather(sendbuf, count, ..., recvbuf, count, ..., 0, comm)]: the
    block of rank [i] is stored at offset [i * count] of the root's
    [recvbuf]. *)
Fixpoint gather_loop (sendbufs : list (list T)) (count i : Z)
    (recvbuf : list T) : M (list T) :=
  match sendbufs with
  | [] => ret recvbuf
  | sb :: rest =>
      blk <- read_block sb 0 count ;;
      recvbuf' <- write_block recvbuf (i * count) blk ;;
      gather_loop rest count (i + 1) recvbuf'
  end.

Definition MPI_Gather (sendbufs : list (list T)) (count : Z)
    (recvbuf : list T) : M (list T) :=
  log (Ev_mpi Gather) ;;; gather_loop sendbufs count 0 recvbuf.

(** [MPI_Bcast(buf, count, ..., 0, comm)]: the first [count] elements of
    the root's buffer replace those of every rank. *)
Definition MPI_Bcast (bufs : list (list T)) (count : Z) : M (list (list T)) :=
  log (Ev_mpi Bcast) ;;;
  match bufs with
  | [] => ret []
  | root :: _ =>
      blk <- read_block root 0 count ;;
      mapM (fun b => write_block b 0 blk) bufs
  end.

(** [MPI_Alltoall(sendbuf, 1, ..., recvbuf, 1, ..., comm)]: rank [j]
    receives element [j] of the send buffer of every rank [i], at
    position [i]. *)
Definition MPI_Alltoall (sendbufs : list (list T)) : M (list (list T)) :=
  log (Ev_mpi Alltoall) ;;;
  mapiM (fun j _ => mapM (fun sb => read sb (Z.of_nat j)) sendbufs) 0 sendbufs.

(** [MPI_Allgather(sendbuf, count, ..., recvbuf, count, ..., comm)]: every
    rank receives the blocks of all ranks, in rank order. *)
Definition MPI_Allgather (sendbufs : list (list T)) (count : Z)
    : M (list (list T)) :=
  log (Ev_mpi Allgather) ;;;
  blocks <- mapM (fun sb => read_block sb 0 count) sendbufs ;;
  ret (map (fun _ => concat blocks) sendbufs).

(** The arguments one rank passes to [MPI_Alltoallv]. *)
Record alltoallv_args : Type := mk_args {
  sendbuf : list T;
  sendcounts : list Z;
  sdispls : list Z;
  recvbuf : list T;
  recvcounts : list Z;
  rdispls : list Z
}.

(** What rank [j] receives: from every sender [i], in rank order, the
    [sendcounts_i[j]] elements at [sdispls_i[j]] of its send buffer, stored
    at [rdispls_j[i]].  The amount sent and the amount expected must be
    equal, pairwise. *)
Fixpoint recv_loop (j : Z) (me : alltoallv_args) (senders : list alltoallv_args)
    (i : Z) (buf : list T) : M (list T) :=
  match senders with
  | [] => ret buf
  | s :: rest =>
      sc <- read (sendcounts s) j ;;
      sd <- read (sdispls s) j ;;
      rc <- read (recvcounts me) i ;;
      rd <- read (rdispls me) i ;;
      if sc =? rc then
        blk <- read_block (sendbuf s) sd sc ;;
        buf' <- write_block buf rd blk ;;
        recv_loop j me rest (i + 1) buf'
      else fail
  end.

Definition MPI_Alltoallv (args : list alltoallv_args) : M (list (list T)) :=
  log (Ev_mpi Alltoallv) ;;;
  mapiM (fun j me => recv_loop (Z.of_nat j) me args 0 (recvbuf me)) 0 args.

End Collectives.
Arguments alltoallv_args : clear implicits.

(* ================================================================== *)
(** ** The sample sort *)

Section SampleSort.
Context {T : Type}.

(** The comparator [comp], [std::sort] with that comparator, and what
    storage holds, offset by offset, when it was allocated and not yet
    written. *)
Variable comp : T -> T -> bool.
Variable std_sort : list T -> list T.
Variable junk : nat -> T.

(** [std::sort(buf, buf + n, comp)] on an array that may be longer than [n]. *)
Definition sort_range (buf : list T) (n : Z) : list T :=
  std_sort (firstn (Z.to_nat n) buf) ++ skipn (Z.to_nat n) buf.

(** [std::lower_bound(first, last, val, comp)], the binary search of the
    standard library: [fuel] bounds the number of halvings, [n] is the
    length of the range still to search. *)
Fixpoint lower_bound_loop (seg : list T) (val : T) (first n : nat)
    (fuel : nat) : nat :=
  match fuel with
  | O => first
  | S fuel' =>
      if (n =? 0)%nat then first
      else
        let half := Nat.div2 n in
        let middle := (first + half)%nat in
        match nth_error seg middle with
        | None => first
        | Some x =>
            if comp x val
            then lower_bound_loop seg val (S middle) (n - half - 1) fuel'
            else lower_bound_loop seg val first half fuel'
        end
  end.

Definition lower_bound (seg : list T) (first last : nat) (val : T) : nat :=
  lower_bound_loop seg val first (last - first) (last - first).

(* ------------------------------------------------------------------ *)
(** *** get_splitters *)

(** Lines 78-82: [k] iterations are left; [s_pos] is an offset from
    [begin]. *)
Fixpoint sample_loop (seg : list T) (jump leftover : Z) (i s_pos : Z)
    (k : nat) : M (list T) :=
  match k with
  | O => ret []
  | S k' =>
      let s_pos := s_pos + to_unsigned (jump + b2z (i <? leftover)) in
      x <- read seg (s_pos - 1) ;;
      rest <- sample_loop seg jump leftover (to_unsigned (i + 1)) s_pos k' ;;
      ret (x :: rest)
  end.

(** Lines 70-82, on one rank. *)
Definition local_sample (seg : list T) (numprocs : Z) : M (list T) :=
  let size := to_unsigned (len seg) in
  let sample_size := to_unsigned (numprocs - 1) in
  log (Ev_new sample_size) ;;;
  let jump := size / to_unsigned (sample_size + 1) in
  let leftover := size mod to_unsigned (sample_size + 1) in
  sample_loop seg jump leftover 0 0 (Z.to_nat sample_size).

(** Lines 95-100, on rank 0. *)
Fixpoint splitter_loop (all_samples : list T) (sample_size bound : Z)
    (as_pos : Z) (k : nat) : M (list T) :=
  match k with
  | O => ret []
  | S k' =>
      let as_pos := to_unsigned (as_pos + sample_size) in
      let idx := to_unsigned (as_pos - 1) in
      if idx <? bound then
        x <- read all_samples idx ;;
        rest <- splitter_loop all_samples sample_size bound as_pos k' ;;
        ret (x :: rest)
      else fail
  end.

(** [get_splitters] (lines 64-115) on all ranks; the result is the
    [sample] array every rank returns. *)
Definition get_splitters (segs : list (list T)) (numprocs : Z)
    : M (list (list T)) :=
  let sample_size := to_unsigned (numprocs - 1) in
  samples <- mapM (fun seg => local_sample seg numprocs) segs ;;
  (* rank 0 *)
  let n_all := to_unsigned (numprocs * sample_size) in
  all_samples <- new_array junk n_all ;;
  all_samples <- MPI_Gather samples sample_size all_samples ;;
  let all_samples := sort_range all_samples n_all in
  root_sample <-
    splitter_loop all_samples sample_size n_all 0 (Z.to_nat sample_size) ;;
  (* all ranks *)
  MPI_Bcast (root_sample :: tl samples) sample_size.

(* ------------------------------------------------------------------ *)
(** *** get_buckets *)

(** Lines 131-139: [k] splitters are left, [i] is the index of the next
    one, [s_pos] an offset from [begin]. *)
Fixpoint split_loop (seg splitters : list T) (s_pos : nat) (i : Z)
    (k : nat) : M (list Z) :=
  match k with
  | O => ret [to_int (len seg - Z.of_nat s_pos)]
  | S k' =>
      sp <- read splitters i ;;
      let s_pos_next := lower_bound seg s_pos (length seg) sp in
      rest <- split_loop seg splitters s_pos_next (to_int (i + 1)) k' ;;
      ret (to_int (Z.of_nat s_pos_next - Z.of_nat s_pos) :: rest)
  end.

(** Lines 124-139, on one rank. *)
Definition split_counts (seg splitters : list T) (numprocs : Z) : M (list Z) :=
  let num_splitters := to_int (numprocs - 1) in
  log (Ev_new numprocs) ;;;
  split_loop seg splitters 0%nat 0 (Z.to_nat num_splitters).

(** Lines 150-151. *)
Definition bucket_size_of (recv_split_counts recv_displacements : list Z)
    (numprocs : Z) : M Z :=
  d <- read recv_displacements (to_int (numprocs - 1)) ;;
  c <- read recv_split_counts (to_int (numprocs - 1)) ;;
  ret (to_int (d + c)).

(** What a rank holds when [get_buckets] returns. *)
Record bucket : Type := mk_bucket {
  bucket_size : Z;
  bucket_elems : list T
}.

(** [get_buckets] (lines 119-166) on all ranks. *)
Definition get_buckets (segs : list (list T)) (numprocs : Z)
    : M (list bucket) :=
  splitters <- get_splitters segs numprocs ;;
  send_split_counts <-
    mapM (fun a => split_counts (fst a) (snd a) numprocs)
         (combine segs splitters) ;;
  mapM (fun _ => log (Ev_new numprocs)) segs ;;;
  recv_split_counts <- MPI_Alltoall send_split_counts ;;
  send_displacements <-
    mapM (fun c => exclusive_sum c (Z.to_nat numprocs)) send_split_counts ;;
  recv_displacements <-
    mapM (fun c => exclusive_sum c (Z.to_nat numprocs)) recv_split_counts ;;
  bucket_sizes <-
    mapM (fun a => bucket_size_of (fst a) (snd a) numprocs)
         (combine recv_split_counts recv_displacements) ;;
  fresh <- mapM (new_array junk) bucket_sizes ;;
  received <-
    MPI_Alltoallv
      (map (fun a =>
              let '(sb, (sc, (sd, (rb, (rc, rd))))) := a in
              mk_args sb sc sd rb rc rd)
           (combine segs (combine send_split_counts
             (combine send_displacements (combine fresh
               (combine recv_split_counts recv_displacements)))))) ;;
  ret (map (fun a => mk_bucket (fst a) (snd a))
           (combine bucket_sizes received)).

(* ------------------------------------------------------------------ *)
(** *** redistribute *)

(** Lines 187-192. *)
Fixpoint my_begin_loop (all_sizes : list Z) (i : Z) (k : nat)
    (orig_begin bucket_begin : Z) : M (Z * Z) :=
  match k with
  | O => ret (orig_begin, bucket_begin)
  | S k' =>
      o <- read all_sizes (to_int (2 * i)) ;;
      b <- read all_sizes (to_int (2 * i + 1)) ;;
      my_begin_loop all_sizes (to_int (i + 1)) k'
        (to_int (orig_begin + o)) (to_int (bucket_begin + b))
  end.

(** Lines 196-210; the result is [(send_counts, recv_counts)]. *)
Fixpoint counts_loop (all_sizes : list Z)
    (my_orig_begin my_orig_end my_bucket_begin my_bucket_end : Z)
    (i : Z) (k : nat) (curr_orig_begin curr_bucket_begin : Z)
    : M (list Z * list Z) :=
  match k with
  | O => ret ([], [])
  | S k' =>
      o <- read all_sizes (to_int (2 * i)) ;;
      let curr_orig_end := to_int (curr_orig_begin + o) in
      let sc :=
        to_int (interval_overlap
                  (to_unsigned curr_orig_begin) (to_unsigned curr_orig_end)
                  (to_unsigned my_bucket_begin) (to_unsigned my_bucket_end)) in
      b <- read all_sizes (to_int (2 * i + 1)) ;;
      let curr_bucket_end := to_int (curr_bucket_begin + b) in
      let rc :=
        to_int (interval_overlap
                  (to_unsigned curr_bucket_begin) (to_unsigned curr_bucket_end)
                  (to_unsigned my_orig_begin) (to_unsigned my_orig_end)) in
      rest <- counts_loop all_sizes
                my_orig_begin my_orig_end my_bucket_begin my_bucket_end
                (to_int (i + 1)) k' curr_orig_end curr_bucket_end ;;
      ret (sc :: fst rest, rc :: snd rest)
  end.

(** Lines 184-210, on rank [myid]. *)
Definition redistribute_counts (all_sizes : list Z) (numprocs myid : Z)
    : M (list Z * list Z) :=
  log (Ev_new numprocs) ;;;
  log (Ev_new numprocs) ;;;
  begins <- my_begin_loop all_sizes 0 (Z.to_nat myid) 0 0 ;;
  o <- read all_sizes (to_int (2 * myid)) ;;
  b <- read all_sizes (to_int (2 * myid + 1)) ;;
  let my_orig_end := to_int (fst begins + o) in
  let my_bucket_end := to_int (snd begins + b) in
  counts_loop all_sizes (fst begins) my_orig_end (snd begins) my_bucket_end
    0 (Z.to_nat numprocs) 0 0.

(** Lines 176-178: [bucket_size] arrives as an [unsigned] parameter. *)
Definition local_sizes (seg : list T) (b : bucket) : list Z :=
  [to_int (len seg); to_int (to_unsigned (bucket_size b))].

(** [redistribute] (lines 169-224) on all ranks; the result is what the
    [begin, end) of the ranks hold afterwards. *)
Definition redistribute (segs : list (list T)) (buckets : list bucket)
    (numprocs : Z) : M (list (list T)) :=
  mapM (fun _ => log (Ev_new (to_int (2 * numprocs)))) segs ;;;
  all_sizes <-
    MPI_Allgather
      (map (fun a => local_sizes (fst a) (snd a)) (combine segs buckets)) 2 ;;
  counts <-
    mapiM (fun myid a => redistribute_counts a numprocs (Z.of_nat myid))
          0%nat all_sizes ;;
  send_displacements <-
    mapM (fun c => exclusive_sum (fst c) (Z.to_nat numprocs)) counts ;;
  recv_displacements <-
    mapM (fun c => exclusive_sum (snd c) (Z.to_nat numprocs)) counts ;;
  MPI_Alltoallv
    (map (fun a =>
            let '(b, (c, (sd, (seg, rd)))) := a in
            mk_args (bucket_elems b) (fst c) sd seg (snd c) rd)
         (combine buckets (combine counts
           (combine send_displacements (combine segs recv_displacements))))).

(* ------------------------------------------------------------------ *)
(** *** samplesort *)

(** [samplesort] (lines 228-255) on all ranks: [segs] holds the
    [begin, end) of every rank, in rank order; the result is what these
    ranges hold when the call has returned on every rank. *)
Definition samplesort (segs : list (list T)) (numprocs : Z)
    : M (list (list T)) :=
  let segs := map std_sort segs in
  if numprocs <=? 1 then ret segs
  else
    buckets <- get_buckets segs numprocs ;;
    let buckets :=
      map (fun b => mk_bucket (bucket_size b)
                      (sort_range (bucket_elems b) (bucket_size b)))
          buckets in
    redistribute segs buckets numprocs.

End SampleSort.
Arguments bucket : clear implicits.

(* ================================================================== *)
(** ** A comparator and a sort to run the model with *)

Module ZRun.

Fixpoint insert (x : Z) (l : list Z) : list Z :=
  match l with
  | [] => [x]
  | y :: l' => if x <? y then x :: l else y :: insert x l'
  end.

Fixpoint isort (l : list Z) : list Z :=
  match l with
  | [] => []
  | x :: l' => insert x (isort l')
  end.

Definition run (segs : list (list Z)) : M (list (list Z)) :=
  samplesort Z.ltb isort (fun _ => 0) segs (len segs).

(** Four ranks with three elements each: a permutation of 0..11. *)
Definition four_ranks : list (list Z) :=
  [[5; 1; 9]; [3; 11; 0]; [7; 2; 8]; [4; 10; 6]].

(** Ranks of different sizes, with repeated values. *)
Definition uneven_ranks : list (list Z) :=
  [[5; 1; 9]; [3; 0]; [7; 2; 8; 1; 1; 1; 1; 1]; [4]].

End ZRun.

(* ================================================================== *)
(** * Vocabulary of the specification

    The notions the properties below are stated with.  None of them is
    part of the program. *)

(** ** Ranks, sums and slices *)

(** The ranks with their rank. *)
Definition ranked_from {A} (i : nat) (l : list A) : list (nat * A) :=
  combine (seq i (length l)) l.

Definition ranked {A} (l : list A) : list (nat * A) := ranked_from 0 l.

Definition zsum (l : list Z) : Z := fold_right Z.add 0 l.

(** Sum of the first [k] elements. *)
Definition psum (l : list Z) (k : nat) : Z := zsum (firstn k l).

Definition nonneg (l : list Z) : Prop := Forall (fun c => 0 <= c) l.

(** The counts fit: none is negative and their sum is an [int]. *)
Definition sizes_fit (counts : list Z) : Prop :=
  nonneg counts /\ zsum counts <= INT_MAX.

(** Length of the intersection of [l1, r1) and [l2, r2), over [Z]. *)
Definition overlap (l1 r1 l2 r2 : Z) : Z :=
  Z.max 0 (Z.min r1 r2 - Z.max l1 l2).

(** The elements at the offsets [a <= i < b]. *)
Definition slice {A} (a b : nat) (l : list A) : list A := skipn a (firstn b l).

(** Offset of block [j] in the concatenation of the blocks. *)
Definition offset {A} (blocks : list (list A)) (j : nat) : nat :=
  length (concat (firstn j blocks)).

(** What the blocks contribute to the slice [a, b) of their
    concatenation. *)
Fixpoint slices {A} (a b : nat) (blocks : list (list A)) : list (list A) :=
  match blocks with
  | [] => []
  | blk :: rest =>
      slice a b blk :: slices (a - length blk) (b - length blk) rest
  end.

(** The global sequence the ranks hold in [held], cut at the boundaries
    of the segments [segs]. *)
Definition relayout {A} (segs held : list (list A)) (k : nat) : list A :=
  slice (offset segs k) (offset segs (S k)) (concat held).

(** ** Comparators and sorted arrays *)

Section OrderVocabulary.
Context {T : Type}.
Variable comp : T -> T -> bool.

(** Neither element goes before the other. *)
Definition equiv (x y : T) : Prop := comp x y = false /\ comp y x = false.

(** The requirements the standard library puts on a comparator. *)
Record strict_weak_order : Prop := {
  swo_irrefl : forall x, comp x x = false;
  swo_trans : forall x y z, comp x y = true -> comp y z = true -> comp x z = true;
  swo_equiv_trans : forall x y z, equiv x y -> equiv y z -> equiv x z
}.

(** [y] does not go before [x]. *)
Definition not_after (x y : T) : Prop := comp y x = false.

(** Sorted non-decreasingly, as [std::is_sorted] has it: no element goes
    before its predecessor. *)
Definition sorted (l : list T) : Prop := Sorted not_after l.

(** The element at offset [k] goes before [val]. *)
Definition below (seg : list T) (val : T) (k : nat) : bool :=
  match nth_error seg k with
  | Some x => comp x val
  | None => false
  end.

End OrderVocabulary.

(** ** The stages of the sort *)

(** Offset of the [i]-th local sample in a segment of [n] elements:
    [i + 1] steps of [n / P], one more for each of the first [n mod P]
    steps, and then one back. *)
Definition sample_pos (n P i : Z) : Z :=
  (i + 1) * (n / P) + Z.min (i + 1) (n mod P) - 1.

(** Index of the [i]-th global splitter in the sorted samples. *)
Definition splitter_pos (P i : Z) : Z := (i + 1) * (P - 1) - 1.

(** One sender's block for the receiver [j] of [MPI_Alltoallv]. *)
Definition sends_block {T} (j : nat) (s : alltoallv_args T) (blk : list T)
    : Prop :=
  exists sd : nat,
    result (read (sendcounts s) (Z.of_nat j)) = Some (len blk) /\
    result (read (sdispls s) (Z.of_nat j)) = Some (Z.of_nat sd) /\
    (sd + length blk <= length (sendbuf s))%nat /\
    slice sd (sd + length blk) (sendbuf s) = blk.

(** [all_sizes]: the pairs (original size, bucket size), rank after
    rank. *)
Definition flat_sizes (osz bsz : list Z) : list Z :=
  concat (map (fun a => [fst a; snd a]) (combine osz bsz)).

(** The counts rank [k] computes in [redistribute] from the original
    sizes [osz] and the bucket sizes [bsz]. *)
Definition send_counts_spec (osz bsz : list Z) (k : nat) : list Z :=
  map (fun i => overlap (psum osz i) (psum osz (S i)) (psum bsz k) (psum bsz (S k)))
      (seq 0 (length osz)).

Definition recv_counts_spec (osz bsz : list Z) (k : nat) : list Z :=
  map (fun i => overlap (psum bsz i) (psum bsz (S i)) (psum osz k) (psum osz (S k)))
      (seq 0 (length osz)).

Section StageVocabulary.
Context {T : Type}.
Variable comp : T -> T -> bool.
Variable std_sort : list T -> list T.

(** The value [nth] falls back on; the offsets used below lie inside the
    arrays. *)
Variable fill : T.

(** The elements a rank samples. *)
Definition local_sample_spec (P : Z) (seg : list T) : list T :=
  map (fun t => nth (Z.to_nat (sample_pos (len seg) P (Z.of_nat t))) seg fill)
      (seq 0 (Z.to_nat (P - 1))).

(** The elements rank 0 picks from the sorted samples. *)
Definition pick_splitters (P : Z) (all_samples : list T) : list T :=
  map (fun t => nth (Z.to_nat (splitter_pos P (Z.of_nat t))) all_samples fill)
      (seq 0 (Z.to_nat (P - 1))).

Definition splitters_spec (segs : list (list T)) : list T :=
  pick_splitters (len segs)
    (std_sort (concat (map (local_sample_spec (len segs)) segs))).

(** The sub-ranges of [seg] that the loop of [get_buckets] delimits from
    offset [s_pos] on, one for each splitter and a last one up to [end]. *)
Fixpoint pieces (seg : list T) (s_pos : nat) (splitters : list T)
    : list (list T) :=
  match splitters with
  | [] => [slice s_pos (length seg) seg]
  | sp :: rest =>
      let s_pos_next := lower_bound comp seg s_pos (length seg) sp in
      slice s_pos s_pos_next seg :: pieces seg s_pos_next rest
  end.

(** The part of [seg] that goes to rank [j]. *)
Definition piece (splitters : list T) (j : nat) (seg : list T) : list T :=
  nth j (pieces seg 0 splitters) [].

(** What rank [j] holds after the exchange: the parts for [j] of all
    ranks, in rank order. *)
Definition bucket_spec (splitters : list T) (segs : list (list T)) (j : nat)
    : list T :=
  concat (map (piece splitters j) segs).

Definition bucket_of (segs : list (list T)) (j : nat) : list T :=
  bucket_spec (splitters_spec segs) segs j.

(** The ranks can run the exchange: at least two ranks, no rank without
    elements, and all sizes within the 32 bits of the size fields. *)
Definition exchange_ready (segs : list (list T)) : Prop :=
  2 <= len segs /\
  len segs * (len segs - 1) <= UINT_MAX /\
  (forall seg, In seg segs -> seg <> []) /\
  len (concat segs) <= INT_MAX.

(** The sizes fit the 32-bit size fields: the total number of elements is
    an [int], and rank 0 can index the [numprocs * (numprocs - 1)]
    samples. *)
Definition fits (segs : list (list T)) : Prop :=
  len (concat segs) <= INT_MAX /\ len segs * (len segs - 1) <= UINT_MAX.

(** The buckets after the second sort, in rank order. *)
Definition sorted_buckets (segs : list (list T)) : list (list T) :=
  map (fun j => std_sort (bucket_of (map std_sort segs) j))
      (seq 0 (length segs)).

(** What the ranks hold in [begin, end) when [samplesort] has returned. *)
Definition samplesort_spec (segs : list (list T)) : list (list T) :=
  map (relayout (map std_sort segs) (sorted_buckets segs)) (seq 0 (length segs)).

(** Spec side of claim C9: a local sort of every segment, with no
    collective and no allocation. *)
Definition local_sort_only (segs : list (list T)) : M (list (list T)) :=
  ret (map std_sort segs).

End StageVocabulary.

(* ================================================================== *)
(** ** The collectives of a run *)

(** The collectives in the record of a run, in the order of their calls. *)
Fixpoint mpi_calls (t : list event) : list collective :=
  match t with
  | [] => []
  | Ev_mpi c :: t' => c :: mpi_calls t'
  | Ev_new _ :: t' => mpi_calls t'
  end.

(** Every run of [m] that has a result calls the collectives [cs], in
    this order. *)
Definition calls {A} (m : M A) (cs : list collective) : Prop :=
  forall a t, m = Some (a, t) -> mpi_calls t = cs.

(* ================================================================== *)
(** * Verification *)

(** ** 32-bit arithmetic without overflow *)

Lemma to_unsigned_small z : 0 <= z <= UINT_MAX -> to_unsigned z = z.
Proof. unfold to_unsigned, UINT_MAX. intros H. apply Z.mod_small. lia. Qed.

Lemma to_int_small z : - 2147483648 <= z <= INT_MAX -> to_int z = z.
Proof.
  unfold to_int, INT_MAX. intros H.
  rewrite Z.mod_small by lia. lia.
Qed.

Lemma to_unsigned_range z : 0 <= to_unsigned z <= UINT_MAX.
Proof.
  unfold to_unsigned, UINT_MAX.
  pose proof (Z.mod_pos_bound z 4294967296). lia.
Qed.

Lemma to_int_range z : - 2147483648 <= to_int z <= INT_MAX.
Proof.
  unfold to_int, INT_MAX.
  pose proof (Z.mod_pos_bound (z + 2147483648) 4294967296). lia.
Qed.

(** Both conversions are the identity on the values that occur when the
    total fits an [int]. *)
Lemma int_unsigned_small z : 0 <= z <= INT_MAX -> to_int (to_unsigned z) = z.
Proof.
  intros H. unfold INT_MAX in H.
  rewrite to_unsigned_small by (unfold UINT_MAX; lia).
  apply to_int_small. unfold INT_MAX. lia.
Qed.

Lemma len_nonneg {A} (l : list A) : 0 <= len l.
Proof. unfold len. lia. Qed.

Lemma len_app {A} (l1 l2 : list A) : len (l1 ++ l2) = len l1 + len l2.
Proof. unfold len. rewrite length_app. lia. Qed.

Lemma len_cons {A} (a : A) (l : list A) : len (a :: l) = 1 + len l.
Proof. unfold len. simpl length. lia. Qed.

(* ================================================================== *)
(** ** Results of runs *)

Lemma result_ret {A} (a : A) : result (ret a) = Some a.
Proof. reflexivity. Qed.

Lemma result_bind {A B} (m : M A) (f : A -> M B) a :
  result m = Some a -> result (bind m f) = result (f a).
Proof.
  destruct m as [[a' t]|]; simpl; [|discriminate].
  intros [= ->]. destruct (f a) as [[b t2]|]; reflexivity.
Qed.

Lemma result_bind_fail {A B} (m : M A) (f : A -> M B) :
  result m = None -> result (bind m f) = None.
Proof. destruct m as [[a' t]|]; simpl; [discriminate|reflexivity]. Qed.

Lemma result_bind_inv {A B} (m : M A) (f : A -> M B) b :
  result (bind m f) = Some b ->
  exists a, result m = Some a /\ result (f a) = Some b.
Proof.
  destruct m as [[a t]|]; simpl; [|discriminate].
  intros H. exists a. split; [reflexivity|].
  destruct (f a) as [[b' t2]|]; simpl in *; [assumption|discriminate].
Qed.

Lemma result_log {B} e (k : M B) : result (log e ;;; k) = result k.
Proof. apply (result_bind (log e) (fun _ => k) tt). reflexivity. Qed.

Lemma result_None {A} (m : M A) : result m = None -> m = None.
Proof. destruct m as [[a t]|]; [discriminate|reflexivity]. Qed.

Lemma result_Some {A} (m : M A) a :
  result m = Some a -> exists t, m = Some (a, t).
Proof.
  destruct m as [[a' t]|]; simpl; [|discriminate].
  intros [= ->]. exists t. reflexivity.
Qed.

(** Rank-local code that succeeds on every rank. *)
Lemma result_mapM {A B} (f : A -> M B) (g : A -> B) l :
  (forall a, In a l -> result (f a) = Some (g a)) ->
  result (mapM f l) = Some (map g l).
Proof.
  induction l as [|a l IH]; intros H; [reflexivity|].
  simpl mapM.
  rewrite (result_bind _ _ (g a)) by (apply H; left; reflexivity).
  rewrite (result_bind _ _ (map g l)) by (apply IH; intros; apply H; right; assumption).
  reflexivity.
Qed.

Lemma result_mapM_fail {A B} (f : A -> M B) l a :
  In a l -> result (f a) = None -> result (mapM f l) = None.
Proof.
  induction l as [|x l IH]; intros Hin Hf; [destruct Hin|].
  simpl mapM. destruct Hin as [->|Hin].
  - apply result_bind_fail. assumption.
  - destruct (result (f x)) as [b|] eqn:E.
    + rewrite (result_bind _ _ b E).
      apply result_bind_fail. apply IH; assumption.
    + apply result_bind_fail. assumption.
Qed.

Lemma mapM_map {A B C} (f : B -> M C) (h : A -> B) l :
  mapM f (map h l) = mapM (fun a => f (h a)) l.
Proof.
  induction l as [|a l IH]; [reflexivity|].
  simpl. rewrite IH. reflexivity.
Qed.

Lemma combine_map {A B C} (g1 : A -> B) (g2 : A -> C) l :
  combine (map g1 l) (map g2 l) = map (fun a => (g1 a, g2 a)) l.
Proof.
  induction l as [|a l IH]; [reflexivity|].
  simpl. rewrite IH. reflexivity.
Qed.

Lemma ranked_from_cons {A} i (a : A) l :
  ranked_from i (a :: l) = (i, a) :: ranked_from (S i) l.
Proof. reflexivity. Qed.

Lemma map_snd_ranked_from {A} i (l : list A) : map snd (ranked_from i l) = l.
Proof.
  revert i. induction l as [|a l IH]; intros i; [reflexivity|].
  rewrite ranked_from_cons. simpl. rewrite IH. reflexivity.
Qed.

Lemma length_ranked_from {A} i (l : list A) : length (ranked_from i l) = length l.
Proof.
  unfold ranked_from. rewrite length_combine, length_seq. lia.
Qed.

Lemma In_ranked_from {A} i (l : list A) k a :
  In (k, a) (ranked_from i l) <->
  (i <= k)%nat /\ nth_error l (k - i) = Some a.
Proof.
  revert i. induction l as [|x l IH]; intros i.
  - simpl. split; [intros []|]. intros [_ H].
    destruct (k - i)%nat; discriminate.
  - rewrite ranked_from_cons. simpl. rewrite IH. split.
    + intros [[= <- <-]|[H1 H2]].
      * split; [lia|]. replace (i - i)%nat with 0%nat by lia. reflexivity.
      * split; [lia|].
        replace (k - i)%nat with (S (k - S i)) by lia. assumption.
    + intros [H1 H2]. destruct (Nat.eq_dec i k) as [->|Hne].
      * left. replace (k - k)%nat with 0%nat in H2 by lia.
        simpl in H2. congruence.
      * right. split; [lia|].
        replace (k - i)%nat with (S (k - S i)) in H2 by lia. assumption.
Qed.

Lemma In_ranked {A} (l : list A) k a :
  In (k, a) (ranked l) <-> nth_error l k = Some a.
Proof.
  unfold ranked. rewrite In_ranked_from, Nat.sub_0_r.
  split; [intros [_ H]; assumption|intros H; split; [lia|assumption]].
Qed.

Lemma result_mapiM {A B C} (f : nat -> B -> M C) (h : nat * A -> B)
    (g : nat * A -> C) i l :
  (forall p, In p (ranked_from i l) -> result (f (fst p) (h p)) = Some (g p)) ->
  result (mapiM f i (map h (ranked_from i l))) = Some (map g (ranked_from i l)).
Proof.
  revert i. induction l as [|a l IH]; intros i H; [reflexivity|].
  rewrite ranked_from_cons in *. simpl map. simpl mapiM.
  rewrite (result_bind _ _ (g (i, a))) by (apply (H (i, a)); left; reflexivity).
  rewrite (result_bind _ _ (map g (ranked_from (S i) l)))
    by (apply IH; intros; apply H; right; assumption).
  reflexivity.
Qed.

(* ================================================================== *)
(** ** interval_overlap *)

Lemma interval_overlap_exact l1 r1 l2 r2 :
  0 <= l1 <= r1 -> r1 <= UINT_MAX ->
  0 <= l2 <= r2 -> r2 <= UINT_MAX ->
  interval_overlap l1 r1 l2 r2 = overlap l1 r1 l2 r2.
Proof.
  intros H1 B1 H2 B2. unfold interval_overlap, overlap.
  destruct (Z.ltb_spec l2 l1).
  - destruct (Z.leb_spec r2 l1); [lia|].
    destruct (Z.geb_spec r2 r1);
      rewrite to_unsigned_small by lia; lia.
  - destruct (Z.leb_spec r1 l2); [lia|].
    destruct (Z.geb_spec r1 r2);
      rewrite to_unsigned_small by lia; lia.
Qed.

Lemma overlap_sym l1 r1 l2 r2 : overlap l1 r1 l2 r2 = overlap l2 r2 l1 r1.
Proof. unfold overlap. lia. Qed.

Lemma overlap_nonneg l1 r1 l2 r2 : 0 <= overlap l1 r1 l2 r2.
Proof. unfold overlap. lia. Qed.

Lemma overlap_le_l l1 r1 l2 r2 : l1 <= r1 -> overlap l1 r1 l2 r2 <= r1 - l1.
Proof. unfold overlap. lia. Qed.

Lemma overlap_le_r l1 r1 l2 r2 : l2 <= r2 -> overlap l1 r1 l2 r2 <= r2 - l2.
Proof. unfold overlap. lia. Qed.

(** Overlaps with adjacent intervals add up. *)
Lemma overlap_adjacent a b c x y :
  a <= b <= c ->
  overlap a b x y + overlap b c x y = overlap a c x y.
Proof. unfold overlap. lia. Qed.

Lemma overlap_from_0 c x y :
  0 <= x <= y -> 0 <= c ->
  overlap 0 c x y = Z.max x (Z.min c y) - x.
Proof. unfold overlap. lia. Qed.

(** Claim C3.  For unsigned ranges [l1, r1) and [l2, r2) with [l1 <= r1]
    and [l2 <= r2], [interval_overlap] does not depend on the order of the
    two ranges, is 0 when the ranges are disjoint, and is
    [min(r1,r2) - max(l1,l2)] when they intersect. *)
Theorem interval_overlap_spec l1 r1 l2 r2 :
  0 <= l1 <= r1 -> r1 <= UINT_MAX ->
  0 <= l2 <= r2 -> r2 <= UINT_MAX ->
  interval_overlap l1 r1 l2 r2 = interval_overlap l2 r2 l1 r1 /\
  (Z.min r1 r2 <= Z.max l1 l2 -> interval_overlap l1 r1 l2 r2 = 0) /\
  (Z.max l1 l2 < Z.min r1 r2 ->
   interval_overlap l1 r1 l2 r2 = Z.min r1 r2 - Z.max l1 l2).
Proof.
  intros H1 B1 H2 B2.
  rewrite (interval_overlap_exact l1 r1 l2 r2), (interval_overlap_exact l2 r2 l1 r1)
    by assumption.
  split; [apply overlap_sym|].
  unfold overlap. split; intros H; lia.
Qed.

(* ================================================================== *)
(** ** exclusive_sum *)

Lemma zsum_app l1 l2 : zsum (l1 ++ l2) = zsum l1 + zsum l2.
Proof.
  induction l1 as [|a l1 IH]; simpl; [reflexivity|].
  unfold zsum in *. simpl. rewrite IH. lia.
Qed.

Lemma zsum_cons a l : zsum (a :: l) = a + zsum l.
Proof. reflexivity. Qed.

Lemma zsum_nonneg l : nonneg l -> 0 <= zsum l.
Proof.
  induction 1 as [|a l Ha _ IH]; [reflexivity|].
  rewrite zsum_cons. lia.
Qed.

Lemma nonneg_firstn l k : nonneg l -> nonneg (firstn k l).
Proof.
  unfold nonneg. intros H. revert k.
  induction H as [|a l Ha _ IH]; intros [|k]; simpl; constructor; auto.
Qed.

Lemma nonneg_skipn l k : nonneg l -> nonneg (skipn k l).
Proof.
  unfold nonneg. intros H. revert k.
  induction H as [|a l Ha Hl IH]; intros [|k]; simpl; auto.
Qed.

Lemma psum_bounds l k : nonneg l -> 0 <= psum l k <= zsum l.
Proof.
  intros H. unfold psum.
  rewrite <- (firstn_skipn k l) at 3. rewrite zsum_app.
  pose proof (zsum_nonneg _ (nonneg_firstn l k H)).
  pose proof (zsum_nonneg _ (nonneg_skipn l k H)). lia.
Qed.

Lemma psum_0 l : psum l 0 = 0.
Proof. reflexivity. Qed.

Lemma psum_S l k a :
  nth_error l k = Some a -> psum l (S k) = psum l k + a.
Proof.
  unfold psum. revert k. induction l as [|x l IH]; intros [|k] H;
    try discriminate.
  - simpl in H. injection H as ->. simpl. unfold zsum. simpl. lia.
  - simpl in H. change (firstn (S (S k)) (x :: l)) with (x :: firstn (S k) l).
    change (firstn (S k) (x :: l)) with (x :: firstn k l).
    rewrite !zsum_cons, (IH k H). lia.
Qed.

Lemma psum_all l k : (length l <= k)%nat -> psum l k = zsum l.
Proof. intros H. unfold psum. rewrite firstn_all2 by assumption. reflexivity. Qed.

Lemma psum_mono l j k : nonneg l -> (j <= k)%nat -> psum l j <= psum l k.
Proof.
  intros H Hjk. unfold psum.
  replace (firstn j l) with (firstn j (firstn k l))
    by (rewrite firstn_firstn; f_equal; lia).
  apply (psum_bounds (firstn k l) j). apply nonneg_firstn. assumption.
Qed.

Lemma exclusive_sum_loop_exact arr k : forall i,
  sizes_fit arr -> (1 <= i)%nat -> (i - 1 + k <= length arr)%nat ->
  result (exclusive_sum_loop arr (psum arr (i - 1)) i k)
  = Some (map (psum arr) (seq i k)).
Proof.
  induction k as [|k IH]; intros i [Hn Hs] Hi Hlen; [reflexivity|].
  simpl exclusive_sum_loop.
  destruct (nth_error arr (i - 1)) as [a|] eqn:E.
  2:{ apply nth_error_None in E. lia. }
  assert (Hp : psum arr i = psum arr (i - 1) + a).
  { replace i with (S (i - 1)) at 1 by lia. apply psum_S. assumption. }
  assert (Hw : to_int (psum arr (i - 1) + a) = psum arr i).
  { rewrite <- Hp. apply to_int_small.
    pose proof (psum_bounds arr i Hn). lia. }
  rewrite Hw.
  replace (psum arr i) with (psum arr (S i - 1)) at 1
    by (f_equal; lia).
  rewrite (result_bind _ _ (map (psum arr) (seq (S i) k))).
  - reflexivity.
  - apply IH; [split; assumption|lia|lia].
Qed.

(** When the counts fit, [exclusive_sum] returns the exact prefix sums. *)
Lemma exclusive_sum_exact arr n :
  sizes_fit arr -> (1 <= n <= length arr + 1)%nat ->
  result (exclusive_sum arr n) = Some (map (psum arr) (seq 0 n)).
Proof.
  intros Hfit Hn. unfold exclusive_sum. rewrite result_log.
  destruct n as [|k]; [lia|].
  rewrite (result_bind _ _ (map (psum arr) (seq 1 k))).
  - reflexivity.
  - apply (exclusive_sum_loop_exact arr k 1 Hfit); lia.
Qed.

(* ================================================================== *)
(** ** Slices of arrays *)

Section Slices.
Context {A : Type}.
Implicit Types l : list A.

Lemma slice_nil a b : slice a b (@nil A) = [].
Proof. unfold slice. rewrite firstn_nil, skipn_nil. reflexivity. Qed.

Lemma length_slice a b l : length (slice a b l) = (Nat.min b (length l) - a)%nat.
Proof. unfold slice. rewrite length_skipn, length_firstn. reflexivity. Qed.

Lemma slice_all l n : (length l <= n)%nat -> slice 0 n l = l.
Proof. intros H. unfold slice. simpl. apply firstn_all2. assumption. Qed.

Lemma slice_empty a b l : (b <= a)%nat -> slice a b l = [].
Proof.
  intros H. unfold slice. apply skipn_all2. rewrite length_firstn. lia.
Qed.

Lemma slice_beyond a b l : (length l <= a)%nat -> slice a b l = [].
Proof.
  intros H. unfold slice. apply skipn_all2. rewrite length_firstn. lia.
Qed.

Lemma slice_app a b l1 l2 :
  slice a b (l1 ++ l2)
  = slice a b l1 ++ slice (a - length l1) (b - length l1) l2.
Proof.
  unfold slice. rewrite firstn_app, skipn_app, length_firstn.
  f_equal.
  destruct (Nat.le_gt_cases (length l1) b) as [H|H].
  - replace (Nat.min b (length l1)) with (length l1) by lia. reflexivity.
  - replace (b - length l1)%nat with 0%nat by lia.
    rewrite firstn_O, !skipn_nil. reflexivity.
Qed.

Lemma slice_adjacent a b c l :
  (a <= b <= c)%nat -> slice a b l ++ slice b c l = slice a c l.
Proof.
  intros H. unfold slice.
  rewrite <- (firstn_skipn (b - a) (skipn a (firstn c l))).
  f_equal.
  - rewrite firstn_skipn_comm. f_equal.
    rewrite firstn_firstn. f_equal. lia.
  - rewrite skipn_skipn. f_equal. lia.
Qed.

Lemma firstn_skipn_slice d c l :
  firstn c (skipn d l) = slice d (d + c) l.
Proof. unfold slice. apply firstn_skipn_comm. Qed.

Lemma slice_slice a b c d l :
  slice a b (slice c d l) = slice (c + a) (Nat.min d (c + b)) l.
Proof.
  unfold slice.
  rewrite firstn_skipn_comm, firstn_firstn, skipn_skipn.
  f_equal; [lia|]. f_equal. lia.
Qed.

Lemma In_slice a b l x : In x (slice a b l) -> In x l.
Proof.
  unfold slice. intros H.
  rewrite <- (firstn_skipn b l). apply in_or_app. left.
  rewrite <- (firstn_skipn a (firstn b l)). apply in_or_app. right.
  exact H.
Qed.

Lemma nth_error_slice a b l k :
  (a + k < b)%nat -> nth_error (slice a b l) k = nth_error l (a + k).
Proof.
  intros H. unfold slice.
  rewrite nth_error_skipn, nth_error_firstn.
  destruct (Nat.ltb_spec (a + k) b); [reflexivity|lia].
Qed.

End Slices.

(* ================================================================== *)
(** ** Reading and writing arrays *)

Section Blocks.
Context {T : Type}.
Implicit Types buf blk : list T.

Lemma read_exact buf i x :
  nth_error buf i = Some x -> result (read buf (Z.of_nat i)) = Some x.
Proof.
  intros H. unfold read.
  assert (i < length buf)%nat by (apply nth_error_Some; congruence).
  destruct (Z.leb_spec 0 (Z.of_nat i)); [|lia].
  destruct (Z.ltb_spec (Z.of_nat i) (len buf)); [|unfold len in *; lia].
  simpl. rewrite Nat2Z.id, H. reflexivity.
Qed.

Lemma read_exact_Z buf z x :
  0 <= z -> nth_error buf (Z.to_nat z) = Some x -> result (read buf z) = Some x.
Proof.
  intros Hz H. rewrite <- (Z2Nat.id z Hz). apply read_exact. assumption.
Qed.

Lemma read_outside buf z :
  z < 0 \/ len buf <= z -> read buf z = None.
Proof.
  intros H. unfold read.
  destruct (Z.leb_spec 0 z); destruct (Z.ltb_spec z (len buf));
    simpl; try reflexivity; lia.
Qed.

Lemma read_inv buf z x :
  result (read buf z) = Some x ->
  0 <= z < len buf /\ nth_error buf (Z.to_nat z) = Some x.
Proof.
  unfold read.
  destruct (Z.leb_spec 0 z); destruct (Z.ltb_spec z (len buf));
    simpl; try discriminate.
  destruct (nth_error buf (Z.to_nat z)) as [y|]; simpl; [|discriminate].
  intros [= ->]. split; [lia|reflexivity].
Qed.

Lemma read_block_exact buf d c :
  (d + c <= length buf)%nat ->
  result (read_block buf (Z.of_nat d) (Z.of_nat c)) = Some (slice d (d + c) buf).
Proof.
  intros H. unfold read_block.
  destruct (Z.leb_spec 0 (Z.of_nat d)); [|lia].
  destruct (Z.leb_spec 0 (Z.of_nat c)); [|lia].
  destruct (Z.leb_spec (Z.of_nat d + Z.of_nat c) (len buf));
    [|unfold len in *; lia].
  simpl. rewrite !Nat2Z.id, firstn_skipn_slice. reflexivity.
Qed.

Lemma read_block_all buf :
  result (read_block buf 0 (len buf)) = Some buf.
Proof.
  change 0 with (Z.of_nat 0). unfold len.
  rewrite read_block_exact by (simpl; lia).
  simpl. rewrite slice_all by lia. reflexivity.
Qed.

(** Storing a block right behind the part [done] that is already
    written. *)
Lemma write_block_next done blk junk :
  (length blk <= length junk)%nat ->
  result (write_block (done ++ junk) (len done) blk)
  = Some ((done ++ blk) ++ skipn (length blk) junk).
Proof.
  intros H. unfold write_block.
  pose proof (len_nonneg done).
  destruct (Z.leb_spec 0 (len done)); [|lia].
  destruct (Z.leb_spec (len done + len blk) (len (done ++ junk))).
  2:{ rewrite len_app in *. unfold len in *. lia. }
  simpl. unfold len. rewrite <- Nat2Z.inj_add, !Nat2Z.id.
  rewrite firstn_app, Nat.sub_diag, firstn_O, app_nil_r, firstn_all.
  rewrite skipn_app, skipn_all2 by lia. simpl.
  replace (length done + length blk - length done)%nat with (length blk) by lia.
  rewrite <- app_assoc. reflexivity.
Qed.

Lemma write_block_all buf blk :
  length blk = length buf ->
  result (write_block buf 0 blk) = Some blk.
Proof.
  intros H.
  pose proof (write_block_next [] blk buf) as W. simpl in W.
  change (len []) with 0 in W. rewrite W by lia.
  rewrite H, skipn_all, app_nil_r. reflexivity.
Qed.

End Blocks.

(* ================================================================== *)
(** ** What the collectives deliver *)

Lemma result_mapiM_ranked {A C} (f : nat -> A -> M C) (g : nat * A -> C) i l :
  (forall p, In p (ranked_from i l) -> result (f (fst p) (snd p)) = Some (g p)) ->
  result (mapiM f i l) = Some (map g (ranked_from i l)).
Proof.
  revert i. induction l as [|a l IH]; intros i H; [reflexivity|].
  rewrite ranked_from_cons in *. simpl map. simpl mapiM.
  rewrite (result_bind _ _ (g (i, a))) by (apply (H (i, a)); left; reflexivity).
  rewrite (result_bind _ _ (map g (ranked_from (S i) l)))
    by (apply IH; intros; apply H; right; assumption).
  reflexivity.
Qed.

Lemma skipn_cons_inv {A} i (l : list A) x rest :
  skipn i l = x :: rest -> nth_error l i = Some x /\ skipn (S i) l = rest.
Proof.
  intros H. split.
  - rewrite <- hd_error_skipn, H. reflexivity.
  - replace (S i) with (1 + i)%nat by lia.
    rewrite <- skipn_skipn, H. reflexivity.
Qed.

Lemma nth_error_map_seq {A} (f : nat -> A) n i :
  (i < n)%nat -> nth_error (map f (seq 0 n)) i = Some (f i).
Proof.
  intros H. rewrite nth_error_map, nth_error_seq.
  destruct (Nat.ltb_spec i n); [reflexivity|lia].
Qed.

Section CollectivesDeliver.
Context {T : Type}.
Implicit Types buf blk : list T.

Lemma gather_loop_exact (count : nat) : forall (sendbufs : list (list T)) i done junk,
  (forall sb, In sb sendbufs -> length sb = count) ->
  length done = (i * count)%nat ->
  length junk = (length sendbufs * count)%nat ->
  result (gather_loop sendbufs (Z.of_nat count) (Z.of_nat i) (done ++ junk))
  = Some (done ++ concat sendbufs).
Proof.
  induction sendbufs as [|sb rest IH]; intros i done junk Hsb Hd Hj.
  - simpl in *. destruct junk; [|discriminate]. reflexivity.
  - simpl gather_loop.
    assert (Hlen : length sb = count) by (apply Hsb; left; reflexivity).
    rewrite (result_bind _ _ sb).
    2:{ rewrite <- Hlen. apply read_block_all. }
    replace (Z.of_nat i * Z.of_nat count) with (len done)
      by (unfold len; rewrite Hd; lia).
    simpl in Hj.
    rewrite (result_bind _ _ ((done ++ sb) ++ skipn (length sb) junk)).
    2:{ apply write_block_next. lia. }
    replace (Z.of_nat i + 1) with (Z.of_nat (S i)) by lia.
    rewrite IH.
    + simpl. rewrite <- app_assoc. reflexivity.
    + intros; apply Hsb; right; assumption.
    + rewrite length_app. lia.
    + rewrite length_skipn. lia.
Qed.

Lemma MPI_Gather_exact (count : nat) (sendbufs : list (list T)) recvbuf :
  (forall sb, In sb sendbufs -> length sb = count) ->
  length recvbuf = (length sendbufs * count)%nat ->
  result (MPI_Gather sendbufs (Z.of_nat count) recvbuf) = Some (concat sendbufs).
Proof.
  intros Hsb Hr. unfold MPI_Gather. rewrite result_log.
  apply (gather_loop_exact count sendbufs 0 [] recvbuf Hsb); [reflexivity|assumption].
Qed.

Lemma MPI_Bcast_exact (count : nat) root (others : list (list T)) :
  length root = count ->
  (forall b, In b others -> length b = count) ->
  result (MPI_Bcast (root :: others) (Z.of_nat count))
  = Some (map (fun _ => root) (root :: others)).
Proof.
  intros Hr Ho. unfold MPI_Bcast. rewrite result_log.
  rewrite (result_bind _ _ root).
  2:{ rewrite <- Hr. apply read_block_all. }
  apply result_mapM. intros b Hb. apply write_block_all.
  destruct Hb as [<-|Hb]; [reflexivity|]. rewrite Hr. symmetry. apply Ho, Hb.
Qed.

Lemma MPI_Alltoall_exact (sendbufs : list (list T)) (g : nat -> list T -> T) :
  (forall j sb, (j < length sendbufs)%nat -> In sb sendbufs ->
                nth_error sb j = Some (g j sb)) ->
  result (MPI_Alltoall sendbufs)
  = Some (map (fun p => map (g (fst p)) sendbufs) (ranked sendbufs)).
Proof.
  intros H. unfold MPI_Alltoall. rewrite result_log.
  apply result_mapiM_ranked. intros [j me] Hp. simpl.
  apply result_mapM. intros sb Hsb. apply read_exact. apply H; [|assumption].
  apply In_ranked in Hp. apply nth_error_Some. congruence.
Qed.

Lemma MPI_Allgather_exact (count : nat) (sendbufs : list (list T)) :
  (forall sb, In sb sendbufs -> length sb = count) ->
  result (MPI_Allgather sendbufs (Z.of_nat count))
  = Some (map (fun _ => concat sendbufs) sendbufs).
Proof.
  intros H. unfold MPI_Allgather. rewrite result_log.
  rewrite (result_bind _ _ (map (fun sb => sb) sendbufs)).
  - rewrite map_id. reflexivity.
  - apply result_mapM. intros sb Hsb. rewrite <- (H sb Hsb).
    apply read_block_all.
Qed.

(** A receiver whose displacements are the prefix sums of its counts gets
    the blocks of the senders one after the other. *)
Lemma recv_loop_exact (j : nat) (me : alltoallv_args T) :
  rdispls me = map (psum (recvcounts me)) (seq 0 (length (recvcounts me))) ->
  forall senders blks (i : nat) done junk,
    length (recvcounts me) = (i + length senders)%nat ->
    skipn i (recvcounts me) = map len blks ->
    Forall2 (sends_block j) senders blks ->
    len done = psum (recvcounts me) i ->
    length junk = length (concat blks) ->
    result (recv_loop (Z.of_nat j) me senders (Z.of_nat i) (done ++ junk))
    = Some (done ++ concat blks).
Proof.
  intros Hrd. induction senders as [|s rest IH];
    intros blks i done junk Hlen Hrc Hsend Hdone Hjunk.
  - inversion Hsend; subst. simpl in *.
    destruct junk; [|discriminate]. reflexivity.
  - inversion Hsend as [|s' blk rest' blks' Hs Hrest]; subst.
    destruct Hs as (sd & Hsc & Hsd & Hfit & Hblk).
    simpl in Hrc. apply skipn_cons_inv in Hrc. destruct Hrc as [Hrci Hrc].
    simpl in Hlen. simpl recv_loop.
    rewrite (result_bind _ _ _ Hsc), (result_bind _ _ _ Hsd).
    rewrite (result_bind _ _ (len blk)) by (apply read_exact; assumption).
    rewrite (result_bind _ _ (psum (recvcounts me) i)).
    2:{ apply read_exact. rewrite Hrd. apply nth_error_map_seq. lia. }
    rewrite Z.eqb_refl.
    rewrite (result_bind _ _ blk).
    2:{ unfold len. rewrite read_block_exact by assumption. f_equal. assumption. }
    rewrite <- Hdone. simpl in Hjunk. rewrite length_app in Hjunk.
    rewrite (result_bind _ _ ((done ++ blk) ++ skipn (length blk) junk)).
    2:{ apply write_block_next. lia. }
    replace (Z.of_nat i + 1) with (Z.of_nat (S i)) by lia.
    rewrite (IH blks'); try assumption.
    + simpl. rewrite <- app_assoc. reflexivity.
    + lia.
    + rewrite len_app, (psum_S _ _ _ Hrci). lia.
    + rewrite length_skipn. lia.
Qed.

Lemma MPI_Alltoallv_exact {A} (l : list A) (h : nat * A -> alltoallv_args T)
    (g : nat * A -> list T) :
  (forall p, In p (ranked l) ->
     result (recv_loop (Z.of_nat (fst p)) (h p) (map h (ranked l)) 0 (recvbuf (h p)))
     = Some (g p)) ->
  result (MPI_Alltoallv (map h (ranked l))) = Some (map g (ranked l)).
Proof.
  intros H. unfold MPI_Alltoallv. rewrite result_log.
  apply (result_mapiM
           (fun j me => recv_loop (Z.of_nat j) me (map h (ranked l)) 0 (recvbuf me))
           h g 0 l).
  exact H.
Qed.

End CollectivesDeliver.

(* ================================================================== *)
(** ** Comparators and sorted arrays *)

Section Order.
Context {T : Type}.
Variable comp : T -> T -> bool.

Local Abbreviation equiv := (equiv comp).
Local Abbreviation strict_weak_order := (strict_weak_order comp).
Local Abbreviation swo_irrefl := (swo_irrefl comp).
Local Abbreviation swo_trans := (swo_trans comp).
Local Abbreviation swo_equiv_trans := (swo_equiv_trans comp).
Local Abbreviation not_after := (not_after comp).
Local Abbreviation sorted := (sorted comp).
Local Abbreviation below := (below comp).

Hypothesis swo : strict_weak_order.

Lemma comp_cut x y z : comp x z = true -> comp x y = true \/ comp y z = true.
Proof.
  intros Hxz.
  destruct (comp x y) eqn:Exy; [left; reflexivity|].
  destruct (comp y z) eqn:Eyz; [right; reflexivity|].
  exfalso.
  destruct (comp y x) eqn:Eyx.
  { rewrite (swo_trans swo y x z Eyx Hxz) in Eyz. discriminate. }
  destruct (comp z y) eqn:Ezy.
  { rewrite (swo_trans swo x z y Hxz Ezy) in Exy. discriminate. }
  destruct (swo_equiv_trans swo x y z) as [H _]; [split; assumption..|].
  congruence.
Qed.

Lemma not_after_refl x : not_after x x.
Proof. apply (swo_irrefl swo). Qed.

Lemma not_after_trans x y z : not_after x y -> not_after y z -> not_after x z.
Proof.
  unfold not_after. intros Hxy Hyz.
  destruct (comp z x) eqn:E; [|reflexivity].
  destruct (comp_cut z y x E); congruence.
Qed.

Lemma comp_not_after x y z : comp y z = true -> not_after x y -> comp x z = true.
Proof.
  unfold not_after. intros Hyz Hxy.
  destruct (comp_cut y x z Hyz); congruence.
Qed.

Lemma sorted_strongly l : sorted l -> StronglySorted not_after l.
Proof.
  apply Sorted_StronglySorted. intros x y z. apply not_after_trans.
Qed.

Lemma strongly_sorted l : StronglySorted not_after l -> sorted l.
Proof. apply StronglySorted_Sorted. Qed.

Lemma sorted_nth l : sorted l -> forall i j x y,
  (i <= j)%nat -> nth_error l i = Some x -> nth_error l j = Some y ->
  not_after x y.
Proof.
  intros H. apply sorted_strongly in H.
  induction H as [|a l Hl IH Ha]; intros i j x y Hij Hi Hj.
  - destruct i; discriminate.
  - destruct i as [|i]; destruct j as [|j]; simpl in *.
    + assert (x = y) by congruence. subst. apply not_after_refl.
    + injection Hi as <-. rewrite Forall_forall in Ha. apply Ha.
      eapply nth_error_In. eassumption.
    + lia.
    + apply (IH i j); [lia|assumption..].
Qed.

Lemma sorted_app l1 l2 :
  sorted l1 -> sorted l2 ->
  (forall x y, In x l1 -> In y l2 -> not_after x y) ->
  sorted (l1 ++ l2).
Proof.
  intros H1 H2 H. apply strongly_sorted.
  apply sorted_strongly in H1. apply sorted_strongly in H2.
  induction H1 as [|a l1 Hl1 IH Ha]; [assumption|].
  simpl. constructor.
  - apply IH. intros; apply H; [right|]; assumption.
  - apply Forall_app. split; [assumption|].
    apply Forall_forall. intros y Hy. apply H; [left; reflexivity|assumption].
Qed.

Lemma sorted_skipn l k : sorted l -> sorted (skipn k l).
Proof.
  intros H. apply strongly_sorted. apply sorted_strongly in H.
  revert k. induction H as [|a l Hl IH Ha]; intros [|k]; simpl;
    try constructor; auto.
Qed.

Lemma sorted_firstn l k : sorted l -> sorted (firstn k l).
Proof.
  intros H. apply strongly_sorted. apply sorted_strongly in H.
  revert k. induction H as [|a l Hl IH Ha]; intros [|k]; simpl;
    try constructor; auto.
  rewrite Forall_forall in *. intros x Hx. apply Ha.
  rewrite <- (firstn_skipn k l). apply in_or_app. left. assumption.
Qed.

(** In a list of sorted blocks where no element of a later block goes
    before an element of an earlier one, the concatenation is sorted. *)
Lemma sorted_concat (blocks : list (list T)) :
  (forall b, In b blocks -> sorted b) ->
  (forall i j bi bj x y, (i < j)%nat ->
     nth_error blocks i = Some bi -> nth_error blocks j = Some bj ->
     In x bi -> In y bj -> not_after x y) ->
  sorted (concat blocks).
Proof.
  induction blocks as [|b blocks IH]; intros Hs Hx; [constructor|].
  simpl. apply sorted_app.
  - apply Hs. left. reflexivity.
  - apply IH.
    + intros; apply Hs; right; assumption.
    + intros i j bi bj x y Hij Hi Hj. apply (Hx (S i) (S j)); [lia|assumption..].
  - intros x y Hxb Hy. apply in_concat in Hy. destruct Hy as (bj & Hbj & Hy).
    apply In_nth_error in Hbj. destruct Hbj as [j Hj].
    apply (Hx 0%nat (S j) b bj); [lia|reflexivity|assumption..].
Qed.

(* ---------------------------------------------------------------- *)
(** *** lower_bound *)

(** The search never leaves the range it was given. *)
Lemma lower_bound_loop_range seg val : forall fuel first n,
  (first <= lower_bound_loop comp seg val first n fuel <= first + n)%nat.
Proof.
  induction fuel as [|fuel IH]; intros first n; simpl; [lia|].
  destruct (Nat.eqb_spec n 0); [lia|].
  pose proof (Nat.lt_div2 n ltac:(lia)) as Hh.
  generalize dependent (Nat.div2 n). intros half Hh.
  destruct (nth_error seg (first + half)) as [x|]; [|lia].
  destruct (comp x val).
  - specialize (IH (S (first + half)) (n - half - 1)%nat). lia.
  - specialize (IH first half). lia.
Qed.

Lemma lower_bound_range seg first last val :
  (first <= last)%nat ->
  (first <= lower_bound comp seg first last val <= last)%nat.
Proof.
  intros H. unfold lower_bound.
  pose proof (lower_bound_loop_range seg val (last - first) first (last - first)).
  lia.
Qed.

(** On a range where the elements that go before [val] come first, the
    search finds the point where they end. *)
Lemma lower_bound_loop_point seg val : forall fuel first n,
  (n <= fuel)%nat -> (first + n <= length seg)%nat ->
  (forall i j, (first <= i <= j)%nat -> (j < first + n)%nat ->
               below seg val j = true -> below seg val i = true) ->
  let r := lower_bound_loop comp seg val first n fuel in
  (forall k, (first <= k < r)%nat -> below seg val k = true) /\
  (forall k, (r <= k < first + n)%nat -> below seg val k = false).
Proof.
  induction fuel as [|fuel IH]; intros first n Hfuel Hlen Hmono; simpl.
  { split; intros k Hk; lia. }
  destruct (Nat.eqb_spec n 0) as [->|Hn].
  { split; intros k Hk; lia. }
  pose proof (Nat.lt_div2 n ltac:(lia)) as Hh.
  generalize dependent (Nat.div2 n). intros half Hh.
  destruct (nth_error seg (first + half)) as [x|] eqn:E.
  2:{ apply nth_error_None in E. lia. }
  assert (Hmid : below seg val (first + half) = comp x val).
  { unfold below. rewrite E. reflexivity. }
  destruct (comp x val) eqn:Ec.
  - destruct (IH (S (first + half)) (n - half - 1)%nat) as [IH1 IH2];
      [lia|lia| |].
    { intros i j Hij Hj. apply Hmono; lia. }
    pose proof (lower_bound_loop_range seg val fuel (S (first + half))
                  (n - half - 1)%nat) as Hr.
    split; intros k Hk.
    + destruct (Nat.le_gt_cases k (first + half)).
      * apply (Hmono k (first + half)%nat); [lia|lia|assumption].
      * apply IH1. lia.
    + apply IH2. lia.
  - destruct (IH first half) as [IH1 IH2]; [lia|lia| |].
    { intros i j Hij Hj. apply Hmono; lia. }
    pose proof (lower_bound_loop_range seg val fuel first half) as Hr.
    split; intros k Hk.
    + apply IH1. lia.
    + destruct (Nat.lt_ge_cases k (first + half)).
      * apply IH2. lia.
      * destruct (below seg val k) eqn:Ek; [|reflexivity].
        rewrite (Hmono (first + half)%nat k) in Hmid; [discriminate|lia|lia|assumption].
Qed.

Lemma below_sorted seg val i j :
  sorted seg -> (i <= j)%nat -> below seg val j = true -> below seg val i = true.
Proof.
  intros Hs Hij. unfold below.
  destruct (nth_error seg j) as [y|] eqn:Ej; [|discriminate].
  destruct (nth_error seg i) as [x|] eqn:Ei.
  2:{ apply nth_error_None in Ei.
      assert (j < length seg)%nat by (apply nth_error_Some; congruence). lia. }
  intros Hy. apply (comp_not_after x y val Hy).
  apply (sorted_nth seg Hs i j); assumption.
Qed.

(** On a sorted segment [lower_bound] returns the first offset in
    [first, last] whose element does not go before [val]. *)
Lemma lower_bound_point seg first last val :
  sorted seg -> (first <= last <= length seg)%nat ->
  let r := lower_bound comp seg first last val in
  (forall k x, (first <= k < r)%nat -> nth_error seg k = Some x -> comp x val = true) /\
  (forall k x, (r <= k < last)%nat -> nth_error seg k = Some x -> comp x val = false).
Proof.
  intros Hs Hfl. unfold lower_bound.
  destruct (lower_bound_loop_point seg val (last - first) first (last - first))
    as [H1 H2]; [lia|lia| |].
  { intros i j Hij _. apply below_sorted; [assumption|lia]. }
  split; intros k x Hk Hx.
  - specialize (H1 k Hk). unfold below in H1. rewrite Hx in H1. assumption.
  - specialize (H2 k ltac:(lia)). unfold below in H2. rewrite Hx in H2. assumption.
Qed.

End Order.

(* ================================================================== *)
(** ** Splitting a segment into buckets *)

Section Split.
Context {T : Type}.
Variable comp : T -> T -> bool.

Local Abbreviation pieces := (pieces comp).

Lemma length_pieces seg splitters : forall s_pos,
  length (pieces seg s_pos splitters) = S (length splitters).
Proof.
  induction splitters as [|sp rest IH]; intros s_pos; simpl; [reflexivity|].
  rewrite IH. reflexivity.
Qed.

(** The sub-ranges are contiguous and cover the segment from [s_pos] on. *)
Lemma concat_pieces seg splitters : forall s_pos,
  (s_pos <= length seg)%nat ->
  concat (pieces seg s_pos splitters) = skipn s_pos seg.
Proof.
  induction splitters as [|sp rest IH]; intros s_pos Hs; simpl.
  - rewrite app_nil_r. unfold slice. rewrite firstn_all. reflexivity.
  - pose proof (lower_bound_range comp seg s_pos (length seg) sp Hs) as Hr.
    rewrite IH by lia.
    replace (skipn (lower_bound comp seg s_pos (length seg) sp) seg)
      with (slice (lower_bound comp seg s_pos (length seg) sp) (length seg) seg)
      by (unfold slice; rewrite firstn_all; reflexivity).
    rewrite slice_adjacent by lia.
    unfold slice. rewrite firstn_all. reflexivity.
Qed.

Lemma concat_pieces_0 seg splitters : concat (pieces seg 0 splitters) = seg.
Proof. apply (concat_pieces seg splitters 0%nat). lia. Qed.

Lemma zsum_map_len {A} (blocks : list (list A)) :
  zsum (map len blocks) = len (concat blocks).
Proof.
  induction blocks as [|b blocks IH]; [reflexivity|].
  rewrite map_cons, zsum_cons. simpl concat. rewrite len_app, IH. reflexivity.
Qed.

Lemma nonneg_map_len {A} (blocks : list (list A)) : nonneg (map len blocks).
Proof.
  apply Forall_forall. intros z Hz. apply in_map_iff in Hz.
  destruct Hz as (b & <- & _). apply len_nonneg.
Qed.

(** The counts the loop stores are the lengths of these sub-ranges. *)
Lemma split_loop_exact seg splitters : forall k (i s_pos : nat),
  len seg <= INT_MAX -> len splitters <= INT_MAX ->
  (s_pos <= length seg)%nat ->
  length splitters = (i + k)%nat ->
  result (split_loop comp seg splitters s_pos (Z.of_nat i) k)
  = Some (map len (pieces seg s_pos (skipn i splitters))).
Proof.
  induction k as [|k IH]; intros i s_pos Hseg Hspl Hs Hlen.
  - rewrite skipn_all2 by lia. simpl.
    rewrite to_int_small by (unfold len, INT_MAX in *; lia).
    do 2 f_equal. unfold len. rewrite length_slice. lia.
  - destruct (skipn i splitters) as [|sp rest] eqn:E.
    { apply (f_equal (@length T)) in E. rewrite length_skipn in E.
      simpl in E. lia. }
    apply skipn_cons_inv in E. destruct E as [Hsp Hrest].
    simpl split_loop.
    rewrite (result_bind _ _ sp) by (apply read_exact; assumption).
    pose proof (lower_bound_range comp seg s_pos (length seg) sp Hs) as Hr.
    rewrite to_int_small by (unfold len, INT_MAX in *; lia).
    replace (Z.of_nat i + 1) with (Z.of_nat (S i)) by lia.
    rewrite (result_bind _ _ _
               (IH (S i) (lower_bound comp seg s_pos (length seg) sp)
                   Hseg Hspl ltac:(lia) ltac:(lia))).
    rewrite Hrest. simpl.
    rewrite to_int_small by (unfold len, INT_MAX in *; lia).
    do 2 f_equal. unfold len. rewrite length_slice. lia.
Qed.

Lemma split_counts_exact seg splitters :
  len seg <= INT_MAX -> len splitters + 1 <= INT_MAX ->
  result (split_counts comp seg splitters (len splitters + 1))
  = Some (map len (pieces seg 0 splitters)).
Proof.
  intros Hseg Hspl. unfold split_counts. rewrite result_log.
  replace (len splitters + 1 - 1) with (len splitters) by lia.
  pose proof (len_nonneg splitters).
  rewrite to_int_small by (unfold INT_MAX in *; lia).
  unfold len at 1. rewrite Nat2Z.id.
  apply (split_loop_exact seg splitters (length splitters) 0 0);
    [assumption|lia|lia|reflexivity].
Qed.

(** Every element of a sub-range sits in the segment at an offset that is
    not before the start of the search. *)
Lemma In_pieces seg splitters : forall s_pos k blk x,
  (s_pos <= length seg)%nat ->
  nth_error (pieces seg s_pos splitters) k = Some blk -> In x blk ->
  exists pos, (s_pos <= pos)%nat /\ nth_error seg pos = Some x.
Proof.
  intros s_pos k blk x Hs Hk Hx.
  assert (Hin : In x (skipn s_pos seg)).
  { rewrite <- (concat_pieces seg splitters s_pos Hs).
    apply in_concat. exists blk. split; [|assumption].
    eapply nth_error_In. eassumption. }
  apply In_nth_error in Hin. destruct Hin as [n Hn].
  rewrite nth_error_skipn in Hn. exists (s_pos + n)%nat. split; [lia|assumption].
Qed.

Hypothesis swo : strict_weak_order comp.

(** In a sorted segment, sub-range [k] holds the elements for which
    splitter [k] is the first splitter they go before; the last sub-range
    holds those that go before no splitter. *)
Lemma pieces_bucket seg : sorted comp seg -> forall splitters s_pos k blk x,
  (s_pos <= length seg)%nat ->
  nth_error (pieces seg s_pos splitters) k = Some blk -> In x blk ->
  (forall j sp, (j < k)%nat -> nth_error splitters j = Some sp -> comp x sp = false) /\
  (forall sp, nth_error splitters k = Some sp -> comp x sp = true).
Proof.
  intros Hsorted. induction splitters as [|sp0 rest IH];
    intros s_pos k blk x Hs Hk Hx.
  - split; [intros j sp _ Hj; destruct j; discriminate|].
    intros sp Hsp. destruct k; discriminate.
  - simpl in Hk.
    pose proof (lower_bound_range comp seg s_pos (length seg) sp0 Hs) as Hr.
    destruct (lower_bound_point comp swo seg s_pos (length seg) sp0 Hsorted
                ltac:(lia)) as [Hbelow Habove].
    destruct k as [|k]; simpl in Hk.
    + injection Hk as <-. split; [intros j sp Hj; lia|].
      intros sp [= <-].
      apply In_nth_error in Hx. destruct Hx as [n Hn].
      assert (Hlt : (n < length (slice s_pos (lower_bound comp seg s_pos (length seg) sp0) seg))%nat)
        by (apply nth_error_Some; congruence).
      rewrite length_slice in Hlt.
      rewrite nth_error_slice in Hn by lia.
      apply (Hbelow (s_pos + n)%nat); [lia|assumption].
    + destruct (IH (lower_bound comp seg s_pos (length seg) sp0) k blk x
                  ltac:(lia) Hk Hx) as [IH1 IH2].
      split; [|intros sp Hsp; apply IH2; assumption].
      intros [|j] sp Hj Hsp; simpl in Hsp.
      * injection Hsp as <-.
        destruct (In_pieces seg rest
                    (lower_bound comp seg s_pos (length seg) sp0) k blk x
                    ltac:(lia) Hk Hx) as (pos & Hpos & Hnth).
        apply (Habove pos); [|assumption].
        split; [assumption|]. apply nth_error_Some. congruence.
      * apply (IH1 j); [lia|assumption].
Qed.

(** Claim C6.  On a sorted segment the loop of [get_buckets] stores the
    sizes of [numprocs] contiguous sub-ranges that cover the segment, so
    the counts add up to its size; an element lies in sub-range [k]
    exactly when splitter [k] is the first splitter it goes before, and
    in the last one when it goes before no splitter.  When the splitters
    are themselves sorted, the elements outside the last sub-range are the
    ones that go before the last splitter. *)
Theorem get_buckets_split seg splitters :
  sorted comp seg ->
  len seg <= INT_MAX -> len splitters + 1 <= INT_MAX ->
  let numprocs := len splitters + 1 in
  let buckets := pieces seg 0 splitters in
  result (split_counts comp seg splitters numprocs) = Some (map len buckets) /\
  len buckets = numprocs /\
  concat buckets = seg /\
  zsum (map len buckets) = len seg /\
  (forall k blk x, nth_error buckets k = Some blk -> In x blk ->
     (forall j sp, (j < k)%nat -> nth_error splitters j = Some sp ->
                   comp x sp = false) /\
     (forall sp, nth_error splitters k = Some sp -> comp x sp = true)) /\
  (sorted comp splitters ->
   forall k blk x last,
     nth_error buckets k = Some blk -> In x blk ->
     (k < length splitters)%nat ->
     nth_error splitters (length splitters - 1) = Some last ->
     comp x last = true).
Proof.
  intros Hsorted Hseg Hspl numprocs buckets.
  split; [apply split_counts_exact; assumption|].
  split; [unfold buckets, len; rewrite length_pieces; unfold numprocs, len; lia|].
  split; [apply concat_pieces_0|].
  split; [rewrite zsum_map_len; unfold buckets; rewrite concat_pieces_0; reflexivity|].
  split.
  - intros k blk x Hk Hx.
    apply (pieces_bucket seg Hsorted splitters 0%nat k blk x); [lia|assumption..].
  - intros Hss k blk x last Hk Hx Hlt Hlast.
    destruct (pieces_bucket seg Hsorted splitters 0%nat k blk x ltac:(lia) Hk Hx)
      as [_ H2].
    destruct (nth_error splitters k) as [sp|] eqn:Esp.
    2:{ apply nth_error_None in Esp. lia. }
    specialize (H2 sp eq_refl).
    pose proof (sorted_nth comp swo splitters Hss k (length splitters - 1) sp last
                  ltac:(lia) Esp Hlast) as Hle.
    unfold not_after in Hle.
    destruct (comp_cut comp swo x last sp H2) as [H|H]; [assumption|congruence].
Qed.

End Split.

(* ================================================================== *)
(** ** Sampling and splitters *)

Lemma steps_range size P jump leftover i :
  2 <= P -> 1 <= size -> size = P * jump + leftover -> 0 <= leftover < P ->
  0 <= i < P - 1 ->
  0 <= jump /\ 0 <= (i + 1) * jump + Z.min (i + 1) leftover - 1 < size.
Proof.
  intros HP Hsize Heq Hl Hi.
  assert (Hj : 0 <= jump) by nia.
  split; [assumption|]. split.
  - destruct (Z.eq_dec jump 0) as [->|Hne]; [lia|nia].
  - assert ((i + 1) * jump <= (P - 1) * jump) by nia. lia.
Qed.

Lemma sample_pos_range n P i :
  2 <= P -> 1 <= n -> 0 <= i < P - 1 -> 0 <= sample_pos n P i < n.
Proof.
  intros HP Hn Hi. unfold sample_pos.
  pose proof (Z.div_mod n P ltac:(lia)) as Hdm.
  pose proof (Z.mod_pos_bound n P ltac:(lia)) as Hm.
  apply (steps_range n P (n / P) (n mod P) i); assumption.
Qed.

Lemma splitter_pos_range P i :
  2 <= P -> 0 <= i < P - 1 -> 0 <= splitter_pos P i < P * (P - 1).
Proof. intros HP Hi. unfold splitter_pos. nia. Qed.

Lemma map_const_length {A B C} (c : C) (l1 : list A) (l2 : list B) :
  length l1 = length l2 -> map (fun _ => c) l1 = map (fun _ => c) l2.
Proof.
  revert l2. induction l1 as [|a l1 IH]; intros [|b l2] H; try discriminate;
    [reflexivity|].
  simpl. f_equal. apply IH. simpl in H. lia.
Qed.

Section Splitters.
Context {T : Type}.
Variable comp : T -> T -> bool.
Variable std_sort : list T -> list T.
Variable fill : T.
Variable junk : nat -> T.

Local Abbreviation local_sample_spec := (local_sample_spec fill).
Local Abbreviation pick_splitters := (pick_splitters fill).
Local Abbreviation splitters_spec := (splitters_spec std_sort fill).

Lemma length_local_sample_spec P seg :
  length (local_sample_spec P seg) = Z.to_nat (P - 1).
Proof. unfold local_sample_spec. rewrite length_map, length_seq. reflexivity. Qed.

Lemma length_pick_splitters P all :
  length (pick_splitters P all) = Z.to_nat (P - 1).
Proof. unfold pick_splitters. rewrite length_map, length_seq. reflexivity. Qed.

Lemma sample_loop_exact seg P :
  2 <= P <= UINT_MAX -> 1 <= len seg <= UINT_MAX ->
  forall k (i : nat),
    Z.of_nat i + Z.of_nat k = P - 1 ->
    result (sample_loop seg (len seg / P) (len seg mod P) (Z.of_nat i)
              (Z.of_nat i * (len seg / P) + Z.min (Z.of_nat i) (len seg mod P)) k)
    = Some (map (fun t => nth (Z.to_nat (sample_pos (len seg) P (Z.of_nat t))) seg fill)
                (seq i k)).
Proof.
  intros HP Hsize.
  pose proof (Z.div_mod (len seg) P ltac:(lia)) as Hdm.
  pose proof (Z.mod_pos_bound (len seg) P ltac:(lia)) as Hm.
  induction k as [|k IH]; intros i Hik; [reflexivity|].
  pose proof (sample_pos_range (len seg) P (Z.of_nat i) ltac:(lia) ltac:(lia)
                ltac:(lia)) as Hpos.
  unfold sample_pos in Hpos.
  destruct (steps_range (len seg) P (len seg / P) (len seg mod P) (Z.of_nat i))
    as [Hj _]; try lia.
  simpl sample_loop.
  assert (Hstep : Z.of_nat i * (len seg / P) + Z.min (Z.of_nat i) (len seg mod P)
                  + to_unsigned (len seg / P + b2z (Z.of_nat i <? len seg mod P))
                  = Z.of_nat (S i) * (len seg / P)
                    + Z.min (Z.of_nat (S i)) (len seg mod P)).
  { assert (len seg / P <= len seg) by nia.
    rewrite to_unsigned_small.
    - destruct (Z.ltb_spec (Z.of_nat i) (len seg mod P)); simpl b2z; lia.
    - destruct (Z.ltb_spec (Z.of_nat i) (len seg mod P)); simpl b2z;
        unfold UINT_MAX in *; nia. }
  rewrite Hstep.
  rewrite (result_bind _ _
             (nth (Z.to_nat (sample_pos (len seg) P (Z.of_nat i))) seg fill)).
  2:{ apply read_exact_Z.
      - replace (Z.of_nat (S i)) with (Z.of_nat i + 1) by lia. lia.
      - replace (Z.of_nat (S i) * (len seg / P)
                 + Z.min (Z.of_nat (S i)) (len seg mod P) - 1)
          with (sample_pos (len seg) P (Z.of_nat i))
          by (unfold sample_pos; f_equal; lia).
        apply nth_error_nth'. unfold sample_pos, len in *. lia. }
  rewrite to_unsigned_small by (unfold UINT_MAX in *; lia).
  replace (Z.of_nat i + 1) with (Z.of_nat (S i)) by lia.
  rewrite (result_bind _ _ _ (IH (S i) ltac:(lia))).
  reflexivity.
Qed.

Lemma local_sample_exact seg P :
  2 <= P <= UINT_MAX -> 1 <= len seg <= UINT_MAX ->
  result (local_sample seg P) = Some (local_sample_spec P seg).
Proof.
  intros HP Hsize. unfold local_sample. rewrite result_log.
  rewrite (to_unsigned_small (len seg)) by lia.
  rewrite (to_unsigned_small (P - 1)) by lia.
  replace (P - 1 + 1) with P by lia.
  rewrite (to_unsigned_small P) by lia.
  pose proof (sample_loop_exact seg P HP Hsize (Z.to_nat (P - 1)) 0
                ltac:(lia)) as H.
  pose proof (Z.mod_pos_bound (len seg) P ltac:(lia)) as Hm.
  change (Z.of_nat 0) with 0 in H.
  rewrite Z.min_l, Z.mul_0_l in H by lia. exact H.
Qed.

(** An empty segment: the first sample is read one element before
    [begin]. *)
Lemma local_sample_empty P :
  2 <= P <= UINT_MAX -> local_sample (@nil T) P = None.
Proof.
  intros HP. apply result_None. unfold local_sample. rewrite result_log.
  rewrite (to_unsigned_small (P - 1)) by lia.
  destruct (Z.to_nat (P - 1)) as [|k] eqn:E; [lia|].
  reflexivity.
Qed.

Lemma splitter_loop_exact all P :
  2 <= P -> P * (P - 1) <= UINT_MAX -> len all = P * (P - 1) ->
  forall k (i : nat),
    Z.of_nat i + Z.of_nat k = P - 1 ->
    result (splitter_loop all (P - 1) (P * (P - 1)) (Z.of_nat i * (P - 1)) k)
    = Some (map (fun t => nth (Z.to_nat (splitter_pos P (Z.of_nat t))) all fill)
                (seq i k)).
Proof.
  intros HP Hcap Hall.
  induction k as [|k IH]; intros i Hik; [reflexivity|].
  pose proof (splitter_pos_range P (Z.of_nat i) HP ltac:(lia)) as Hpos.
  unfold splitter_pos in Hpos.
  simpl splitter_loop.
  replace (Z.of_nat i * (P - 1) + (P - 1)) with (Z.of_nat (S i) * (P - 1)) by lia.
  rewrite (to_unsigned_small (Z.of_nat (S i) * (P - 1))) by nia.
  replace (Z.of_nat (S i) * (P - 1) - 1) with (splitter_pos P (Z.of_nat i))
    by (unfold splitter_pos; lia).
  rewrite (to_unsigned_small (splitter_pos P (Z.of_nat i)))
    by (unfold splitter_pos; lia).
  destruct (Z.ltb_spec (splitter_pos P (Z.of_nat i)) (P * (P - 1)));
    [|unfold splitter_pos in *; lia].
  rewrite (result_bind _ _
             (nth (Z.to_nat (splitter_pos P (Z.of_nat i))) all fill)).
  2:{ apply read_exact_Z; [unfold splitter_pos; lia|].
      apply nth_error_nth'. unfold splitter_pos, len in *. lia. }
  rewrite (result_bind _ _ _ (IH (S i) ltac:(lia))).
  reflexivity.
Qed.

Hypothesis sort_perm : forall l, Permutation (std_sort l) l.

Lemma length_std_sort l : length (std_sort l) = length l.
Proof. apply Permutation_length, sort_perm. Qed.

Lemma std_sort_nil : std_sort [] = [].
Proof. apply Permutation_nil. apply Permutation_sym. apply sort_perm. Qed.

Lemma sort_range_all buf : sort_range std_sort buf (len buf) = std_sort buf.
Proof.
  unfold sort_range, len. rewrite Nat2Z.id, firstn_all, skipn_all, app_nil_r.
  reflexivity.
Qed.

Lemma length_concat_const {A} (blocks : list (list A)) n :
  (forall b, In b blocks -> length b = n) ->
  length (concat blocks) = (length blocks * n)%nat.
Proof.
  induction blocks as [|b blocks IH]; intros H; [reflexivity|].
  simpl. rewrite length_app, IH by (intros; apply H; right; assumption).
  rewrite (H b) by (left; reflexivity). reflexivity.
Qed.

(** With no segment empty, every rank gets the same splitters. *)
Lemma get_splitters_exact (segs : list (list T)) :
  2 <= len segs -> len segs * (len segs - 1) <= UINT_MAX ->
  (forall seg, In seg segs -> 1 <= len seg <= UINT_MAX) ->
  result (get_splitters std_sort junk segs (len segs))
  = Some (map (fun _ => splitters_spec segs) segs).
Proof.
  intros HP Hcap Hsegs. set (P := len segs) in *.
  assert (HPu : P <= UINT_MAX) by nia.
  unfold get_splitters.
  rewrite (to_unsigned_small (P - 1)) by lia.
  rewrite (to_unsigned_small (P * (P - 1))) by nia.
  rewrite (result_bind _ _ (map (local_sample_spec P) segs)).
  2:{ apply result_mapM. intros seg Hseg. apply local_sample_exact; [lia|auto]. }
  set (samples := map (local_sample_spec P) segs).
  assert (Hsamples : forall sb, In sb samples -> length sb = Z.to_nat (P - 1)).
  { intros sb Hsb. apply in_map_iff in Hsb. destruct Hsb as (seg & <- & _).
    apply length_local_sample_spec. }
  assert (Hcount : length (concat samples) = Z.to_nat (P * (P - 1))).
  { rewrite (length_concat_const samples _ Hsamples).
    unfold samples. rewrite length_map. fold (len segs) in *.
    unfold P, len. nia. }
  unfold new_array.
  destruct (Z.ltb_spec (P * (P - 1)) 0); [nia|].
  rewrite (result_bind _ _ (map junk (seq 0 (Z.to_nat (P * (P - 1))))))
    by (rewrite result_log; reflexivity).
  rewrite <- (Z2Nat.id (P - 1)) at 1 by lia.
  rewrite (result_bind _ _ (concat samples)).
  2:{ apply MPI_Gather_exact; [assumption|].
      rewrite length_map, length_seq. unfold samples. rewrite length_map.
      unfold P, len. nia. }
  replace (P * (P - 1)) with (len (concat samples)) at 1
    by (unfold len; rewrite Hcount; nia).
  rewrite sort_range_all.
  rewrite (result_bind _ _ (splitters_spec segs)).
  2:{ apply (splitter_loop_exact (std_sort (concat samples)) P HP Hcap
               ltac:(unfold len; rewrite length_std_sort, Hcount; nia)
               (Z.to_nat (P - 1)) 0). lia. }
  rewrite <- (Z2Nat.id (P - 1)) by lia.
  rewrite MPI_Bcast_exact.
  - f_equal.
    apply (map_const_length (splitters_spec segs) (splitters_spec segs :: tl samples) segs).
    simpl. unfold samples. destruct segs; [unfold P, len in HP; simpl in HP; lia|].
    simpl. rewrite length_map. reflexivity.
  - apply length_pick_splitters.
  - intros b Hb. apply Hsamples. destruct samples; [destruct Hb|]. right. exact Hb.
Qed.

End Splitters.

(* ================================================================== *)
(** ** Blocks inside a concatenation *)

Lemma ranked_from_map {A B} (f : A -> B) i (l : list A) :
  ranked_from i (map f l) = map (fun p => (fst p, f (snd p))) (ranked_from i l).
Proof.
  revert i. induction l as [|a l IH]; intros i; [reflexivity|].
  simpl map. rewrite !ranked_from_cons. simpl. rewrite IH. reflexivity.
Qed.

Lemma ranked_map {A B} (f : A -> B) (l : list A) :
  ranked (map f l) = map (fun p => (fst p, f (snd p))) (ranked l).
Proof. apply ranked_from_map. Qed.

Lemma map_snd_ranked {A} (l : list A) : map snd (ranked l) = l.
Proof. apply map_snd_ranked_from. Qed.

Lemma length_ranked {A} (l : list A) : length (ranked l) = length l.
Proof. apply length_ranked_from. Qed.

Lemma In_ranked_lt {A} (l : list A) p : In p (ranked l) -> (fst p < length l)%nat.
Proof.
  destruct p as [k a]. intros H. apply In_ranked in H.
  apply nth_error_Some. simpl. congruence.
Qed.

Lemma In_ranked_In {A} (l : list A) p : In p (ranked l) -> In (snd p) l.
Proof.
  destruct p as [k a]. intros H. apply In_ranked in H.
  eapply nth_error_In. eassumption.
Qed.

Lemma Forall2_map_same {A B C} (R : B -> C -> Prop) (f : A -> B) (g : A -> C) l :
  (forall a, In a l -> R (f a) (g a)) -> Forall2 R (map f l) (map g l).
Proof.
  induction l as [|a l IH]; intros H; simpl; constructor.
  - apply H. left. reflexivity.
  - apply IH. intros; apply H; right; assumption.
Qed.

Section ConcatBlocks.
Context {A : Type}.
Implicit Types blocks : list (list A).

Lemma offset_psum blocks j : Z.of_nat (offset blocks j) = psum (map len blocks) j.
Proof.
  unfold offset, psum. rewrite firstn_map, zsum_map_len. reflexivity.
Qed.

Lemma offset_all blocks j :
  (length blocks <= j)%nat -> offset blocks j = length (concat blocks).
Proof. intros H. unfold offset. rewrite firstn_all2 by assumption. reflexivity. Qed.

Lemma offset_S blocks j blk :
  nth_error blocks j = Some blk ->
  offset blocks (S j) = (offset blocks j + length blk)%nat.
Proof.
  intros H.
  pose proof (offset_psum blocks (S j)) as H1.
  pose proof (offset_psum blocks j) as H2.
  rewrite (psum_S (map len blocks) j (len blk)) in H1
    by (rewrite nth_error_map, H; reflexivity).
  unfold len in *. lia.
Qed.

Lemma offset_mono blocks i j : (i <= j)%nat -> (offset blocks i <= offset blocks j)%nat.
Proof.
  intros H.
  pose proof (offset_psum blocks i). pose proof (offset_psum blocks j).
  pose proof (psum_mono (map len blocks) i j (nonneg_map_len blocks) H). lia.
Qed.

Lemma offset_le blocks j : (offset blocks j <= length (concat blocks))%nat.
Proof.
  rewrite <- (offset_all blocks (length blocks)) by lia.
  destruct (Nat.le_gt_cases j (length blocks)).
  - apply offset_mono. assumption.
  - rewrite (offset_all blocks j) by lia.
    rewrite (offset_all blocks (length blocks)) by lia. lia.
Qed.

(** Block [j] is the slice of the concatenation that starts at its
    offset. *)
Lemma block_of_concat blocks j blk :
  nth_error blocks j = Some blk ->
  (offset blocks j + length blk <= length (concat blocks))%nat /\
  slice (offset blocks j) (offset blocks j + length blk) (concat blocks) = blk.
Proof.
  intros H. split.
  - rewrite <- (offset_S blocks j blk H). apply offset_le.
  - unfold offset.
    rewrite <- (firstn_skipn_middle j blocks H) at 3.
    rewrite concat_app. simpl concat.
    rewrite slice_app.
    rewrite (slice_beyond (length (concat (firstn j blocks)))) by lia.
    simpl.
    replace (length (concat (firstn j blocks)) - length (concat (firstn j blocks)))%nat
      with 0%nat by lia.
    replace (length (concat (firstn j blocks)) + length blk
             - length (concat (firstn j blocks)))%nat
      with (length blk) by lia.
    rewrite slice_app, Nat.sub_diag.
    rewrite slice_all by lia.
    rewrite (slice_empty 0 0) by lia. apply app_nil_r.
Qed.

Lemma length_block_le blocks j blk :
  nth_error blocks j = Some blk -> (length blk <= length (concat blocks))%nat.
Proof. intros H. pose proof (block_of_concat blocks j blk H). lia. Qed.

End ConcatBlocks.

(* ================================================================== *)
(** ** What get_buckets delivers *)

Lemma combine_map_r {A B} (g : A -> B) (l : list A) :
  combine l (map g l) = map (fun a => (a, g a)) l.
Proof.
  induction l as [|a l IH]; [reflexivity|]. simpl. rewrite IH. reflexivity.
Qed.

Lemma length_concat_In {A} (blocks : list (list A)) b :
  In b blocks -> (length b <= length (concat blocks))%nat.
Proof.
  intros H. apply In_nth_error in H. destruct H as [j Hj].
  apply (length_block_le blocks j b Hj).
Qed.

Lemma length_concat_map_le {A B} (f : A -> list B) (g : A -> list B) (l : list A) :
  (forall a, In a l -> (length (f a) <= length (g a))%nat) ->
  (length (concat (map f l)) <= length (concat (map g l)))%nat.
Proof.
  induction l as [|a l IH]; intros H; simpl; [lia|].
  rewrite !length_app.
  specialize (IH ltac:(intros; apply H; right; assumption)).
  specialize (H a ltac:(left; reflexivity)). lia.
Qed.

Section Buckets.
Context {T : Type}.
Variable comp : T -> T -> bool.

Local Abbreviation piece := (piece comp).
Local Abbreviation bucket_spec := (bucket_spec comp).

Lemma nth_error_piece splitters seg j :
  (j <= length splitters)%nat ->
  nth_error (pieces comp seg 0 splitters) j = Some (piece splitters j seg).
Proof.
  intros H. unfold piece. apply nth_error_nth'. rewrite length_pieces. lia.
Qed.

Lemma length_piece_le splitters seg j :
  (length (piece splitters j seg) <= length seg)%nat.
Proof.
  destruct (Nat.le_gt_cases j (length splitters)) as [H|H].
  - pose proof (length_block_le _ _ _ (nth_error_piece splitters seg j H)) as L.
    rewrite concat_pieces_0 in L. assumption.
  - unfold piece. rewrite nth_overflow by (rewrite length_pieces; lia).
    simpl. lia.
Qed.

Lemma length_bucket_spec_le splitters segs j :
  (length (bucket_spec splitters segs j) <= length (concat segs))%nat.
Proof.
  unfold bucket_spec.
  rewrite <- (map_id segs) at 2.
  apply length_concat_map_le. intros seg _. apply length_piece_le.
Qed.

Lemma nth_map_len_pieces splitters seg j :
  nth j (map len (pieces comp seg 0 splitters)) 0 = len (piece splitters j seg).
Proof.
  unfold piece. change 0 with (@len T []) at 1. apply map_nth.
Qed.

(** A sender's part for rank [j] is where its counts and displacements
    say. *)
Lemma piece_sends_block splitters seg (j : nat) fresh rc rd :
  (j <= length splitters)%nat ->
  sends_block j
    (mk_args seg (map len (pieces comp seg 0 splitters))
       (map (psum (map len (pieces comp seg 0 splitters)))
            (seq 0 (S (length splitters))))
       fresh rc rd)
    (piece splitters j seg).
Proof.
  intros Hj. pose proof (nth_error_piece splitters seg j Hj) as Hp.
  exists (offset (pieces comp seg 0 splitters) j).
  cbn [sendcounts sdispls sendbuf].
  split; [|split].
  - apply read_exact. rewrite nth_error_map, Hp. reflexivity.
  - apply read_exact. rewrite offset_psum. apply nth_error_map_seq. lia.
  - pose proof (block_of_concat _ _ _ Hp) as H.
    rewrite concat_pieces_0 in H. exact H.
Qed.

End Buckets.

Section GetBuckets.
Context {T : Type}.
Variable comp : T -> T -> bool.
Variable std_sort : list T -> list T.
Variable fill : T.
Variable junk : nat -> T.
Hypothesis sort_perm : forall l, Permutation (std_sort l) l.

Local Abbreviation bucket_of := (bucket_of comp std_sort fill).

Lemma get_buckets_exact (segs : list (list T)) :
  exchange_ready segs ->
  result (get_buckets comp std_sort junk segs (len segs))
  = Some (map (fun p => mk_bucket (len (bucket_of segs (fst p)))
                                  (bucket_of segs (fst p)))
              (ranked segs)).
Proof.
  intros (HP & Hcap & Hne & Htot).
  set (spl := splitters_spec std_sort fill segs).
  set (R := ranked segs).
  assert (HR : map snd R = segs) by apply map_snd_ranked.
  assert (Hlen1 : forall seg, In seg segs -> 1 <= len seg <= INT_MAX).
  { intros seg Hseg. pose proof (length_concat_In segs seg Hseg).
    specialize (Hne seg Hseg). unfold len in *.
    destruct seg; [congruence|]. simpl length in *. lia. }
  assert (Hspl : length spl = Z.to_nat (len segs - 1))
    by apply length_pick_splitters.
  assert (HPn : Z.to_nat (len segs) = S (length spl)) by lia.
  assert (HPz : len segs = len spl + 1) by (unfold len in *; lia).
  assert (HPi : len segs <= INT_MAX).
  { unfold UINT_MAX, INT_MAX in *. nia. }
  unfold get_buckets.
  (* the splitters *)
  rewrite (result_bind _ _ _
             (get_splitters_exact std_sort fill junk sort_perm segs HP Hcap
                ltac:(intros seg Hseg; specialize (Hlen1 seg Hseg);
                      unfold INT_MAX, UINT_MAX in *; lia))).
  fold spl.
  (* the bucket sizes of every rank *)
  rewrite combine_map_r, mapM_map.
  rewrite (result_bind _ _
             (map (fun seg => map len (pieces comp seg 0 spl)) segs)).
  2:{ apply result_mapM. intros seg Hseg. cbn [fst snd]. rewrite HPz.
      apply split_counts_exact; [apply Hlen1, Hseg|lia]. }
  set (send_counts := map (fun seg => map len (pieces comp seg 0 spl)) segs).
  rewrite (result_bind _ _ (map (fun _ => tt) segs))
    by (apply result_mapM; reflexivity).
  (* every rank learns what it will receive *)
  set (recv_of := fun j : nat => map (fun seg => len (piece comp spl j seg)) segs).
  rewrite (result_bind _ _ (map (fun p => recv_of (fst p)) R)).
  2:{ rewrite (MPI_Alltoall_exact send_counts (fun j sb => nth j sb 0)).
      - f_equal. unfold send_counts at 2. rewrite ranked_map, map_map.
        apply map_ext. intros p. cbn [fst]. unfold send_counts.
        rewrite map_map. apply map_ext. intros seg.
        apply nth_map_len_pieces.
      - intros j sb Hj Hsb. apply nth_error_nth'.
        unfold send_counts in *. rewrite length_map in Hj.
        apply in_map_iff in Hsb. destruct Hsb as (seg & <- & _).
        rewrite length_map, length_pieces. unfold len in *. lia. }
  set (recv_counts := map (fun p => recv_of (fst p)) R).
  assert (Hrecv_len : forall j, length (recv_of j) = length segs)
    by (intros j; unfold recv_of; apply length_map).
  assert (Hrecv_sum : forall j, zsum (recv_of j) = len (bucket_of segs j)).
  { intros j. unfold recv_of, bucket_of, bucket_spec. fold spl.
    rewrite <- zsum_map_len, map_map. reflexivity. }
  assert (Hrecv_fit : forall j, sizes_fit (recv_of j)).
  { intros j. split.
    - unfold recv_of. apply Forall_forall. intros z Hz.
      apply in_map_iff in Hz. destruct Hz as (seg & <- & _). apply len_nonneg.
    - rewrite Hrecv_sum.
      pose proof (length_bucket_spec_le comp spl segs j).
      unfold bucket_of. fold spl. unfold len in *. lia. }
  (* displacements *)
  set (displs := fun c : list Z => map (psum c) (seq 0 (S (length spl)))).
  rewrite (result_bind _ _ (map displs send_counts)).
  2:{ apply result_mapM. intros c Hc. rewrite HPn.
      unfold send_counts in Hc. apply in_map_iff in Hc.
      destruct Hc as (seg & <- & Hseg).
      apply exclusive_sum_exact.
      - split; [apply nonneg_map_len|].
        rewrite zsum_map_len, concat_pieces_0. apply Hlen1, Hseg.
      - rewrite length_map, length_pieces. lia. }
  rewrite (result_bind _ _ (map displs recv_counts)).
  2:{ apply result_mapM. intros c Hc. rewrite HPn.
      unfold recv_counts in Hc. apply in_map_iff in Hc.
      destruct Hc as (p & <- & Hp).
      apply exclusive_sum_exact; [apply Hrecv_fit|].
      rewrite Hrecv_len. unfold len in *. lia. }
  (* bucket_size *)
  rewrite combine_map_r, mapM_map.
  rewrite (result_bind _ _ (map (fun p => len (bucket_of segs (fst p))) R)).
  2:{ unfold recv_counts. rewrite mapM_map.
      apply result_mapM. intros p Hp. cbn [fst snd].
      unfold bucket_size_of.
      rewrite to_int_small by (unfold INT_MAX in *; lia).
      assert (Hlast : (length spl < length (recv_of (fst p)))%nat)
        by (rewrite Hrecv_len; unfold len in *; lia).
      destruct (nth_error (recv_of (fst p)) (length spl)) as [c|] eqn:Ec.
      2:{ apply nth_error_None in Ec. lia. }
      replace (len segs - 1) with (Z.of_nat (length spl)) by (unfold len in *; lia).
      rewrite (result_bind _ _ (psum (recv_of (fst p)) (length spl))).
      2:{ apply read_exact. unfold displs. apply nth_error_map_seq. lia. }
      rewrite (result_bind _ _ c) by (apply read_exact; assumption).
      rewrite <- (psum_S _ _ _ Ec).
      rewrite psum_all by (rewrite Hrecv_len; unfold len in *; lia).
      rewrite Hrecv_sum. simpl. f_equal. apply to_int_small.
      pose proof (length_bucket_spec_le comp spl segs (fst p)).
      pose proof (len_nonneg (bucket_of segs (fst p))).
      unfold bucket_of. fold spl. unfold len, INT_MAX in *. lia. }
  (* the receive buffers *)
  rewrite mapM_map.
  rewrite (result_bind _ _
             (map (fun p => map junk (seq 0 (length (bucket_of segs (fst p))))) R)).
  2:{ apply result_mapM. intros p Hp. unfold new_array.
      pose proof (len_nonneg (bucket_of segs (fst p))).
      destruct (Z.ltb_spec (len (bucket_of segs (fst p))) 0); [lia|].
      rewrite result_log. unfold len. rewrite Nat2Z.id. reflexivity. }
  (* the exchange *)
  replace segs with (map snd R) at 1 by apply map_snd_ranked.
  unfold send_counts.
  replace segs with (map snd R) at 1 by apply map_snd_ranked.
  replace segs with (map snd R) at 1 by apply map_snd_ranked.
  unfold recv_counts. rewrite !map_map, !combine_map, map_map.
  rewrite (result_bind _ _ (map (fun p => bucket_of segs (fst p)) R)).
  2:{ apply MPI_Alltoallv_exact. intros p Hp. cbn [recvbuf].
      change 0 with (Z.of_nat 0).
      rewrite <- (app_nil_l (map junk _)).
      replace (bucket_of segs (fst p))
        with ([] ++ concat (map (fun q => piece comp spl (fst p) (snd q)) R)).
      2:{ simpl. unfold bucket_of, bucket_spec. fold spl.
          rewrite <- HR, map_map. reflexivity. }
      apply recv_loop_exact.
      - cbn [rdispls recvcounts]. unfold displs. rewrite Hrecv_len.
        do 2 f_equal. unfold len in *. lia.
      - cbn [recvcounts]. rewrite Hrecv_len, length_map. unfold R.
        rewrite length_ranked. reflexivity.
      - cbn [recvcounts]. simpl skipn. unfold recv_of.
        rewrite <- HR, !map_map. reflexivity.
      - apply Forall2_map_same. intros q Hq.
        apply piece_sends_block.
        apply In_ranked_lt in Hp. unfold len in *. lia.
      - reflexivity.
      - rewrite length_map, length_seq. reflexivity. }
  rewrite combine_map, map_map. reflexivity.
Qed.

End GetBuckets.

(* ================================================================== *)
(** ** Cutting a concatenation at other places *)

Section Recut.
Context {A : Type}.
Implicit Types (l : list A) (blocks : list (list A)).

Lemma concat_slices a b blocks :
  concat (slices a b blocks) = slice a b (concat blocks).
Proof.
  revert a b. induction blocks as [|blk rest IH]; intros a b; simpl.
  - rewrite slice_nil. reflexivity.
  - rewrite slice_app, IH. reflexivity.
Qed.

Lemma length_slices a b blocks : length (slices a b blocks) = length blocks.
Proof.
  revert a b. induction blocks as [|blk rest IH]; intros a b; simpl;
    [reflexivity|].
  rewrite IH. reflexivity.
Qed.

Lemma offset_cons (blk : list A) rest i :
  offset (blk :: rest) (S i) = (length blk + offset rest i)%nat.
Proof. unfold offset. simpl. rewrite length_app. reflexivity. Qed.

Lemma nth_error_slices blocks : forall a b i blk,
  nth_error blocks i = Some blk ->
  nth_error (slices a b blocks) i
  = Some (slice (a - offset blocks i) (b - offset blocks i) blk).
Proof.
  induction blocks as [|blk0 rest IH]; intros a b i blk H.
  - destruct i; discriminate.
  - destruct i as [|i]; simpl in H.
    + injection H as ->. simpl. unfold offset. simpl.
      rewrite !Nat.sub_0_r. reflexivity.
    + simpl slices. simpl nth_error. rewrite (IH _ _ i blk H).
      rewrite offset_cons. do 2 f_equal; lia.
Qed.

Lemma slice_clamp a b l :
  (a <= b)%nat ->
  slice (Nat.min a (length l)) (Nat.min b (length l)) l = slice a b l.
Proof.
  intros H. unfold slice.
  destruct (Nat.le_gt_cases b (length l)) as [Hb|Hb].
  - replace (Nat.min b (length l)) with b by lia.
    replace (Nat.min a (length l)) with a by lia. reflexivity.
  - replace (Nat.min b (length l)) with (length l) by lia.
    rewrite firstn_all, (firstn_all2 l) by lia.
    destruct (Nat.le_gt_cases a (length l)) as [Ha|Ha].
    + replace (Nat.min a (length l)) with a by lia. reflexivity.
    + replace (Nat.min a (length l)) with (length l) by lia.
      rewrite skipn_all, skipn_all2 by lia. reflexivity.
Qed.

(** Consecutive slices put together again. *)
Lemma concat_slices_tile l (f : nat -> nat) n :
  (forall i j, (i <= j)%nat -> (f i <= f j)%nat) ->
  concat (map (fun k => slice (f k) (f (S k)) l) (seq 0 n))
  = slice (f 0%nat) (f n) l.
Proof.
  intros Hmono. induction n as [|n IH].
  - simpl. rewrite slice_empty by lia. reflexivity.
  - rewrite seq_S, map_app, concat_app, IH. simpl.
    rewrite app_nil_r. apply slice_adjacent.
    split; apply Hmono; lia.
Qed.

End Recut.

(* ================================================================== *)
(** ** The counts of redistribute *)

Lemma nth_error_flat_sizes osz : forall bsz i o b,
  nth_error osz i = Some o -> nth_error bsz i = Some b ->
  nth_error (flat_sizes osz bsz) (2 * i) = Some o /\
  nth_error (flat_sizes osz bsz) (2 * i + 1) = Some b.
Proof.
  induction osz as [|o0 osz IH]; intros bsz i o b Ho Hb.
  - destruct i; discriminate.
  - destruct bsz as [|b0 bsz]; [destruct i; discriminate|].
    destruct i as [|i]; simpl in Ho, Hb.
    + injection Ho as ->. injection Hb as ->. split; reflexivity.
    + destruct (IH bsz i o b Ho Hb) as [H1 H2].
      replace (2 * S i)%nat with (S (S (2 * i))) by lia.
      replace (S (S (2 * i)) + 1)%nat with (S (S (2 * i + 1))) by lia.
      split; assumption.
Qed.

Lemma psum_fit l k : sizes_fit l -> 0 <= psum l k <= INT_MAX.
Proof. intros [H1 H2]. pose proof (psum_bounds l k H1). lia. Qed.

Lemma psum_step l i : sizes_fit l -> psum l i <= psum l (S i).
Proof. intros [H _]. apply psum_mono; [assumption|lia]. Qed.

(** The prefix sums of the counts. *)
Lemma psum_overlaps l x y : sizes_fit l -> forall n j,
  (j <= n)%nat ->
  psum (map (fun i => overlap (psum l i) (psum l (S i)) x y) (seq 0 n)) j
  = overlap 0 (psum l j) x y.
Proof.
  intros Hl n. induction j as [|j IH]; intros Hj.
  - rewrite !psum_0. unfold overlap. lia.
  - rewrite (psum_S _ j (overlap (psum l j) (psum l (S j)) x y))
      by (apply (nth_error_map_seq
                   (fun i => overlap (psum l i) (psum l (S i)) x y)); lia).
    rewrite IH by lia.
    apply overlap_adjacent.
    pose proof (psum_fit l j Hl). pose proof (psum_step l j Hl). lia.
Qed.

Lemma nonneg_overlaps (f g : nat -> Z) x y (idx : list nat) :
  nonneg (map (fun i => overlap (f i) (g i) x y) idx).
Proof.
  apply Forall_forall. intros z Hz. apply in_map_iff in Hz.
  destruct Hz as (i & <- & _). apply overlap_nonneg.
Qed.

Lemma overlaps_fit l x y n :
  sizes_fit l -> x <= y ->
  sizes_fit (map (fun i => overlap (psum l i) (psum l (S i)) x y) (seq 0 n)).
Proof.
  intros Hl Hxy. split; [apply nonneg_overlaps|].
  rewrite <- (psum_all _ n) by (rewrite length_map, length_seq; lia).
  rewrite (psum_overlaps l x y Hl n n) by lia.
  pose proof (psum_fit l n Hl).
  pose proof (overlap_le_l 0 (psum l n) x y). lia.
Qed.

Section Counts.
Variables osz bsz : list Z.
Hypothesis Hlen : length osz = length bsz.
Hypothesis Ho : sizes_fit osz.
Hypothesis Hb : sizes_fit bsz.
Hypothesis Hn : 2 * len osz + 1 <= INT_MAX.

Let flat := flat_sizes osz bsz.
Local Abbreviation send_counts_spec := (send_counts_spec osz bsz).
Local Abbreviation recv_counts_spec := (recv_counts_spec osz bsz).

Lemma read_flat (i : nat) :
  (i < length osz)%nat ->
  exists o b,
    nth_error osz i = Some o /\ nth_error bsz i = Some b /\
    result (read flat (to_int (2 * Z.of_nat i))) = Some o /\
    result (read flat (to_int (2 * Z.of_nat i + 1))) = Some b.
Proof.
  intros Hi.
  destruct (nth_error osz i) as [o|] eqn:Eo.
  2:{ apply nth_error_None in Eo. lia. }
  destruct (nth_error bsz i) as [b|] eqn:Eb.
  2:{ apply nth_error_None in Eb. lia. }
  exists o, b. split; [reflexivity|]. split; [reflexivity|].
  destruct (nth_error_flat_sizes osz bsz i o b Eo Eb) as [H1 H2].
  rewrite !to_int_small by (unfold len, INT_MAX in *; lia).
  split.
  - replace (2 * Z.of_nat i) with (Z.of_nat (2 * i)) by lia.
    apply read_exact. assumption.
  - replace (2 * Z.of_nat i + 1) with (Z.of_nat (2 * i + 1)) by lia.
    apply read_exact. assumption.
Qed.

Lemma my_begin_loop_exact : forall k (i : nat),
  (i + k <= length osz)%nat ->
  result (my_begin_loop flat (Z.of_nat i) k (psum osz i) (psum bsz i))
  = Some (psum osz (i + k), psum bsz (i + k)).
Proof.
  induction k as [|k IH]; intros i Hik.
  - rewrite Nat.add_0_r. reflexivity.
  - simpl my_begin_loop.
    destruct (read_flat i ltac:(lia)) as (o & b & Eo & Eb & Ro & Rb).
    rewrite (result_bind _ _ _ Ro), (result_bind _ _ _ Rb).
    rewrite <- (psum_S _ _ _ Eo), <- (psum_S _ _ _ Eb).
    rewrite !to_int_small.
    2:{ pose proof (psum_fit bsz (S i) Hb). unfold INT_MAX in *. lia. }
    2:{ pose proof (psum_fit osz (S i) Ho). unfold INT_MAX in *. lia. }
    2:{ unfold len, INT_MAX in *. lia. }
    replace (Z.of_nat i + 1) with (Z.of_nat (S i)) by lia.
    rewrite IH by lia. do 3 f_equal; lia.
Qed.

Lemma counts_loop_exact (me : nat) : forall k (i : nat),
  (i + k = length osz)%nat ->
  result (counts_loop flat (psum osz me) (psum osz (S me))
            (psum bsz me) (psum bsz (S me))
            (Z.of_nat i) k (psum osz i) (psum bsz i))
  = Some (map (fun i => overlap (psum osz i) (psum osz (S i))
                          (psum bsz me) (psum bsz (S me))) (seq i k),
          map (fun i => overlap (psum bsz i) (psum bsz (S i))
                          (psum osz me) (psum osz (S me))) (seq i k)).
Proof.
  induction k as [|k IH]; intros i Hik; [reflexivity|].
  simpl counts_loop.
  destruct (read_flat i ltac:(lia)) as (o & b & Eo & Eb & Ro & Rb).
  rewrite (result_bind _ _ _ Ro), (result_bind _ _ _ Rb).
  rewrite <- (psum_S _ _ _ Eo), <- (psum_S _ _ _ Eb).
  pose proof (psum_fit osz i Ho). pose proof (psum_fit osz (S i) Ho).
  pose proof (psum_fit bsz i Hb). pose proof (psum_fit bsz (S i) Hb).
  pose proof (psum_fit osz me Ho). pose proof (psum_fit osz (S me) Ho).
  pose proof (psum_fit bsz me Hb). pose proof (psum_fit bsz (S me) Hb).
  pose proof (psum_step osz i Ho). pose proof (psum_step bsz i Hb).
  pose proof (psum_step osz me Ho). pose proof (psum_step bsz me Hb).
  rewrite (to_int_small (psum osz (S i))) by (unfold INT_MAX in *; lia).
  rewrite (to_int_small (psum bsz (S i))) by (unfold INT_MAX in *; lia).
  rewrite (to_int_small (Z.of_nat i + 1)) by (unfold len, INT_MAX in *; lia).
  rewrite !to_unsigned_small by (unfold INT_MAX, UINT_MAX in *; lia).
  rewrite !interval_overlap_exact by (unfold INT_MAX, UINT_MAX in *; lia).
  replace (Z.of_nat i + 1) with (Z.of_nat (S i)) by lia.
  rewrite (result_bind _ _ _ (IH (S i) ltac:(lia))).
  simpl. do 3 f_equal.
  - apply to_int_small.
    pose proof (overlap_nonneg (psum osz i) (psum osz (S i)) (psum bsz me) (psum bsz (S me))).
    pose proof (overlap_le_l (psum osz i) (psum osz (S i)) (psum bsz me) (psum bsz (S me))).
    unfold INT_MAX in *. lia.
  - f_equal. apply to_int_small.
    pose proof (overlap_nonneg (psum bsz i) (psum bsz (S i)) (psum osz me) (psum osz (S me))).
    pose proof (overlap_le_l (psum bsz i) (psum bsz (S i)) (psum osz me) (psum osz (S me))).
    unfold INT_MAX in *. lia.
Qed.

Lemma redistribute_counts_exact (me : nat) :
  (me < length osz)%nat ->
  result (redistribute_counts flat (len osz) (Z.of_nat me))
  = Some (send_counts_spec me, recv_counts_spec me).
Proof.
  intros Hme. unfold redistribute_counts. rewrite !result_log.
  rewrite Nat2Z.id.
  pose proof (my_begin_loop_exact me 0 ltac:(lia)) as Hbegin.
  simpl Nat.add in Hbegin. rewrite !psum_0 in Hbegin.
  rewrite (result_bind _ _ _ Hbegin). cbn [fst snd].
  destruct (read_flat me Hme) as (o & b & Eo & Eb & Ro & Rb).
  rewrite (result_bind _ _ _ Ro), (result_bind _ _ _ Rb).
  rewrite <- (psum_S _ _ _ Eo), <- (psum_S _ _ _ Eb).
  pose proof (psum_fit osz (S me) Ho). pose proof (psum_fit bsz (S me) Hb).
  rewrite !to_int_small by (unfold INT_MAX in *; lia).
  unfold len. rewrite Nat2Z.id.
  pose proof (counts_loop_exact me (length osz) 0 ltac:(lia)) as Hc.
  rewrite !psum_0 in Hc. exact Hc.
Qed.

End Counts.

(* ================================================================== *)
(** ** What redistribute delivers *)

Lemma nth_error_ranked_from {A} (l : list A) : forall s i,
  nth_error (ranked_from s l) i
  = option_map (fun a => ((s + i)%nat, a)) (nth_error l i).
Proof.
  induction l as [|a l IH]; intros s i.
  - destruct i; reflexivity.
  - rewrite ranked_from_cons. destruct i as [|i]; simpl.
    + rewrite Nat.add_0_r. reflexivity.
    + rewrite IH. replace (S s + i)%nat with (s + S i)%nat by lia. reflexivity.
Qed.

Lemma nth_error_ranked {A} (l : list A) i :
  nth_error (ranked l) i = option_map (fun a => (i, a)) (nth_error l i).
Proof. apply (nth_error_ranked_from l 0 i). Qed.

Lemma map_fst_ranked_from {A} (l : list A) : forall s,
  map fst (ranked_from s l) = seq s (length l).
Proof.
  induction l as [|a l IH]; intros s; [reflexivity|].
  rewrite ranked_from_cons. simpl. rewrite IH. reflexivity.
Qed.

Lemma map_fst_ranked {A} (l : list A) : map fst (ranked l) = seq 0 (length l).
Proof. apply map_fst_ranked_from. Qed.

Lemma Forall2_nth_error {A B} (R : A -> B -> Prop) (l1 : list A) : forall (l2 : list B),
  length l1 = length l2 ->
  (forall i a b, nth_error l1 i = Some a -> nth_error l2 i = Some b -> R a b) ->
  Forall2 R l1 l2.
Proof.
  induction l1 as [|a l1 IH]; intros [|b l2] Hlen H; try discriminate;
    constructor.
  - apply (H 0%nat); reflexivity.
  - apply IH; [simpl in Hlen; lia|].
    intros i x y Hx Hy. apply (H (S i)); assumption.
Qed.

Section Redistribute.
Context {T : Type}.
Variable segs : list (list T).
Variable bk : nat -> list T.

(** The buckets: rank [k] holds [bk k]. *)
Let held : list (list T) := map bk (seq 0 (length segs)).

Hypothesis Hranks : 1 <= len segs.
Hypothesis Hn : 2 * len segs + 1 <= INT_MAX.
Hypothesis Htot : length (concat held) = length (concat segs).
Hypothesis Hcap : len (concat segs) <= INT_MAX.

Let osz : list Z := map len segs.
Let bsz : list Z := map len held.

Lemma length_held : length held = length segs.
Proof. unfold held. rewrite length_map, length_seq. reflexivity. Qed.

Lemma osz_fit : sizes_fit osz.
Proof.
  split; [apply nonneg_map_len|]. unfold osz. rewrite zsum_map_len. assumption.
Qed.

Lemma bsz_fit : sizes_fit bsz.
Proof.
  split; [apply nonneg_map_len|]. unfold bsz. rewrite zsum_map_len.
  unfold len in *. rewrite Htot. assumption.
Qed.

Lemma nth_error_held i :
  (i < length segs)%nat -> nth_error held i = Some (bk i).
Proof. intros H. unfold held. apply nth_error_map_seq. assumption. Qed.

Lemma offset_segs_S i seg :
  nth_error segs i = Some seg ->
  offset segs (S i) = (offset segs i + length seg)%nat.
Proof. apply offset_S. Qed.

Lemma offset_held_S i :
  (i < length segs)%nat ->
  offset held (S i) = (offset held i + length (bk i))%nat.
Proof. intros H. apply offset_S. apply nth_error_held. assumption. Qed.

(** The block rank [i] sends to rank [k], as the counts and displacements
    of rank [i] describe it. *)
Lemma held_sends_block (k i : nat) rb rc rd :
  (k < length segs)%nat -> (i < length segs)%nat ->
  sends_block k
    (mk_args (bk i) (send_counts_spec osz bsz i)
       (map (psum (send_counts_spec osz bsz i)) (seq 0 (length segs)))
       rb rc rd)
    (slice (offset segs k - offset held i) (offset segs (S k) - offset held i)
       (bk i)).
Proof.
  intros Hk Hi.
  set (a := (offset segs k - offset held i)%nat).
  set (b := (offset segs (S k) - offset held i)%nat).
  pose proof (offset_mono segs k (S k) ltac:(lia)) as Hmono.
  assert (Hab : (a <= b)%nat) by (unfold a, b; lia).
  pose proof (offset_held_S i Hi) as HB.
  pose proof (offset_psum segs k) as HOk.
  pose proof (offset_psum segs (S k)) as HOk1.
  pose proof (offset_psum held i) as HBi.
  pose proof (offset_psum held (S i)) as HBi1.
  fold osz in HOk, HOk1. fold bsz in HBi, HBi1.
  exists (Nat.min a (length (bk i))). cbn [sendcounts sdispls sendbuf].
  assert (Hlenblk : length (slice a b (bk i))
                    = (Nat.min b (length (bk i)) - a)%nat)
    by apply length_slice.
  split; [|split; [|split]].
  - apply read_exact. unfold send_counts_spec.
    unfold osz at 3. rewrite length_map.
    rewrite (nth_error_map_seq
               (fun i0 => overlap (psum osz i0) (psum osz (S i0))
                            (psum bsz i) (psum bsz (S i)))) by assumption.
    f_equal. unfold len. rewrite Hlenblk.
    rewrite <- HOk, <- HOk1, <- HBi, <- HBi1. unfold overlap, a, b. lia.
  - apply read_exact.
    rewrite (nth_error_map_seq (psum (send_counts_spec osz bsz i))) by assumption.
    f_equal. unfold send_counts_spec.
    rewrite (psum_overlaps osz _ _ osz_fit) by (unfold osz; rewrite length_map; lia).
    rewrite <- HOk, <- HBi, <- HBi1. unfold overlap, a. lia.
  - rewrite Hlenblk. lia.
  - rewrite Hlenblk.
    replace (Nat.min a (length (bk i)) + (Nat.min b (length (bk i)) - a))%nat
      with (Nat.min b (length (bk i))) by lia.
    apply slice_clamp. assumption.
Qed.

Lemma recv_counts_lengths (k : nat) :
  (k < length segs)%nat ->
  recv_counts_spec osz bsz k
  = map len (slices (offset segs k) (offset segs (S k)) held).
Proof.
  intros Hk. apply nth_error_ext. intros i.
  unfold recv_counts_spec. unfold osz at 3. rewrite length_map.
  destruct (Nat.lt_ge_cases i (length segs)) as [Hi|Hi].
  - rewrite (nth_error_map_seq
               (fun i0 => overlap (psum bsz i0) (psum bsz (S i0))
                            (psum osz k) (psum osz (S k)))) by assumption.
    rewrite nth_error_map, (nth_error_slices held _ _ i (bk i))
      by (apply nth_error_held; assumption).
    simpl. f_equal. unfold len. rewrite length_slice.
    pose proof (offset_mono segs k (S k) ltac:(lia)) as Hmono.
    pose proof (offset_held_S i Hi) as HB.
    rewrite <- (offset_psum segs k : _ = psum osz k).
    rewrite <- (offset_psum segs (S k) : _ = psum osz (S k)).
    rewrite <- (offset_psum held i : _ = psum bsz i).
    rewrite <- (offset_psum held (S i) : _ = psum bsz (S i)).
    unfold overlap. lia.
  - transitivity (@None Z); [|symmetry]; apply nth_error_None.
    + rewrite length_map, length_seq. lia.
    + rewrite length_map, length_slices, length_held. lia.
Qed.

End Redistribute.

Section RedistributeAll.
Context {T : Type}.

Lemma redistribute_exact (segs : list (list T)) (bk : nat -> list T) :
  1 <= len segs -> 2 * len segs + 1 <= INT_MAX ->
  length (concat (map bk (seq 0 (length segs)))) = length (concat segs) ->
  len (concat segs) <= INT_MAX ->
  result (redistribute segs
            (map (fun p => mk_bucket (len (bk (fst p))) (bk (fst p))) (ranked segs))
            (len segs))
  = Some (map (fun p => relayout segs (map bk (seq 0 (length segs))) (fst p))
              (ranked segs)).
Proof.
  intros Hranks Hn Htot Hcap.
  set (held := map bk (seq 0 (length segs))) in *.
  set (R := ranked segs).
  set (osz := map len segs). set (bsz := map len held).
  assert (HR : map snd R = segs) by apply map_snd_ranked.
  assert (Hheld : held = map (fun p => bk (fst p)) R).
  { unfold held. rewrite <- (map_fst_ranked segs). fold R.
    rewrite map_map. reflexivity. }
  assert (Hlenh : length held = length segs)
    by (unfold held; rewrite length_map, length_seq; reflexivity).
  assert (Hosz : sizes_fit osz) by (apply osz_fit; assumption).
  assert (Hbsz : sizes_fit bsz) by (apply (bsz_fit segs bk); assumption).
  assert (Hlens : length osz = length bsz)
    by (unfold osz, bsz; rewrite !length_map; lia).
  assert (Hlo : length osz = length segs) by (unfold osz; apply length_map).
  assert (Hsegs_le : forall seg, In seg segs -> 0 <= len seg <= INT_MAX).
  { intros seg Hseg. pose proof (length_concat_In segs seg Hseg).
    unfold len in *. lia. }
  assert (Hbk_le : forall k, (k < length segs)%nat -> 0 <= len (bk k) <= INT_MAX).
  { intros k Hk.
    pose proof (length_block_le held k (bk k) (nth_error_held segs bk k Hk)).
    fold held in Htot. unfold len in *. lia. }
  unfold redistribute.
  rewrite (result_bind _ _ (map (fun _ => tt) segs))
    by (apply result_mapM; reflexivity).
  (* all_sizes *)
  replace segs with (map snd R) at 1 by exact HR.
  rewrite combine_map, map_map.
  rewrite (result_bind _ _ (map (fun _ => flat_sizes osz bsz) R)).
  2:{ change 2 with (Z.of_nat 2).
      rewrite MPI_Allgather_exact.
      - rewrite map_map. f_equal. apply map_ext. intros _.
        unfold flat_sizes, osz, bsz. rewrite Hheld, <- HR.
        rewrite !map_map, combine_map, map_map. f_equal.
        apply map_ext_in. intros p Hp. unfold local_sizes.
        cbn [fst snd bucket_size].
        pose proof (Hsegs_le (snd p) (In_ranked_In segs p Hp)).
        pose proof (Hbk_le (fst p) (In_ranked_lt segs p Hp)).
        rewrite int_unsigned_small, to_int_small by (unfold INT_MAX in *; lia).
        reflexivity.
      - intros sb Hsb. apply in_map_iff in Hsb. destruct Hsb as (p & <- & _).
        reflexivity. }
  (* the counts *)
  rewrite (result_bind _ _
             (map (fun p => (send_counts_spec osz bsz (fst p),
                             recv_counts_spec osz bsz (fst p))) R)).
  2:{ apply (result_mapiM
               (fun myid a => redistribute_counts a (len segs) (Z.of_nat myid))
               (fun _ => flat_sizes osz bsz)).
      intros p Hp.
      replace (len segs) with (len osz) by (unfold len; rewrite Hlo; reflexivity).
      apply redistribute_counts_exact; try assumption.
      - unfold len in *. rewrite Hlo. assumption.
      - rewrite Hlo. apply (In_ranked_lt segs p Hp). }
  (* displacements *)
  set (displs := fun c : list Z => map (psum c) (seq 0 (length segs))).
  assert (Hexcl : forall c, sizes_fit c -> length c = length segs ->
            result (exclusive_sum c (Z.to_nat (len segs))) = Some (displs c)).
  { intros c Hc Hl. unfold len. rewrite Nat2Z.id.
    apply exclusive_sum_exact; [assumption|]. unfold len in *. lia. }
  assert (Hstep : forall l k, sizes_fit l -> psum l k <= psum l (S k))
    by (intros; apply psum_step; assumption).
  rewrite mapM_map.
  rewrite (result_bind _ _ (map (fun p => displs (send_counts_spec osz bsz (fst p))) R)).
  2:{ apply result_mapM. intros p Hp. cbn [fst]. apply Hexcl.
      - apply overlaps_fit; [assumption|apply Hstep; assumption].
      - unfold send_counts_spec. rewrite length_map, length_seq. assumption. }
  rewrite mapM_map.
  rewrite (result_bind _ _ (map (fun p => displs (recv_counts_spec osz bsz (fst p))) R)).
  2:{ apply result_mapM. intros p Hp. cbn [snd]. apply Hexcl.
      - apply overlaps_fit; [assumption|apply Hstep; assumption].
      - unfold recv_counts_spec. rewrite length_map, length_seq. assumption. }
  (* the exchange *)
  replace segs with (map snd R) at 1 by exact HR.
  rewrite !combine_map, map_map.
  apply MPI_Alltoallv_exact. intros p Hp. cbn [recvbuf fst snd].
  pose proof (In_ranked_lt segs p Hp) as Hk.
  destruct p as [k seg]. cbn [fst snd] in *.
  apply In_ranked in Hp.
  pose proof (offset_S segs k seg Hp) as HO.
  pose proof (offset_le segs (S k)) as HOle.
  replace (relayout segs held k)
    with ([] ++ concat (slices (offset segs k) (offset segs (S k)) held))
    by (rewrite concat_slices; reflexivity).
  change 0 with (Z.of_nat 0).
  rewrite <- (app_nil_l seg) at 2.
  apply recv_loop_exact.
  - cbn [rdispls recvcounts]. unfold displs, recv_counts_spec.
    rewrite length_map, length_seq, Hlo. reflexivity.
  - cbn [recvcounts]. unfold recv_counts_spec.
    rewrite !length_map, length_seq. unfold R. rewrite length_ranked. assumption.
  - cbn [recvcounts]. simpl skipn.
    apply (recv_counts_lengths segs bk Htot k Hk).
  - apply Forall2_nth_error.
    + rewrite length_map, length_slices. unfold R.
      rewrite length_ranked. lia.
    + intros i a blk Ha Hblk.
      rewrite nth_error_map in Ha. unfold R in Ha.
      rewrite nth_error_ranked in Ha.
      destruct (nth_error segs i) as [seg_i|] eqn:Ei; [|discriminate].
      assert (Hi : (i < length segs)%nat) by (apply nth_error_Some; congruence).
      simpl in Ha. injection Ha as <-.
      rewrite (nth_error_slices held _ _ i (bk i)) in Hblk
        by (apply nth_error_held; assumption).
      injection Hblk as <-.
      apply (held_sends_block segs bk Htot Hcap k i); assumption.
  - reflexivity.
  - rewrite concat_slices, length_slice. fold held in Htot. lia.
Qed.

End RedistributeAll.

(* ================================================================== *)
(** ** The elements are only moved *)

Lemma map_nth_seq {A} (l : list A) d :
  map (fun j => nth j l d) (seq 0 (length l)) = l.
Proof.
  induction l as [|a l IH]; [reflexivity|].
  simpl length. rewrite <- cons_seq, <- seq_shift. simpl.
  rewrite map_map. simpl. rewrite IH. reflexivity.
Qed.

Lemma perm_concat_map {A B} (f g : A -> list B) l :
  (forall a, In a l -> Permutation (f a) (g a)) ->
  Permutation (concat (map f l)) (concat (map g l)).
Proof.
  induction l as [|a l IH]; intros H; simpl; [constructor|].
  apply Permutation_app.
  - apply H. left. reflexivity.
  - apply IH. intros; apply H; right; assumption.
Qed.

Lemma perm_concat_map_app {A B} (g h : A -> list B) l :
  Permutation (concat (map (fun j => g j ++ h j) l))
              (concat (map g l) ++ concat (map h l)).
Proof.
  induction l as [|a l IH]; simpl; [constructor|].
  rewrite <- !app_assoc. apply Permutation_app_head.
  rewrite IH.
  rewrite !app_assoc. apply Permutation_app_tail.
  apply Permutation_app_comm.
Qed.

Section Moved.
Context {T : Type}.
Variable comp : T -> T -> bool.

(** The buckets of all ranks together hold the elements of all segments. *)
Lemma buckets_perm (splitters : list T) (segs : list (list T)) :
  Permutation
    (concat (map (bucket_spec comp splitters segs) (seq 0 (S (length splitters)))))
    (concat segs).
Proof.
  induction segs as [|seg segs IH].
  - unfold bucket_spec. simpl map at 2.
    induction (seq 0 (S (length splitters))) as [|j js IHj]; [constructor|].
    simpl. assumption.
  - unfold bucket_spec in *. simpl map at 2. simpl concat at 2 3.
    rewrite (perm_concat_map_app (fun j => piece comp splitters j seg)
               (fun j => concat (map (piece comp splitters j) segs))).
    apply Permutation_app; [|exact IH].
    unfold piece. rewrite <- (length_pieces comp seg splitters 0).
    rewrite map_nth_seq, concat_pieces_0. apply Permutation_refl.
Qed.

Hypothesis swo : strict_weak_order comp.

(** No element of a later bucket goes before an element of an earlier
    one. *)
Lemma bucket_order (splitters : list T) (segs : list (list T)) i j x y :
  (forall seg, In seg segs -> sorted comp seg) ->
  (i < j)%nat -> (j <= length splitters)%nat ->
  In x (bucket_spec comp splitters segs i) ->
  In y (bucket_spec comp splitters segs j) ->
  comp y x = false.
Proof.
  intros Hsorted Hij Hj Hx Hy.
  unfold bucket_spec in *.
  apply in_concat in Hx. destruct Hx as (bx & Hbx & Hx).
  apply in_map_iff in Hbx. destruct Hbx as (sa & <- & Hsa).
  apply in_concat in Hy. destruct Hy as (b & Hb & Hy).
  apply in_map_iff in Hb. destruct Hb as (sb & <- & Hsb).
  destruct (pieces_bucket comp swo sa (Hsorted sa Hsa) splitters 0%nat i _ x
              ltac:(lia) (nth_error_piece comp splitters sa i ltac:(lia)) Hx)
    as [_ Hxi].
  destruct (pieces_bucket comp swo sb (Hsorted sb Hsb) splitters 0%nat j _ y
              ltac:(lia) (nth_error_piece comp splitters sb j Hj) Hy)
    as [Hyj _].
  destruct (nth_error splitters i) as [sp|] eqn:Esp.
  2:{ apply nth_error_None in Esp. lia. }
  specialize (Hxi sp eq_refl). specialize (Hyj i sp Hij Esp).
  destruct (comp y x) eqn:E; [|reflexivity].
  rewrite (swo_trans comp swo y x sp E Hxi) in Hyj. discriminate.
Qed.

End Moved.

(* ================================================================== *)
(** ** What samplesort delivers *)

Lemma empty_or_not {A} (segs : list (list A)) :
  (forall seg, In seg segs -> seg <> []) \/ In [] segs.
Proof.
  induction segs as [|seg segs [IH|IH]].
  - left. intros seg [].
  - destruct seg as [|a seg].
    + right. left. reflexivity.
    + left. intros s [<-|Hs]; [discriminate|apply IH; assumption].
  - right. right. assumption.
Qed.

Section SampleSortDelivers.
Context {T : Type}.
Variable comp : T -> T -> bool.
Variable std_sort : list T -> list T.
Variable fill : T.
Variable junk : nat -> T.

Local Abbreviation sorted_buckets := (sorted_buckets comp std_sort fill).
Local Abbreviation samplesort_spec := (samplesort_spec comp std_sort fill).

Hypothesis sort_perm : forall l, Permutation (std_sort l) l.

Lemma std_sort_segs_perm (segs : list (list T)) :
  Permutation (concat (map std_sort segs)) (concat segs).
Proof.
  rewrite <- (map_id segs) at 2.
  apply perm_concat_map. intros seg _. apply sort_perm.
Qed.

Lemma exchange_ready_sorted (segs : list (list T)) :
  exchange_ready segs -> exchange_ready (map std_sort segs).
Proof.
  intros (HP & Hcap & Hne & Htot).
  assert (Hl : len (map std_sort segs) = len segs)
    by (unfold len; rewrite length_map; reflexivity).
  unfold exchange_ready. rewrite !Hl.
  split; [assumption|]. split; [assumption|]. split.
  - intros s Hs. apply in_map_iff in Hs. destruct Hs as (seg & <- & Hseg).
    specialize (Hne seg Hseg). intros E. apply Hne.
    apply length_zero_iff_nil.
    rewrite <- (length_std_sort std_sort sort_perm seg), E. reflexivity.
  - unfold len. rewrite (Permutation_length (std_sort_segs_perm segs)).
    exact Htot.
Qed.

Lemma sorted_buckets_perm (segs : list (list T)) :
  1 <= len segs ->
  Permutation (concat (sorted_buckets segs)) (concat segs).
Proof.
  intros HP. unfold sorted_buckets.
  rewrite (perm_concat_map
             (fun j => std_sort (bucket_of comp std_sort fill (map std_sort segs) j))
             (bucket_of comp std_sort fill (map std_sort segs)))
    by (intros; apply sort_perm).
  rewrite <- (std_sort_segs_perm segs).
  unfold bucket_of.
  replace (length segs)
    with (S (length (splitters_spec std_sort fill (map std_sort segs)))).
  - apply buckets_perm.
  - unfold splitters_spec. rewrite length_pick_splitters.
    unfold len in *. rewrite length_map. lia.
Qed.

Lemma samplesort_exact (segs : list (list T)) :
  exchange_ready segs ->
  result (samplesort comp std_sort junk segs (len segs))
  = Some (samplesort_spec segs).
Proof.
  intros Hready.
  pose proof (exchange_ready_sorted segs Hready) as Hready0.
  destruct Hready as (HP & Hcap & Hne & Htot).
  assert (Hl : length (map std_sort segs) = length segs) by apply length_map.
  assert (Hlz : len segs = len (map std_sort segs))
    by (unfold len; rewrite Hl; reflexivity).
  unfold samplesort.
  destruct (Z.leb_spec (len segs) 1); [lia|].
  rewrite Hlz.
  rewrite (result_bind _ _ _
             (get_buckets_exact comp std_sort fill junk sort_perm _ Hready0)).
  rewrite map_map. cbn [bucket_size bucket_elems].
  rewrite (map_ext_in _
             (fun p => mk_bucket
                (len (std_sort (bucket_of comp std_sort fill (map std_sort segs) (fst p))))
                (std_sort (bucket_of comp std_sort fill (map std_sort segs) (fst p))))).
  2:{ intros p _. rewrite (sort_range_all std_sort).
      unfold len. rewrite (length_std_sort std_sort sort_perm). reflexivity. }
  rewrite (redistribute_exact (map std_sort segs)
             (fun j => std_sort (bucket_of comp std_sort fill (map std_sort segs) j))).
  - f_equal. rewrite Hl. fold (sorted_buckets segs). unfold samplesort_spec.
    rewrite <- Hl, <- (map_fst_ranked (map std_sort segs)), map_map.
    reflexivity.
  - lia.
  - unfold UINT_MAX, INT_MAX in *. rewrite <- Hlz. nia.
  - rewrite Hl. fold (sorted_buckets segs).
    rewrite (Permutation_length (sorted_buckets_perm segs ltac:(lia))).
    symmetry. apply Permutation_length, std_sort_segs_perm.
  - destruct Hready0 as (_ & _ & _ & H0). exact H0.
Qed.

(** The ranks hold, one after the other, what the sorted buckets hold
    one after the other. *)
Lemma concat_samplesort_spec (segs : list (list T)) :
  1 <= len segs ->
  concat (samplesort_spec segs) = concat (sorted_buckets segs).
Proof.
  intros HP. unfold samplesort_spec, relayout.
  rewrite (concat_slices_tile (concat (sorted_buckets segs))
             (offset (map std_sort segs)) (length segs)
             (offset_mono (map std_sort segs))).
  apply slice_all.
  rewrite offset_all by (rewrite length_map; lia).
  rewrite (Permutation_length (sorted_buckets_perm segs HP)).
  rewrite (Permutation_length (std_sort_segs_perm segs)). lia.
Qed.

(** Every rank holds as many elements as it held at the call. *)
Lemma length_samplesort_spec (segs : list (list T)) :
  1 <= len segs ->
  map (@length T) (samplesort_spec segs) = map (@length T) segs.
Proof.
  intros HP. unfold samplesort_spec. rewrite map_map.
  rewrite <- (map_fst_ranked segs), map_map.
  transitivity (map (@length T) (map snd (ranked segs)));
    [|rewrite map_snd_ranked; reflexivity].
  rewrite map_map.
  apply map_ext_in. intros [k seg] Hp. cbn [fst snd].
  apply In_ranked in Hp.
  assert (Hk : nth_error (map std_sort segs) k = Some (std_sort seg))
    by (rewrite nth_error_map, Hp; reflexivity).
  unfold relayout. rewrite length_slice.
  pose proof (offset_S _ _ _ Hk) as HS.
  pose proof (offset_le (map std_sort segs) (S k)) as Hle.
  rewrite (Permutation_length (sorted_buckets_perm segs HP)).
  rewrite (Permutation_length (std_sort_segs_perm segs)) in Hle.
  rewrite (length_std_sort std_sort sort_perm) in HS. lia.
Qed.

(** With a rank that holds no element, the sampling loop fails. *)
Lemma samplesort_empty (segs : list (list T)) :
  2 <= len segs <= UINT_MAX -> In [] segs ->
  samplesort comp std_sort junk segs (len segs) = None.
Proof.
  intros HP Hin. apply result_None. unfold samplesort.
  destruct (Z.leb_spec (len segs) 1); [lia|].
  apply result_bind_fail. unfold get_buckets.
  apply result_bind_fail. unfold get_splitters.
  apply result_bind_fail.
  apply (result_mapM_fail _ _ []).
  - apply in_map_iff. exists []. split; [|assumption].
    apply (std_sort_nil std_sort sort_perm).
  - rewrite (local_sample_empty (len segs) HP). reflexivity.
Qed.

(** The three ways a call can go. *)
Lemma samplesort_cases (segs : list (list T)) :
  fits segs ->
  (len segs <= 1 /\
   samplesort comp std_sort junk segs (len segs) = ret (map std_sort segs)) \/
  (exchange_ready segs /\
   result (samplesort comp std_sort junk segs (len segs))
   = Some (samplesort_spec segs)) \/
  (In [] segs /\ samplesort comp std_sort junk segs (len segs) = None).
Proof.
  intros [Htot Hcap].
  destruct (Z.le_gt_cases (len segs) 1) as [HP|HP].
  - left. split; [assumption|]. unfold samplesort.
    destruct (Z.leb_spec (len segs) 1); [reflexivity|lia].
  - right. destruct (empty_or_not segs) as [Hne|He].
    + left. assert (Hready : exchange_ready segs).
      { split; [lia|]. split; [assumption|]. split; assumption. }
      split; [assumption|]. apply samplesort_exact. assumption.
    + right. split; [assumption|]. apply samplesort_empty; [|assumption].
      unfold UINT_MAX in *. nia.
Qed.

(** Whatever way the call goes, a result holds the elements of the
    input. *)
Lemma samplesort_result_perm (segs : list (list T)) :
  fits segs ->
  forall out,
    result (samplesort comp std_sort junk segs (len segs)) = Some out ->
    Permutation (concat out) (concat segs).
Proof.
  intros Hfits out.
  destruct (samplesort_cases segs Hfits) as [[HP E]|[[Hready E]|[Hin E]]];
    rewrite E.
  - intros [= <-]. apply std_sort_segs_perm.
  - intros [= <-]. destruct Hready as (HP & _).
    rewrite concat_samplesort_spec by lia.
    apply sorted_buckets_perm. lia.
  - intros [=].
Qed.

End SampleSortDelivers.

(* ================================================================== *)
(** ** The properties of the sort *)

Section Properties.
Context {T : Type}.
Variable comp : T -> T -> bool.
Variable std_sort : list T -> list T.
Variable junk : nat -> T.
Let fill : T := junk 0%nat.

(** The sorted buckets, one after the other, are sorted. *)
Lemma sorted_buckets_sorted (segs : list (list T)) :
  strict_weak_order comp ->
  (forall l, Permutation (std_sort l) l) ->
  (forall l, sorted comp (std_sort l)) ->
  1 <= len segs ->
  sorted comp (concat (sorted_buckets comp std_sort fill segs)).
Proof.
  intros swo sort_perm sort_sorted HP.
  set (segs0 := map std_sort segs).
  set (spl := splitters_spec std_sort fill segs0).
  assert (Hspl : S (length spl) = length segs).
  { unfold spl, splitters_spec. rewrite length_pick_splitters.
    unfold segs0, len in *. rewrite length_map. lia. }
  assert (Hblock : forall i b,
            nth_error (sorted_buckets comp std_sort fill segs) i = Some b ->
            (i < length segs)%nat /\
            b = std_sort (bucket_spec comp spl segs0 i)).
  { intros i b Hb. unfold sorted_buckets in Hb.
    assert (Hi : (i < length segs)%nat).
    { assert (H : nth_error (map (fun j => std_sort (bucket_of comp std_sort fill
                   (map std_sort segs) j)) (seq 0 (length segs))) i <> None)
        by congruence.
      apply nth_error_Some in H. rewrite length_map, length_seq in H. exact H. }
    split; [assumption|].
    rewrite (nth_error_map_seq
               (fun j => std_sort (bucket_of comp std_sort fill (map std_sort segs) j)))
      in Hb by assumption.
    injection Hb as <-. reflexivity. }
  apply (sorted_concat comp swo).
  - intros b Hb. apply In_nth_error in Hb. destruct Hb as [i Hi].
    destruct (Hblock i b Hi) as [_ ->]. apply sort_sorted.
  - intros i j bi bj x y Hij Hi Hj Hx Hy.
    destruct (Hblock i bi Hi) as [Hil ->].
    destruct (Hblock j bj Hj) as [Hjl ->].
    apply (Permutation_in _ (sort_perm _)) in Hx.
    apply (Permutation_in _ (sort_perm _)) in Hy.
    apply (bucket_order comp swo spl segs0 i j x y); try assumption; [|lia].
    intros seg Hseg. unfold segs0 in Hseg. apply in_map_iff in Hseg.
    destruct Hseg as (s & <- & _). apply sort_sorted.
Qed.

(** Claim C1.  When [samplesort] has returned on every rank, the
    segments of the ranks, one after the other in rank order, are sorted
    non-decreasingly by the comparator; and it does return when no rank
    holds an empty segment. *)
Theorem samplesort_total_order (segs : list (list T)) :
  strict_weak_order comp ->
  (forall l, Permutation (std_sort l) l) ->
  (forall l, sorted comp (std_sort l)) ->
  fits segs ->
  (forall out,
     result (samplesort comp std_sort junk segs (len segs)) = Some out ->
     sorted comp (concat out)) /\
  ((forall seg, In seg segs -> seg <> []) ->
   exists out, result (samplesort comp std_sort junk segs (len segs)) = Some out).
Proof.
  intros swo sort_perm sort_sorted Hfits.
  destruct (samplesort_cases comp std_sort fill junk sort_perm segs Hfits)
    as [[HP E]|[[Hready E]|[Hin E]]].
  - rewrite E. split.
    + intros out [= <-].
      destruct segs as [|seg [|seg' rest]].
      * constructor.
      * simpl. rewrite app_nil_r. apply sort_sorted.
      * unfold len in HP. simpl in HP. lia.
    + intros _. eexists. reflexivity.
  - rewrite E. split.
    + intros out [= <-].
      destruct Hready as (HP & _).
      rewrite (concat_samplesort_spec comp std_sort fill sort_perm) by lia.
      apply sorted_buckets_sorted; try assumption. lia.
    + intros _. eexists. reflexivity.
  - rewrite E. split.
    + intros out [=].
    + intros Hne. exfalso. apply (Hne [] Hin). reflexivity.
Qed.

(** Claim C10.  The elements the ranks hold when [samplesort] has
    returned are, as a multiset, the elements they held at the call. *)
Theorem samplesort_permutation (segs : list (list T)) :
  (forall l, Permutation (std_sort l) l) ->
  fits segs ->
  forall out,
    result (samplesort comp std_sort junk segs (len segs)) = Some out ->
    Permutation (concat out) (concat segs).
Proof.
  intros sort_perm Hfits out Hout.
  exact (samplesort_result_perm comp std_sort fill junk sort_perm segs Hfits out Hout).
Qed.

Local Abbreviation local_sort_only := (local_sort_only std_sort).

(** Claim C9.  With at most one participant [samplesort] is the local
    sort of the segment: the run has the result of the local sort and
    records neither a collective nor an allocation. *)
Theorem samplesort_single (segs : list (list T)) (numprocs : Z) :
  numprocs <= 1 ->
  samplesort comp std_sort junk segs numprocs = local_sort_only segs /\
  result (samplesort comp std_sort junk segs numprocs) = Some (map std_sort segs) /\
  trace (samplesort comp std_sort junk segs numprocs) = Some [].
Proof.
  intros H. unfold samplesort, local_sort_only.
  destruct (Z.leb_spec numprocs 1); [|lia].
  repeat split.
Qed.

(** Claim C4, as the code has it.  With more than one rank and a rank
    whose segment is empty, the offset of that rank's first sample is -1,
    the read at that offset and the assertion on it fail, and neither
    the sampling loop nor [samplesort] has a result. *)
Theorem samplesort_empty_segment (segs : list (list T)) :
  (forall l, Permutation (std_sort l) l) ->
  2 <= len segs <= UINT_MAX -> In [] segs ->
  sample_pos (len (@nil T)) (len segs) 0 = -1 /\
  read (@nil T) (sample_pos (len (@nil T)) (len segs) 0) = None /\
  local_sample (@nil T) (len segs) = None /\
  samplesort comp std_sort junk segs (len segs) = None.
Proof.
  intros sort_perm HP Hin.
  assert (E : sample_pos (len (@nil T)) (len segs) 0 = -1).
  { unfold sample_pos. change (len (@nil T)) with 0.
    rewrite Z.div_0_l, Z.mod_0_l by lia. reflexivity. }
  split; [exact E|]. split; [rewrite E; reflexivity|]. split.
  - apply local_sample_empty. assumption.
  - apply samplesort_empty; assumption.
Qed.

End Properties.

(* ================================================================== *)
(** ** Sizes *)

Section Sizes.
Context {T : Type}.

Lemma length_relayout (segs held : list (list T)) k seg :
  length (concat held) = length (concat segs) ->
  nth_error segs k = Some seg ->
  length (relayout segs held k) = length seg.
Proof.
  intros Htot Hk. unfold relayout. rewrite length_slice.
  pose proof (offset_S _ _ _ Hk). pose proof (offset_le segs (S k)). lia.
Qed.

(** A list of buckets whose sizes are the lengths of their arrays, read
    rank by rank. *)
Lemma buckets_by_rank (segs : list (list T)) (buckets : list (bucket T)) :
  length buckets = length segs ->
  (forall b, In b buckets -> bucket_size b = len (bucket_elems b)) ->
  let bk := fun k => bucket_elems (nth k buckets (mk_bucket 0 [])) in
  buckets = map (fun p => mk_bucket (len (bk (fst p))) (bk (fst p))) (ranked segs) /\
  map bk (seq 0 (length segs)) = map bucket_elems buckets.
Proof.
  intros Hlen Hsize bk. split.
  - apply nth_error_ext. intros i.
    rewrite nth_error_map, nth_error_ranked.
    destruct (nth_error buckets i) as [b|] eqn:Eb.
    + assert (Hi : (i < length segs)%nat)
        by (rewrite <- Hlen; apply nth_error_Some; congruence).
      destruct (nth_error segs i) as [s|] eqn:Es.
      2:{ apply nth_error_None in Es. lia. }
      simpl. unfold bk. rewrite (nth_error_nth _ _ _ Eb).
      rewrite <- (Hsize b (nth_error_In _ _ Eb)). destruct b. reflexivity.
    + apply nth_error_None in Eb.
      destruct (nth_error segs i) as [s|] eqn:Es; [|reflexivity].
      assert (i < length segs)%nat by (apply nth_error_Some; congruence). lia.
  - rewrite <- Hlen. unfold bk.
    rewrite <- (map_map (fun k => nth k buckets (mk_bucket 0 [])) bucket_elems).
    rewrite map_nth_seq. reflexivity.
Qed.

(** [all_sizes] as [MPI_Allgather] delivers it. *)
Lemma all_sizes_flat (segs : list (list T)) (bk : nat -> list T) :
  (forall seg, In seg segs -> len seg <= INT_MAX) ->
  (forall k, (k < length segs)%nat -> len (bk k) <= INT_MAX) ->
  concat (map (fun a => local_sizes (fst a) (snd a))
            (combine segs
               (map (fun p => mk_bucket (len (bk (fst p))) (bk (fst p)))
                    (ranked segs))))
  = flat_sizes (map len segs) (map len (map bk (seq 0 (length segs)))).
Proof.
  intros Hsegs Hbk.
  rewrite <- (map_snd_ranked segs) at 1.
  rewrite <- (map_fst_ranked segs).
  rewrite <- (map_snd_ranked segs) at 3.
  unfold flat_sizes. rewrite !map_map, !combine_map, !map_map. f_equal.
  apply map_ext_in. intros p Hp. unfold local_sizes. cbn [fst snd bucket_size].
  pose proof (Hsegs (snd p) (In_ranked_In segs p Hp)).
  pose proof (Hbk (fst p) (In_ranked_lt segs p Hp)).
  pose proof (len_nonneg (snd p)). pose proof (len_nonneg (bk (fst p))).
  rewrite int_unsigned_small, to_int_small by (unfold INT_MAX in *; lia).
  reflexivity.
Qed.

Lemma zsum_recv_counts (segs : list (list T)) (bk : nat -> list T) k seg :
  length (concat (map bk (seq 0 (length segs)))) = length (concat segs) ->
  nth_error segs k = Some seg ->
  zsum (recv_counts_spec (map len segs)
          (map len (map bk (seq 0 (length segs)))) k)
  = len seg.
Proof.
  intros Htot Hk.
  assert (Hlt : (k < length segs)%nat) by (apply nth_error_Some; congruence).
  rewrite (recv_counts_lengths segs bk Htot k Hlt).
  rewrite zsum_map_len, concat_slices.
  unfold len. f_equal.
  apply (length_relayout segs _ k seg Htot Hk).
Qed.

End Sizes.

Lemma map_const_lengths {A B C} (c : C) (l1 : list A) : forall (l2 : list B),
  length l1 = length l2 -> map (fun _ => c) l1 = map (fun _ => c) l2.
Proof.
  induction l1 as [|a l1 IH]; intros [|b l2] H; simpl in *;
    try discriminate; [reflexivity|].
  f_equal. apply IH. lia.
Qed.

(** The stages of [redistribute], with what each of them delivers: the
    sizes every rank gathers, the counts every rank computes from them,
    their exclusive sums, and the exchange called with these. *)
Section RedistributeStages.
Context {T : Type}.

Lemma redistribute_stages (segs : list (list T)) (bk : nat -> list T) :
  1 <= len segs -> 2 * len segs + 1 <= INT_MAX ->
  length (concat (map bk (seq 0 (length segs)))) = length (concat segs) ->
  len (concat segs) <= INT_MAX ->
  let held := map bk (seq 0 (length segs)) in
  let osz := map len segs in
  let bsz := map len held in
  let buckets :=
    map (fun p => mk_bucket (len (bk (fst p))) (bk (fst p))) (ranked segs) in
  let counts :=
    map (fun p => (send_counts_spec osz bsz (fst p),
                   recv_counts_spec osz bsz (fst p))) (ranked segs) in
  let displs := fun c : list Z => map (psum c) (seq 0 (length segs)) in
  result (MPI_Allgather
            (map (fun a => local_sizes (fst a) (snd a)) (combine segs buckets)) 2)
  = Some (map (fun _ => flat_sizes osz bsz) segs) /\
  result (mapiM (fun myid a => redistribute_counts a (len segs) (Z.of_nat myid))
            0%nat (map (fun _ => flat_sizes osz bsz) segs))
  = Some counts /\
  result (mapM (fun c => exclusive_sum (fst c) (Z.to_nat (len segs))) counts)
  = Some (map (fun c => displs (fst c)) counts) /\
  result (mapM (fun c => exclusive_sum (snd c) (Z.to_nat (len segs))) counts)
  = Some (map (fun c => displs (snd c)) counts) /\
  result (MPI_Alltoallv
            (map (fun a =>
                    let '(b, (c, (sd, (seg, rd)))) := a in
                    mk_args (bucket_elems b) (fst c) sd seg (snd c) rd)
                 (combine buckets (combine counts
                   (combine (map (fun c => displs (fst c)) counts)
                      (combine segs (map (fun c => displs (snd c)) counts)))))))
  = Some (map (fun p => relayout segs held (fst p)) (ranked segs)).
Proof.
  intros Hranks Hn Htot Hcap held osz bsz buckets counts displs.
  set (R := ranked segs) in *.
  assert (HR : map snd R = segs) by apply map_snd_ranked.
  assert (Hheld : held = map (fun p => bk (fst p)) R).
  { unfold held. rewrite <- (map_fst_ranked segs). fold R.
    rewrite map_map. reflexivity. }
  assert (Hosz : sizes_fit osz) by (apply osz_fit; assumption).
  assert (Hbsz : sizes_fit bsz) by (apply (bsz_fit segs bk); assumption).
  assert (Hlo : length osz = length segs) by (unfold osz; apply length_map).
  assert (Hlens : length osz = length bsz)
    by (unfold osz, bsz, held; rewrite !length_map, length_seq; reflexivity).
  assert (Hsegs_le : forall seg, In seg segs -> len seg <= INT_MAX).
  { intros seg Hseg. pose proof (length_concat_In segs seg Hseg).
    unfold len in *. lia. }
  assert (Hbk_le : forall k, (k < length segs)%nat -> len (bk k) <= INT_MAX).
  { intros k Hk.
    pose proof (length_block_le held k (bk k) (nth_error_held segs bk k Hk)).
    fold held in Htot. unfold len in *. lia. }
  assert (Hstep : forall l k, sizes_fit l -> psum l k <= psum l (S k))
    by (intros; apply psum_step; assumption).
  assert (Hexcl : forall c, sizes_fit c -> length c = length segs ->
            result (exclusive_sum c (Z.to_nat (len segs))) = Some (displs c)).
  { intros c Hc Hl. unfold len. rewrite Nat2Z.id.
    apply exclusive_sum_exact; [assumption|]. unfold len in *. lia. }
  assert (H1 : result (MPI_Allgather
                 (map (fun a => local_sizes (fst a) (snd a))
                      (combine segs buckets)) 2)
               = Some (map (fun _ => flat_sizes osz bsz) segs)).
  { change 2 with (Z.of_nat 2).
    rewrite MPI_Allgather_exact.
    - rewrite map_map. unfold osz, bsz, held.
      rewrite <- (all_sizes_flat segs bk Hsegs_le Hbk_le). fold R buckets.
      f_equal. apply map_const_lengths.
      rewrite length_combine. unfold buckets, R.
      rewrite length_map, length_ranked. lia.
    - intros sb Hsb. apply in_map_iff in Hsb. destruct Hsb as (p & <- & _).
      reflexivity. }
  assert (H2 : result (mapiM (fun myid a =>
                         redistribute_counts a (len segs) (Z.of_nat myid))
                 0%nat (map (fun _ => flat_sizes osz bsz) segs))
               = Some counts).
  { rewrite <- HR at 1. rewrite map_map.
    apply (result_mapiM
             (fun myid a => redistribute_counts a (len segs) (Z.of_nat myid))
             (fun _ => flat_sizes osz bsz)).
    intros p Hp.
    replace (len segs) with (len osz) by (unfold len; rewrite Hlo; reflexivity).
    apply redistribute_counts_exact; try assumption.
    - unfold len in *. rewrite Hlo. assumption.
    - rewrite Hlo. apply (In_ranked_lt segs p Hp). }
  assert (H3 : result (mapM (fun c => exclusive_sum (fst c) (Z.to_nat (len segs)))
                         counts)
               = Some (map (fun c => displs (fst c)) counts)).
  { apply result_mapM. intros c Hc. unfold counts in Hc.
    apply in_map_iff in Hc. destruct Hc as (p & <- & Hp). cbn [fst].
    apply Hexcl.
    - apply overlaps_fit; [assumption|apply Hstep; assumption].
    - unfold send_counts_spec. rewrite length_map, length_seq. assumption. }
  assert (H4 : result (mapM (fun c => exclusive_sum (snd c) (Z.to_nat (len segs)))
                         counts)
               = Some (map (fun c => displs (snd c)) counts)).
  { apply result_mapM. intros c Hc. unfold counts in Hc.
    apply in_map_iff in Hc. destruct Hc as (p & <- & Hp). cbn [snd].
    apply Hexcl.
    - apply overlaps_fit; [assumption|apply Hstep; assumption].
    - unfold recv_counts_spec. rewrite length_map, length_seq. assumption. }
  split; [exact H1|]. split; [exact H2|]. split; [exact H3|].
  split; [exact H4|].
  pose proof (redistribute_exact segs bk Hranks Hn Htot Hcap) as E.
  fold R buckets held in E. unfold redistribute in E.
  rewrite (result_bind _ _ (map (fun _ => tt) segs)) in E
    by (apply result_mapM; reflexivity).
  rewrite (result_bind _ _ _ H1) in E.
  rewrite (result_bind _ _ _ H2) in E.
  rewrite (result_bind _ _ _ H3) in E.
  rewrite (result_bind _ _ _ H4) in E.
  exact E.
Qed.

End RedistributeStages.

Section SizeClaims.
Context {T : Type}.
Variable comp : T -> T -> bool.
Variable std_sort : list T -> list T.
Variable junk : nat -> T.
Let fill : T := junk 0%nat.

(** Claim C2.  Every rank holds after [samplesort] as many elements as
    before, and with two or more ranks what it holds is what
    [redistribute] has written there: [samplesort] calls [redistribute]
    with the sorted buckets that [get_buckets] delivered, one for each
    rank, which hold as many elements in total as the segments.
    In [redistribute], for any such buckets: every rank gathers the same
    [all_sizes]; the receive counts rank [k] computes from the interval
    overlaps are the numbers of elements that the buckets of the ranks,
    one after the other, have in the range of the global sequence that
    segment [k] covers, and they add up to the size of segment [k]; the
    exchange is called with these counts and their exclusive sums, and
    after it the segment of rank [k] is made of the blocks received, of
    these sizes, in rank order: all its elements, and no other, are
    written. *)
Theorem samplesort_count_preservation (segs : list (list T)) :
  (forall l, Permutation (std_sort l) l) ->
  fits segs ->
  (forall out,
     result (samplesort comp std_sort junk segs (len segs)) = Some out ->
     map (@length T) out = map (@length T) segs /\
     (2 <= len segs ->
      exists received buckets,
        result (get_buckets comp std_sort junk (map std_sort segs) (len segs))
        = Some received /\
        buckets
        = map (fun b => mk_bucket (bucket_size b)
                          (sort_range std_sort (bucket_elems b) (bucket_size b)))
              received /\
        length buckets = length segs /\
        (forall b, In b buckets -> bucket_size b = len (bucket_elems b)) /\
        len (concat (map bucket_elems buckets)) = len (concat (map std_sort segs)) /\
        result (redistribute (map std_sort segs) buckets (len segs)) = Some out)) /\
  (forall buckets : list (bucket T),
     1 <= len segs ->
     length buckets = length segs ->
     (forall b, In b buckets -> bucket_size b = len (bucket_elems b)) ->
     len (concat (map bucket_elems buckets)) = len (concat segs) ->
     exists all_sizes counts send_displacements recv_displacements out,
       all_sizes
       = concat (map (fun a => local_sizes (fst a) (snd a)) (combine segs buckets)) /\
       result (MPI_Allgather
                 (map (fun a => local_sizes (fst a) (snd a)) (combine segs buckets)) 2)
       = Some (map (fun _ => all_sizes) segs) /\
       result (mapiM (fun myid a => redistribute_counts a (len segs) (Z.of_nat myid))
                 0%nat (map (fun _ => all_sizes) segs))
       = Some counts /\
       result (mapM (fun c => exclusive_sum (fst c) (Z.to_nat (len segs))) counts)
       = Some send_displacements /\
       result (mapM (fun c => exclusive_sum (snd c) (Z.to_nat (len segs))) counts)
       = Some recv_displacements /\
       result (MPI_Alltoallv
                 (map (fun a =>
                         let '(b, (c, (sd, (seg, rd)))) := a in
                         mk_args (bucket_elems b) (fst c) sd seg (snd c) rd)
                      (combine buckets (combine counts
                        (combine send_displacements
                           (combine segs recv_displacements))))))
       = Some out /\
       result (redistribute segs buckets (len segs)) = Some out /\
       map (@length T) out = map (@length T) segs /\
       forall k seg, nth_error segs k = Some seg ->
         exists send_counts recv_counts,
           nth_error counts k = Some (send_counts, recv_counts) /\
           result (redistribute_counts all_sizes (len segs) (Z.of_nat k))
           = Some (send_counts, recv_counts) /\
           recv_counts
           = map len (slices (offset segs k) (offset segs (S k))
                        (map bucket_elems buckets)) /\
           zsum recv_counts = len seg /\
           nth_error recv_displacements k
           = Some (map (psum recv_counts) (seq 0 (length segs))) /\
           nth_error out k
           = Some (concat (slices (offset segs k) (offset segs (S k))
                             (map bucket_elems buckets)))).
Proof.
  intros sort_perm Hfits. split.
  - intros out Hout. split.
    + revert Hout.
      destruct (samplesort_cases comp std_sort fill junk sort_perm segs Hfits)
        as [[HP E]|[[Hready E]|[Hin E]]]; rewrite E.
      * intros [= <-]. rewrite map_map. apply map_ext. intros seg.
        apply (length_std_sort std_sort sort_perm).
      * intros [= <-]. destruct Hready as (HP & _).
        apply (length_samplesort_spec comp std_sort fill sort_perm). lia.
      * intros [=].
    + intros HP.
      destruct (samplesort_cases comp std_sort fill junk sort_perm segs Hfits)
        as [[HP' E]|[[Hready E]|[Hin E]]]; [lia| |rewrite E in Hout; discriminate].
      rewrite E in Hout. injection Hout as <-.
      pose proof (exchange_ready_sorted std_sort sort_perm segs Hready) as Hready0.
      set (segs0 := map std_sort segs) in *.
      assert (Hl : length segs0 = length segs) by apply length_map.
      assert (Hlz : len segs = len segs0)
        by (unfold len; rewrite Hl; reflexivity).
      set (sb := fun j => std_sort (bucket_of comp std_sort fill segs0 j)).
      assert (Hsorted :
                map (fun b => mk_bucket (bucket_size b)
                         (sort_range std_sort (bucket_elems b) (bucket_size b)))
                    (map (fun p => mk_bucket
                                     (len (bucket_of comp std_sort fill segs0 (fst p)))
                                     (bucket_of comp std_sort fill segs0 (fst p)))
                         (ranked segs0))
                = map (fun p => mk_bucket (len (sb (fst p))) (sb (fst p)))
                      (ranked segs0)).
      { rewrite map_map. apply map_ext. intros p. cbn [bucket_size bucket_elems].
        rewrite (sort_range_all std_sort). unfold sb, len.
        rewrite (length_std_sort std_sort sort_perm). reflexivity. }
      assert (Hheld : map bucket_elems
                        (map (fun p => mk_bucket (len (sb (fst p))) (sb (fst p)))
                             (ranked segs0))
                      = sorted_buckets comp std_sort fill segs).
      { rewrite map_map. cbn [bucket_elems]. unfold sorted_buckets.
        rewrite <- Hl, <- (map_fst_ranked segs0), map_map. reflexivity. }
      assert (Hsame : length (concat (sorted_buckets comp std_sort fill segs))
                      = length (concat segs0)).
      { rewrite (Permutation_length
                   (sorted_buckets_perm comp std_sort fill sort_perm segs
                      ltac:(lia))).
        symmetry. apply Permutation_length.
        apply (std_sort_segs_perm std_sort sort_perm). }
      eexists. eexists. split.
      { rewrite Hlz.
        apply (get_buckets_exact comp std_sort fill junk sort_perm segs0 Hready0). }
      split; [reflexivity|]. rewrite Hsorted.
      split; [rewrite length_map, length_ranked; exact Hl|].
      split.
      { intros b Hb. apply in_map_iff in Hb. destruct Hb as (p & <- & _).
        reflexivity. }
      split; [rewrite Hheld; unfold len; rewrite Hsame; reflexivity|].
      rewrite Hlz.
      rewrite (redistribute_exact segs0 sb).
      * f_equal.
        rewrite <- (map_map fst
                      (fun k => relayout segs0 (map sb (seq 0 (length segs0))) k)).
        rewrite map_fst_ranked, Hl. reflexivity.
      * lia.
      * destruct Hready as (_ & Hcap & _).
        unfold UINT_MAX, INT_MAX in *. rewrite <- Hlz. nia.
      * transitivity (length (concat (sorted_buckets comp std_sort fill segs)));
          [|exact Hsame].
        unfold sorted_buckets. fold segs0. rewrite Hl. reflexivity.
      * destruct Hready0 as (_ & _ & _ & H0). exact H0.
  - destruct Hfits as [Htot Hcap].
    intros buckets HP Hlen Hsize Hsum.
    destruct (buckets_by_rank segs buckets Hlen Hsize) as [Hb Hheld].
    set (bk := fun k => bucket_elems (nth k buckets (mk_bucket 0 []))) in *.
    assert (Hb' : buckets
                  = map (fun p => mk_bucket (len (bk (fst p))) (bk (fst p)))
                        (ranked segs)) by exact Hb.
    clear Hb.
    assert (Hn : 2 * len segs + 1 <= INT_MAX)
      by (unfold UINT_MAX, INT_MAX in *; nia).
    assert (Htot' : length (concat (map bk (seq 0 (length segs))))
                    = length (concat segs))
      by (rewrite Hheld; unfold len in Hsum; lia).
    assert (Hsegs : forall seg, In seg segs -> len seg <= INT_MAX).
    { intros seg Hseg. pose proof (length_concat_In segs seg Hseg).
      unfold len in *. lia. }
    assert (Hbk : forall k, (k < length segs)%nat -> len (bk k) <= INT_MAX).
    { intros k Hk.
      pose proof (length_block_le _ k (bk k) (nth_error_held segs bk k Hk)).
      unfold len in *. lia. }
    pose proof (redistribute_stages segs bk HP Hn Htot' Htot) as HS.
    cbv zeta in HS. destruct HS as (H1 & H2 & H3 & H4 & H5).
    pose proof (redistribute_exact segs bk HP Hn Htot' Htot) as H6.
    pose proof (all_sizes_flat segs bk Hsegs Hbk) as H0.
    rewrite <- Hb' in H0, H1, H5, H6.
    set (osz := map len segs) in *.
    set (bsz := map len (map bk (seq 0 (length segs)))) in *.
    exists (flat_sizes osz bsz).
    exists (map (fun p => (send_counts_spec osz bsz (fst p),
                           recv_counts_spec osz bsz (fst p))) (ranked segs)).
    eexists. eexists. eexists.
    split; [symmetry; exact H0|].
    split; [exact H1|]. split; [exact H2|]. split; [exact H3|].
    split; [exact H4|]. split; [exact H5|]. split; [exact H6|].
    split.
    + rewrite map_map.
      transitivity (map (@length T) (map snd (ranked segs)));
        [|rewrite map_snd_ranked; reflexivity].
      rewrite map_map. apply map_ext_in. intros [k seg] Hp. cbn [fst snd].
      apply In_ranked in Hp. apply length_relayout; assumption.
    + intros k seg Hk.
      assert (Hlt : (k < length segs)%nat) by (apply nth_error_Some; congruence).
      exists (send_counts_spec osz bsz k), (recv_counts_spec osz bsz k).
      split.
      { rewrite nth_error_map, nth_error_ranked, Hk. reflexivity. }
      split.
      { replace (len segs) with (len osz)
          by (unfold len, osz; rewrite length_map; reflexivity).
        apply redistribute_counts_exact.
        * unfold osz, bsz. rewrite !length_map, length_seq. reflexivity.
        * apply osz_fit. assumption.
        * apply (bsz_fit segs bk Htot' Htot).
        * unfold len, osz in *. rewrite length_map. assumption.
        * unfold osz. rewrite length_map. assumption. }
      split.
      { rewrite <- Hheld. apply (recv_counts_lengths segs bk Htot' k Hlt). }
      split; [apply zsum_recv_counts; assumption|].
      split.
      { rewrite !nth_error_map, nth_error_ranked, Hk. reflexivity. }
      rewrite nth_error_map, nth_error_ranked, Hk. cbn [option_map fst].
      unfold relayout. rewrite concat_slices, <- Hheld. reflexivity.
Qed.

(** Claim C8.  The segment sizes add up to the same total [N] at every
    stage: after the local sort, after the exchange of [get_buckets]
    (where the [bucket_size] values of the ranks add up to [N]), and
    after the redistribution. *)
Theorem sizes_sum_invariant (segs : list (list T)) :
  (forall l, Permutation (std_sort l) l) ->
  fits segs ->
  len (concat (map std_sort segs)) = len (concat segs) /\
  (exchange_ready segs ->
   exists buckets,
     result (get_buckets comp std_sort junk (map std_sort segs) (len segs))
     = Some buckets /\
     zsum (map bucket_size buckets) = len (concat segs) /\
     len (concat (map bucket_elems buckets)) = len (concat segs)) /\
  (forall out,
     result (samplesort comp std_sort junk segs (len segs)) = Some out ->
     len (concat out) = len (concat segs)).
Proof.
  intros sort_perm Hfits.
  assert (H0 : len (concat (map std_sort segs)) = len (concat segs)).
  { unfold len. f_equal. apply Permutation_length.
    apply std_sort_segs_perm. assumption. }
  split; [exact H0|]. split.
  - intros Hready.
    pose proof (exchange_ready_sorted std_sort sort_perm segs Hready) as Hready0.
    set (segs0 := map std_sort segs) in *.
    assert (Hl : len segs = len segs0)
      by (unfold segs0, len; rewrite length_map; reflexivity).
    rewrite Hl.
    eexists. split; [apply (get_buckets_exact comp std_sort fill junk sort_perm); assumption|].
    assert (Hall : len (concat (map (bucket_of comp std_sort fill segs0)
                                  (seq 0 (length segs0))))
                   = len (concat segs)).
    { rewrite <- H0. unfold len. f_equal. apply Permutation_length.
      unfold bucket_of.
      replace (length segs0)
        with (S (length (splitters_spec std_sort fill segs0))).
      - apply buckets_perm.
      - unfold splitters_spec. rewrite length_pick_splitters.
        destruct Hready0 as (HP & _). unfold len in *. lia. }
    rewrite <- Hall, <- (map_fst_ranked segs0), !map_map.
    cbn [bucket_size bucket_elems]. split; [|reflexivity].
    rewrite <- zsum_map_len, map_map. reflexivity.
  - intros out Hout. unfold len. f_equal. apply Permutation_length.
    apply (samplesort_result_perm comp std_sort fill junk sort_perm segs Hfits out Hout).
Qed.

(** Claim C7.  With the segments sorted, a rank takes its [i]-th local
    sample at the offset [i + 1] steps of [n / P] into its segment, plus
    one for every one of the first [n mod P] steps, less one; rank 0
    sorts the gathered [P * (P - 1)] samples and takes the [i]-th splitter
    at index [(i + 1) * (P - 1) - 1]; all ranks return these splitters. *)
Theorem get_splitters_sampling (segs : list (list T)) :
  (forall l, Permutation (std_sort l) l) ->
  2 <= len segs -> len segs * (len segs - 1) <= UINT_MAX ->
  (forall seg, In seg segs -> 1 <= len seg <= UINT_MAX) ->
  let P := len segs in
  exists samples splitters,
    Forall2 (fun seg sample =>
               result (local_sample seg P) = Some sample /\
               len sample = P - 1 /\
               forall i, 0 <= i < P - 1 ->
                 nth_error sample (Z.to_nat i)
                 = nth_error seg
                     (Z.to_nat ((i + 1) * (len seg / P)
                                + Z.min (i + 1) (len seg mod P) - 1)))
            segs samples /\
    len (concat samples) = P * (P - 1) /\
    result (get_splitters std_sort junk segs P)
    = Some (map (fun _ => splitters) segs) /\
    len splitters = P - 1 /\
    forall i, 0 <= i < P - 1 ->
      nth_error splitters (Z.to_nat i)
      = nth_error (std_sort (concat samples))
          (Z.to_nat ((i + 1) * (P - 1) - 1)).
Proof.
  intros sort_perm HP Hcap Hsegs P.
  assert (HPu : P <= UINT_MAX) by (unfold P, UINT_MAX in *; nia).
  exists (map (local_sample_spec fill P) segs), (splitters_spec std_sort fill segs).
  assert (Hcount : len (concat (map (local_sample_spec fill P) segs)) = P * (P - 1)).
  { unfold len.
    rewrite (length_concat_const _ (Z.to_nat (P - 1))).
    - rewrite length_map. unfold P, len. nia.
    - intros b Hb. apply in_map_iff in Hb. destruct Hb as (seg & <- & _).
      apply length_local_sample_spec. }
  split; [|split; [exact Hcount|split; [|split]]].
  - rewrite <- (map_id segs) at 1. apply Forall2_map_same.
    intros seg Hseg. specialize (Hsegs seg Hseg).
    split; [apply local_sample_exact; [lia|assumption]|].
    split; [unfold len; rewrite length_local_sample_spec; lia|].
    intros i Hi. unfold local_sample_spec.
    rewrite (nth_error_map_seq
               (fun t => nth (Z.to_nat (sample_pos (len seg) P (Z.of_nat t))) seg fill))
      by lia.
    rewrite Z2Nat.id by lia. symmetry.
    pose proof (sample_pos_range (len seg) P i ltac:(lia) ltac:(lia) Hi) as Hr.
    unfold sample_pos in *.
    apply nth_error_nth'. unfold len in *. lia.
  - apply get_splitters_exact; assumption.
  - unfold len, splitters_spec. rewrite length_pick_splitters. fold P. lia.
  - intros i Hi. unfold splitters_spec, pick_splitters. fold P.
    rewrite (nth_error_map_seq
               (fun t => nth (Z.to_nat (splitter_pos P (Z.of_nat t)))
                           (std_sort (concat (map (local_sample_spec fill P) segs)))
                           fill))
      by lia.
    rewrite Z2Nat.id by lia. symmetry.
    pose proof (splitter_pos_range P i HP Hi) as Hr.
    unfold splitter_pos in *.
    apply nth_error_nth'.
    rewrite (length_std_sort std_sort sort_perm). unfold len in Hcount. lia.
Qed.

End SizeClaims.

(** Claim C5, as the code has it.  No size is checked.  When no count is
    negative and the counts add up to an [int], [exclusive_sum] returns
    the exact prefix sums and [bucket_size] is the exact total. *)
Theorem sizes_exact_when_fit (counts : list Z) :
  sizes_fit counts -> 1 <= len counts <= INT_MAX ->
  let displs := map (psum counts) (seq 0 (length counts)) in
  result (exclusive_sum counts (length counts)) = Some displs /\
  result (bucket_size_of counts displs (len counts)) = Some (zsum counts).
Proof.
  intros Hfit Hlen displs. split.
  - apply exclusive_sum_exact; [assumption|]. unfold len in *. lia.
  - unfold bucket_size_of.
    rewrite to_int_small by (unfold INT_MAX in *; lia).
    replace (len counts - 1) with (Z.of_nat (length counts - 1))
      by (unfold len in *; lia).
    destruct (nth_error counts (length counts - 1)) as [c|] eqn:Ec.
    2:{ apply nth_error_None in Ec. unfold len in *. lia. }
    rewrite (result_bind _ _ (psum counts (length counts - 1))).
    2:{ apply read_exact. unfold displs. apply nth_error_map_seq.
        unfold len in *. lia. }
    rewrite (result_bind _ _ c) by (apply read_exact; assumption).
    rewrite <- (psum_S _ _ _ Ec).
    rewrite psum_all by lia. simpl. f_equal. apply to_int_small.
    destruct Hfit as [Hn Hs]. pose proof (zsum_nonneg counts Hn).
    unfold INT_MAX in *. lia.
Qed.

(** Claim C5 as stated fails: counts beyond the [int] range are neither
    rejected nor reported, the sums wrap around. *)
Lemma sizes_wrap_unreported :
  ~ sizes_fit [2147483647; 1; 0] /\
  zsum [2147483647; 1; 0] = 2147483648 /\
  result (exclusive_sum [2147483647; 1; 0] 3)
  = Some [0; 2147483647; -2147483648] /\
  result (bucket_size_of [2147483647; 1; 0] [0; 2147483647; -2147483648] 3)
  = Some (-2147483648).
Proof.
  split; [|repeat split].
  intros [_ H]. vm_compute in H. apply H. reflexivity.
Qed.

(* ================================================================== *)
(** ** Runs on integers *)

Module ZRunFacts.
Import ZRun.

Lemma ltb_swo : strict_weak_order Z.ltb.
Proof.
  split.
  - apply Z.ltb_irrefl.
  - intros x y z Hxy Hyz. apply Z.ltb_lt in Hxy, Hyz. apply Z.ltb_lt. lia.
  - unfold equiv. intros x y z [H1 H2] [H3 H4].
    apply Z.ltb_ge in H1, H2, H3, H4. split; apply Z.ltb_ge; lia.
Qed.

Lemma insert_perm x l : Permutation (insert x l) (x :: l).
Proof.
  induction l as [|y l IH]; simpl; [apply Permutation_refl|].
  destruct (x <? y); [apply Permutation_refl|].
  rewrite IH. apply perm_swap.
Qed.

Lemma isort_perm l : Permutation (isort l) l.
Proof.
  induction l as [|x l IH]; simpl; [constructor|].
  rewrite insert_perm. constructor. assumption.
Qed.

Lemma insert_sorted x l : sorted Z.ltb l -> sorted Z.ltb (insert x l).
Proof.
  unfold sorted. induction 1 as [|y l Hl IH Hy]; simpl.
  - repeat constructor.
  - destruct (Z.ltb_spec x y).
    + constructor; [constructor; assumption|].
      constructor. unfold not_after. apply Z.ltb_ge. lia.
    + constructor; [assumption|].
      destruct l as [|z l]; simpl.
      * constructor. unfold not_after. apply Z.ltb_ge. lia.
      * destruct (Z.ltb_spec x z); constructor; unfold not_after.
        -- apply Z.ltb_ge. lia.
        -- inversion Hy; assumption.
Qed.

Lemma isort_sorted l : sorted Z.ltb (isort l).
Proof.
  induction l as [|x l IH]; simpl; [constructor|].
  apply insert_sorted. assumption.
Qed.

Lemma four_ranks_fit : fits four_ranks.
Proof. split; vm_compute; discriminate. Qed.

Lemma uneven_ranks_fit : fits uneven_ranks.
Proof. split; vm_compute; discriminate. Qed.

Lemma four_ranks_ready : exchange_ready four_ranks.
Proof.
  split; [vm_compute; discriminate|].
  split; [vm_compute; discriminate|].
  split; [|vm_compute; discriminate].
  intros seg H. repeat (destruct H as [<-|H]; [discriminate|]). destruct H.
Qed.

(** The scenario of the specification: every rank ends with its slice of
    0..11, in ascending order. *)
Example four_ranks_run :
  result (run four_ranks) = Some [[0; 1; 2]; [3; 4; 5]; [6; 7; 8]; [9; 10; 11]].
Proof. vm_compute. reflexivity. Qed.

Example uneven_ranks_run :
  result (run uneven_ranks)
  = Some [[0; 1; 1]; [1; 1]; [1; 1; 2; 3; 4; 5; 7; 8]; [9]].
Proof. vm_compute. reflexivity. Qed.

(** All elements equal: the splitters are all equal, three ranks receive
    no bucket element, and the result is still laid out as the input. *)
Example equal_elements_run :
  result (run [[5; 5; 5]; [5; 5]; [5; 5; 5; 5]; [5]])
  = Some [[5; 5; 5]; [5; 5]; [5; 5; 5; 5]; [5]].
Proof. vm_compute. reflexivity. Qed.

(** Input that is sorted already comes back as it is. *)
Example sorted_input_run :
  result (run [[0; 1; 2]; [3; 4]; [5; 6; 7; 8]])
  = Some [[0; 1; 2]; [3; 4]; [5; 6; 7; 8]].
Proof. vm_compute. reflexivity. Qed.

(** A rank without elements: no result. *)
Example empty_rank_run : run [[1]; []] = None.
Proof. vm_compute. reflexivity. Qed.

End ZRunFacts.

(* ================================================================== *)
(** ** The theorems at concrete inputs *)

Lemma samplesort_total_order_witness :
  fits ZRun.four_ranks /\
  sorted Z.ltb (concat [[0; 1; 2]; [3; 4; 5]; [6; 7; 8]; [9; 10; 11]]) /\
  exists out, result (ZRun.run ZRun.four_ranks) = Some out.
Proof.
  pose proof (samplesort_total_order Z.ltb ZRun.isort (fun _ => 0) ZRun.four_ranks
                ZRunFacts.ltb_swo ZRunFacts.isort_perm ZRunFacts.isort_sorted
                ZRunFacts.four_ranks_fit) as [H1 H2].
  split; [exact ZRunFacts.four_ranks_fit|]. split.
  - apply H1. exact ZRunFacts.four_ranks_run.
  - apply H2. intros seg H.
    repeat (destruct H as [<-|H]; [discriminate|]). destruct H.
Defined.

Lemma samplesort_permutation_witness :
  fits ZRun.uneven_ranks /\
  Permutation
    (concat [[0; 1; 1]; [1; 1]; [1; 1; 2; 3; 4; 5; 7; 8]; [9]])
    (concat ZRun.uneven_ranks).
Proof.
  split; [exact ZRunFacts.uneven_ranks_fit|].
  apply (samplesort_permutation Z.ltb ZRun.isort (fun _ => 0) ZRun.uneven_ranks
           ZRunFacts.isort_perm ZRunFacts.uneven_ranks_fit).
  exact ZRunFacts.uneven_ranks_run.
Defined.

Lemma samplesort_single_witness :
  1 <= 1 /\
  samplesort Z.ltb ZRun.isort (fun _ => 0) [[3; 1; 2]] 1 = Some ([[1; 2; 3]], []).
Proof.
  split; [lia|].
  apply (samplesort_single Z.ltb ZRun.isort (fun _ => 0) [[3; 1; 2]] 1). lia.
Defined.

Lemma samplesort_empty_segment_witness :
  2 <= len [[1]; @nil Z] <= UINT_MAX /\ In [] [[1]; @nil Z] /\
  samplesort Z.ltb ZRun.isort (fun _ => 0) [[1]; []] 2 = None.
Proof.
  assert (H : 2 <= len [[1]; @nil Z] <= UINT_MAX)
    by (split; vm_compute; discriminate).
  assert (Hin : In [] [[1]; @nil Z]) by (right; left; reflexivity).
  split; [exact H|]. split; [exact Hin|].
  apply (samplesort_empty_segment Z.ltb ZRun.isort (fun _ => 0) [[1]; []]
           ZRunFacts.isort_perm H Hin).
Defined.

Lemma samplesort_count_preservation_witness :
  fits ZRun.uneven_ranks /\
  map (@length Z) [[0; 1; 1]; [1; 1]; [1; 1; 2; 3; 4; 5; 7; 8]; [9]]
  = map (@length Z) ZRun.uneven_ranks /\
  exists out sent,
    result (redistribute ZRun.uneven_ranks
              [mk_bucket 4 [0; 1; 1; 1]; mk_bucket 3 [1; 1; 1];
               mk_bucket 5 [2; 3; 4; 5; 7]; mk_bucket 2 [8; 9]] 4)
    = Some out /\
    nth_error out 2 = Some [1; 1; 2; 3; 4; 5; 7; 8] /\
    result (redistribute_counts [3; 4; 2; 3; 8; 5; 1; 2] 4 2)
    = Some (sent, [0; 2; 5; 1]) /\
    zsum [0; 2; 5; 1] = len [7; 2; 8; 1; 1; 1; 1; 1].
Proof.
  split; [exact ZRunFacts.uneven_ranks_fit|].
  destruct (samplesort_count_preservation Z.ltb ZRun.isort (fun _ => 0)
              ZRun.uneven_ranks ZRunFacts.isort_perm ZRunFacts.uneven_ranks_fit)
    as [H1 H2].
  split; [exact (proj1 (H1 _ ZRunFacts.uneven_ranks_run))|].
  destruct (H2 [mk_bucket 4 [0; 1; 1; 1]; mk_bucket 3 [1; 1; 1];
                mk_bucket 5 [2; 3; 4; 5; 7]; mk_bucket 2 [8; 9]])
    as (all_sizes & counts & sd & rd & out & Ha & _ & _ & _ & _ & _ & Hr & _ & Hk).
  - vm_compute; discriminate.
  - reflexivity.
  - intros b H. repeat (destruct H as [<-|H]; [reflexivity|]). destruct H.
  - reflexivity.
  - destruct (Hk 2%nat [7; 2; 8; 1; 1; 1; 1; 1] eq_refl)
      as (sc & rc & _ & Hc & Hrc & Hz & _ & Ho).
    subst all_sizes rc.
    exists out, sc. split; [exact Hr|]. split; [exact Ho|].
    split; [exact Hc|exact Hz].
Defined.

Lemma sizes_sum_invariant_witness :
  fits ZRun.four_ranks /\
  len (concat (map ZRun.isort ZRun.four_ranks)) = 12 /\
  exists buckets,
    result (get_buckets Z.ltb ZRun.isort (fun _ => 0) (map ZRun.isort ZRun.four_ranks) 4)
    = Some buckets /\
    zsum (map bucket_size buckets) = 12.
Proof.
  pose proof (sizes_sum_invariant Z.ltb ZRun.isort (fun _ => 0) ZRun.four_ranks
                ZRunFacts.isort_perm ZRunFacts.four_ranks_fit) as (H1 & H2 & _).
  split; [exact ZRunFacts.four_ranks_fit|]. split; [exact H1|].
  destruct (H2 ZRunFacts.four_ranks_ready) as (buckets & Hb & Hs & _).
  exists buckets. split; assumption.
Defined.

Lemma get_splitters_sampling_witness :
  2 <= len ZRun.four_ranks /\
  exists splitters,
    result (get_splitters ZRun.isort (fun _ => 0) (map ZRun.isort ZRun.four_ranks) 4)
    = Some (map (fun _ => splitters) (map ZRun.isort ZRun.four_ranks)) /\
    len splitters = 3.
Proof.
  split; [vm_compute; discriminate|].
  destruct (get_splitters_sampling ZRun.isort (fun _ => 0) (map ZRun.isort ZRun.four_ranks)
              ZRunFacts.isort_perm)
    as (samples & splitters & _ & _ & Hs & Hl & _).
  - vm_compute; discriminate.
  - vm_compute; discriminate.
  - intros seg H.
    repeat (destruct H as [<-|H]; [split; vm_compute; discriminate|]).
    destruct H.
  - exists splitters. split; assumption.
Defined.

Lemma get_buckets_split_witness :
  sorted Z.ltb [1; 2; 5; 7; 9] /\
  result (split_counts Z.ltb [1; 2; 5; 7; 9] [2; 7; 7] 4) = Some [1; 2; 0; 2].
Proof.
  assert (Hs : sorted Z.ltb [1; 2; 5; 7; 9]) by (repeat constructor).
  split; [exact Hs|].
  destruct (get_buckets_split Z.ltb ZRunFacts.ltb_swo [1; 2; 5; 7; 9] [2; 7; 7] Hs)
    as (H & _).
  - vm_compute; discriminate.
  - vm_compute; discriminate.
  - exact H.
Defined.

Lemma interval_overlap_spec_witness :
  (0 <= 2 <= 5 /\ 5 <= UINT_MAX /\ 0 <= 3 <= 9 /\ 9 <= UINT_MAX) /\
  interval_overlap 2 5 3 9 = interval_overlap 3 9 2 5 /\
  interval_overlap 2 5 3 9 = 2.
Proof.
  assert (B5 : 5 <= UINT_MAX) by (vm_compute; discriminate).
  assert (B9 : 9 <= UINT_MAX) by (vm_compute; discriminate).
  assert (H1 : 0 <= 2 <= 5) by lia.
  assert (H2 : 0 <= 3 <= 9) by lia.
  split; [repeat split; assumption || lia|].
  destruct (interval_overlap_spec 2 5 3 9 H1 B5 H2 B9) as (Hsym & _ & Hcut).
  split; [exact Hsym|]. apply Hcut. lia.
Defined.

Lemma sizes_exact_when_fit_witness :
  sizes_fit [3; 0; 2] /\
  result (exclusive_sum [3; 0; 2] 3) = Some [0; 3; 3] /\
  result (bucket_size_of [3; 0; 2] [0; 3; 3] 3) = Some 5.
Proof.
  assert (H : sizes_fit [3; 0; 2]).
  { split; [repeat constructor; lia|vm_compute; discriminate]. }
  split; [exact H|].
  apply (sizes_exact_when_fit [3; 0; 2] H).
  split; vm_compute; discriminate.
Defined.

(* ================================================================== *)
(** * Further properties of the code *)

(* ================================================================== *)
(** * Further properties of the code *)

(** ** exclusive_sum beyond the [int] range *)

Lemma to_int_add_l a b : to_int (to_int a + b) = to_int (a + b).
Proof.
  unfold to_int.
  replace ((a + 2147483648) mod 4294967296 - 2147483648 + b + 2147483648)
    with ((a + 2147483648) mod 4294967296 + b) by lia.
  rewrite Zplus_mod_idemp_l. do 2 f_equal. lia.
Qed.

Lemma exclusive_sum_loop_wraps arr k : forall i,
  (1 <= i)%nat -> (i - 1 + k <= length arr)%nat ->
  result (exclusive_sum_loop arr (to_int (psum arr (i - 1))) i k)
  = Some (map (fun j => to_int (psum arr j)) (seq i k)).
Proof.
  induction k as [|k IH]; intros i Hi Hlen; [reflexivity|].
  simpl exclusive_sum_loop.
  destruct (nth_error arr (i - 1)) as [a|] eqn:E.
  2:{ apply nth_error_None in E. lia. }
  rewrite to_int_add_l, <- (psum_S _ _ _ E).
  replace (S (i - 1)) with i by lia.
  replace (to_int (psum arr i)) with (to_int (psum arr (S i - 1))) at 1
    by (do 2 f_equal; lia).
  rewrite (result_bind _ _ _ (IH (S i) ltac:(lia) ltac:(lia))).
  reflexivity.
Qed.

Lemma exclusive_sum_loop_short arr k : forall prev i,
  (1 <= i)%nat -> (1 <= k)%nat -> (length arr < i - 1 + k)%nat ->
  exclusive_sum_loop arr prev i k = None.
Proof.
  induction k as [|k IH]; intros prev i Hi Hk Hlen; [lia|].
  simpl exclusive_sum_loop.
  destruct (nth_error arr (i - 1)) as [a|] eqn:E; [|reflexivity].
  assert (i - 1 < length arr)%nat by (apply nth_error_Some; congruence).
  rewrite (IH (to_int (prev + a)) (S i)) by lia. reflexivity.
Qed.

(** exclusive_sum on any counts.  For [1 <= n <= length arr + 1] the
    result has [n] entries and entry [k] is the sum of the first [k]
    counts, reduced to an [int]; the count [arr[n-1]] is not read.  For
    [n = 0] the store to [sums[0]], and for a larger [n] a read past the
    counts, leaves the arrays: no result. *)
Theorem exclusive_sum_modular (arr : list Z) (n : nat) :
  ((1 <= n <= length arr + 1)%nat ->
   result (exclusive_sum arr n)
   = Some (map (fun k => to_int (psum arr k)) (seq 0 n)) /\
   forall x y, result (exclusive_sum (firstn (n - 1) arr ++ [x]) n)
               = result (exclusive_sum (firstn (n - 1) arr ++ [y]) n)) /\
  (n = 0%nat \/ (length arr + 1 < n)%nat -> exclusive_sum arr n = None).
Proof.
  assert (Hgen : forall a m, (1 <= m <= length a + 1)%nat ->
            result (exclusive_sum a m)
            = Some (map (fun k => to_int (psum a k)) (seq 0 m))).
  { intros a m Hm. unfold exclusive_sum. rewrite result_log.
    destruct m as [|k]; [lia|].
    pose proof (exclusive_sum_loop_wraps a k 1 ltac:(lia) ltac:(lia)) as H.
    simpl in H. change (to_int (psum a 0)) with 0 in H.
    rewrite (result_bind _ _ _ H). reflexivity. }
  split.
  - intros Hn. split; [apply Hgen; assumption|].
    intros x y.
    assert (Hl : length (firstn (n - 1) arr) = (n - 1)%nat)
      by (rewrite length_firstn; lia).
    rewrite !Hgen by (rewrite length_app, Hl; simpl; lia).
    f_equal. apply map_ext_in. intros k Hk. apply in_seq in Hk.
    unfold psum. rewrite !firstn_app, Hl.
    replace (k - (n - 1))%nat with 0%nat by lia. reflexivity.
  - intros [->|Hn]; [reflexivity|].
    unfold exclusive_sum. destruct n as [|k]; [reflexivity|].
    apply result_None. rewrite result_log.
    rewrite (exclusive_sum_loop_short arr k 0 1) by lia. reflexivity.
Qed.

(* ================================================================== *)
(** ** interval_overlap as a measure *)

(** The overlaps of one range with the two parts of a range that is cut
    in two add up to its overlap with the whole range. *)
Theorem interval_overlap_adjacent a b c x y :
  0 <= a <= b -> b <= c -> c <= UINT_MAX ->
  0 <= x <= y -> y <= UINT_MAX ->
  interval_overlap a b x y + interval_overlap b c x y
  = interval_overlap a c x y.
Proof.
  intros Ha Hb Hc Hx Hy.
  rewrite !interval_overlap_exact by lia.
  apply overlap_adjacent. lia.
Qed.

(** The overlap is never longer than either range; it is the whole of a
    range that lies inside the other, and the length of a range
    overlapped with itself. *)
Theorem interval_overlap_bounds l1 r1 l2 r2 :
  0 <= l1 <= r1 -> r1 <= UINT_MAX ->
  0 <= l2 <= r2 -> r2 <= UINT_MAX ->
  0 <= interval_overlap l1 r1 l2 r2 /\
  interval_overlap l1 r1 l2 r2 <= r1 - l1 /\
  interval_overlap l1 r1 l2 r2 <= r2 - l2 /\
  (l2 <= l1 -> r1 <= r2 -> interval_overlap l1 r1 l2 r2 = r1 - l1) /\
  interval_overlap l1 r1 l1 r1 = r1 - l1.
Proof.
  intros H1 B1 H2 B2.
  rewrite (interval_overlap_exact l1 r1 l1 r1), interval_overlap_exact
    by assumption.
  unfold overlap. repeat split; lia.
Qed.

(* ================================================================== *)
(** ** The counts of redistribute agree between the ranks *)

Lemma zsum_overlaps l x y :
  sizes_fit l -> 0 <= x <= y -> y <= zsum l ->
  zsum (map (fun i => overlap (psum l i) (psum l (S i)) x y)
          (seq 0 (length l)))
  = y - x.
Proof.
  intros Hl Hx Hy.
  rewrite <- (psum_all _ (length l)) by (rewrite length_map, length_seq; lia).
  rewrite (psum_overlaps l x y Hl (length l) (length l)) by lia.
  rewrite (psum_all l (length l)) by lia.
  unfold overlap. lia.
Qed.

(** With [all_sizes] holding the original sizes [osz] and the bucket
    sizes [bsz] of all ranks, of the same total within the [int] range:
    what rank [i] counts to send to rank [k] is what rank [k] counts to
    receive from rank [i]; the send counts of a rank add up to the size
    of its bucket and its receive counts to its original size. *)
Theorem redistribute_counts_agree (osz bsz : list Z) :
  length osz = length bsz ->
  sizes_fit osz -> sizes_fit bsz -> zsum osz = zsum bsz ->
  2 * len osz + 1 <= INT_MAX ->
  exists counts : nat -> list Z * list Z,
    (forall i, (i < length osz)%nat ->
       result (redistribute_counts (flat_sizes osz bsz) (len osz) (Z.of_nat i))
       = Some (counts i) /\
       length (fst (counts i)) = length osz /\
       length (snd (counts i)) = length osz /\
       zsum (fst (counts i)) = nth i bsz 0 /\
       zsum (snd (counts i)) = nth i osz 0) /\
    (forall i k, (i < length osz)%nat -> (k < length osz)%nat ->
       nth_error (fst (counts i)) k = nth_error (snd (counts k)) i).
Proof.
  intros Hlen Ho Hb Hsum Hn.
  exists (fun i => (send_counts_spec osz bsz i, recv_counts_spec osz bsz i)).
  assert (Hstep : forall l i a, sizes_fit l -> nth_error l i = Some a ->
            0 <= psum l i /\ psum l (S i) = psum l i + a /\ 0 <= a /\
            psum l (S i) <= zsum l).
  { intros l i a Hl Ha. pose proof (psum_fit l i Hl).
    pose proof (psum_S _ _ _ Ha). destruct Hl as [Hnn _].
    pose proof (psum_bounds l (S i) Hnn).
    unfold nonneg in Hnn. rewrite Forall_forall in Hnn.
    pose proof (Hnn a (nth_error_In _ _ Ha)). lia. }
  split.
  - intros i Hi. cbn [fst snd].
    destruct (nth_error osz i) as [o|] eqn:Eo.
    2:{ apply nth_error_None in Eo. lia. }
    destruct (nth_error bsz i) as [b|] eqn:Eb.
    2:{ apply nth_error_None in Eb. lia. }
    destruct (Hstep osz i o Ho Eo) as (Ho1 & Ho2 & Ho3 & Ho4).
    destruct (Hstep bsz i b Hb Eb) as (Hb1 & Hb2 & Hb3 & Hb4).
    split; [apply redistribute_counts_exact; assumption|].
    unfold send_counts_spec, recv_counts_spec.
    rewrite !length_map, !length_seq.
    split; [reflexivity|]. split; [reflexivity|]. split.
    + rewrite (nth_error_nth _ _ _ Eb).
      rewrite (zsum_overlaps osz) by (try assumption; lia). lia.
    + rewrite (nth_error_nth _ _ _ Eo).
      rewrite Hlen at 1.
      rewrite (zsum_overlaps bsz) by (try assumption; lia). lia.
  - intros i k Hi Hk. cbn [fst snd]. unfold send_counts_spec, recv_counts_spec.
    rewrite (nth_error_map_seq
               (fun i0 => overlap (psum osz i0) (psum osz (S i0))
                            (psum bsz i) (psum bsz (S i)))) by assumption.
    rewrite (nth_error_map_seq
               (fun i0 => overlap (psum bsz i0) (psum bsz (S i0))
                            (psum osz k) (psum osz (S k)))) by assumption.
    f_equal. apply overlap_sym.
Qed.

(* ================================================================== *)
(** ** The splitters and the buckets *)

Lemma nth_error_map_ranked {A B} (F : nat * A -> B) (l : list A) j b :
  nth_error (map F (ranked l)) j = Some b ->
  exists a, nth_error l j = Some a /\ b = F (j, a).
Proof.
  rewrite nth_error_map, nth_error_ranked.
  destruct (nth_error l j) as [a|]; simpl; [|discriminate].
  intros [= <-]. exists a. split; reflexivity.
Qed.

Lemma nil_of_no_element {A} (l : list A) : (forall x, ~ In x l) -> l = [].
Proof.
  destruct l as [|a l]; [reflexivity|].
  intros H. exfalso. apply (H a). left. reflexivity.
Qed.

Section SplittersAndBuckets.
Context {T : Type}.
Variable comp : T -> T -> bool.
Variable std_sort : list T -> list T.
Variable fill : T.
Hypothesis swo : strict_weak_order comp.
Hypothesis sort_perm : forall l, Permutation (std_sort l) l.

Lemma sorted_of_pairs (l : list T) :
  (forall i j x y, (i < j)%nat -> nth_error l i = Some x ->
                   nth_error l j = Some y -> not_after comp x y) ->
  sorted comp l.
Proof.
  intros H. apply strongly_sorted.
  induction l as [|a l IH]; constructor.
  - apply IH. intros i j x y Hij Hi Hj. apply (H (S i) (S j)); [lia|assumption..].
  - apply Forall_forall. intros y Hy. apply In_nth_error in Hy.
    destruct Hy as [j Hj]. apply (H 0%nat (S j)); [lia|reflexivity|assumption].
Qed.

Lemma sorted_slice (l : list T) a b : sorted comp l -> sorted comp (slice a b l).
Proof.
  intros H. unfold slice. apply (sorted_skipn comp swo).
  apply (sorted_firstn comp swo). assumption.
Qed.

Lemma pick_splitters_sorted (P : Z) (all : list T) :
  2 <= P -> len all = P * (P - 1) -> sorted comp all ->
  sorted comp (pick_splitters fill P all).
Proof.
  intros HP Hall Hs. apply sorted_of_pairs. intros i j x y Hij Hi Hj.
  assert (Hj' : (j < Z.to_nat (P - 1))%nat).
  { rewrite <- (length_pick_splitters fill P all).
    apply nth_error_Some. congruence. }
  unfold pick_splitters in Hi, Hj.
  rewrite (nth_error_map_seq
             (fun t => nth (Z.to_nat (splitter_pos P (Z.of_nat t))) all fill))
    in Hi, Hj by lia.
  injection Hi as <-. injection Hj as <-.
  pose proof (splitter_pos_range P (Z.of_nat i) HP ltac:(lia)) as Ri.
  pose proof (splitter_pos_range P (Z.of_nat j) HP ltac:(lia)) as Rj.
  apply (sorted_nth comp swo all Hs
           (Z.to_nat (splitter_pos P (Z.of_nat i)))
           (Z.to_nat (splitter_pos P (Z.of_nat j)))).
  - unfold splitter_pos in *. nia.
  - apply nth_error_nth'. unfold len in *. lia.
  - apply nth_error_nth'. unfold len in *. lia.
Qed.

Lemma In_pick_splitters (P : Z) (all : list T) sp :
  2 <= P -> len all = P * (P - 1) ->
  In sp (pick_splitters fill P all) -> In sp all.
Proof.
  intros HP Hall Hin. unfold pick_splitters in Hin.
  apply in_map_iff in Hin. destruct Hin as (t & <- & Ht).
  apply in_seq in Ht.
  pose proof (splitter_pos_range P (Z.of_nat t) HP ltac:(lia)).
  apply nth_In. unfold len in *. lia.
Qed.

Lemma In_local_sample_spec (P : Z) (seg : list T) x :
  2 <= P -> 1 <= len seg ->
  In x (local_sample_spec fill P seg) -> In x seg.
Proof.
  intros HP Hseg Hin. unfold local_sample_spec in Hin.
  apply in_map_iff in Hin. destruct Hin as (t & <- & Ht).
  apply in_seq in Ht.
  pose proof (sample_pos_range (len seg) P (Z.of_nat t) HP Hseg ltac:(lia)).
  apply nth_In. unfold len in *. lia.
Qed.

Lemma length_all_samples (segs : list (list T)) :
  len (concat (map (local_sample_spec fill (len segs)) segs))
  = len segs * (len segs - 1).
Proof.
  unfold len at 1.
  rewrite (length_concat_const _ (Z.to_nat (len segs - 1))).
  - rewrite length_map. unfold len. nia.
  - intros b Hb. apply in_map_iff in Hb. destruct Hb as (seg & <- & _).
    apply length_local_sample_spec.
Qed.

Lemma splitters_spec_sorted (segs : list (list T)) :
  (forall l, sorted comp (std_sort l)) ->
  2 <= len segs ->
  sorted comp (splitters_spec std_sort fill segs).
Proof.
  intros sort_sorted HP. unfold splitters_spec.
  apply pick_splitters_sorted; [assumption| |apply sort_sorted].
  unfold len at 1. rewrite (length_std_sort std_sort sort_perm).
  apply length_all_samples.
Qed.

Lemma In_splitters_spec (segs : list (list T)) sp :
  2 <= len segs -> (forall seg, In seg segs -> 1 <= len seg) ->
  In sp (splitters_spec std_sort fill segs) -> In sp (concat segs).
Proof.
  intros HP Hsegs Hin. unfold splitters_spec in Hin.
  apply In_pick_splitters in Hin; [|assumption|].
  2:{ unfold len at 1. rewrite (length_std_sort std_sort sort_perm).
      apply length_all_samples. }
  apply (Permutation_in _ (sort_perm _)) in Hin.
  apply in_concat in Hin. destruct Hin as (sample & Hs & Hin).
  apply in_map_iff in Hs. destruct Hs as (seg & <- & Hseg).
  apply in_concat. exists seg. split; [assumption|].
  apply (In_local_sample_spec (len segs) seg sp HP (Hsegs seg Hseg) Hin).
Qed.

Lemma length_splitters_spec (segs : list (list T)) :
  1 <= len segs ->
  S (length (splitters_spec std_sort fill segs)) = length segs.
Proof.
  intros HP. unfold splitters_spec. rewrite length_pick_splitters.
  unfold len in *. lia.
Qed.

(** A part is a sub-range of its segment. *)
Lemma piece_is_slice (splitters seg : list T) j :
  exists a c, (a <= c <= length seg)%nat /\
              piece comp splitters j seg = slice a c seg.
Proof.
  destruct (Nat.le_gt_cases j (length splitters)) as [Hj|Hj].
  - pose proof (nth_error_piece comp splitters seg j Hj) as Hp.
    destruct (block_of_concat _ _ _ Hp) as [Hle Hs].
    rewrite concat_pieces_0 in Hle, Hs.
    eexists _, _. split; [|symmetry; exact Hs]. lia.
  - exists 0%nat, 0%nat. split; [lia|].
    unfold piece. rewrite nth_overflow by (rewrite length_pieces; lia).
    reflexivity.
Qed.

Lemma exchange_ready_sizes (segs : list (list T)) :
  exchange_ready segs ->
  2 <= len segs /\ len segs * (len segs - 1) <= UINT_MAX /\
  forall seg, In seg segs -> 1 <= len seg <= UINT_MAX.
Proof.
  intros (HP & Hcap & Hne & Htot). split; [assumption|]. split; [assumption|].
  intros seg Hseg. pose proof (length_concat_In segs seg Hseg).
  specialize (Hne seg Hseg). unfold len, INT_MAX, UINT_MAX in *.
  destruct seg; [congruence|]. simpl length in *. lia.
Qed.

End SplittersAndBuckets.

Section BucketClaims.
Context {T : Type}.
Variable comp : T -> T -> bool.
Variable std_sort : list T -> list T.
Variable junk : nat -> T.

(** [get_splitters] returns the same [numprocs - 1] splitters on every
    rank; they are in non-decreasing order, and each of them is an element
    of a segment. *)
Theorem get_splitters_sorted (segs : list (list T)) :
  strict_weak_order comp ->
  (forall l, Permutation (std_sort l) l) ->
  (forall l, sorted comp (std_sort l)) ->
  2 <= len segs -> len segs * (len segs - 1) <= UINT_MAX ->
  (forall seg, In seg segs -> 1 <= len seg <= UINT_MAX) ->
  exists splitters,
    result (get_splitters std_sort junk segs (len segs))
    = Some (map (fun _ => splitters) segs) /\
    len splitters = len segs - 1 /\
    sorted comp splitters /\
    forall sp, In sp splitters -> In sp (concat segs).
Proof.
  intros swo sort_perm sort_sorted HP Hcap Hsegs.
  exists (splitters_spec std_sort (junk 0%nat) segs).
  split; [apply get_splitters_exact; assumption|]. split; [|split].
  - pose proof (length_splitters_spec std_sort (junk 0%nat) segs ltac:(lia)).
    unfold len in *. lia.
  - apply splitters_spec_sorted; assumption.
  - intros sp. apply In_splitters_spec; try assumption.
    intros seg Hseg. apply Hsegs, Hseg.
Qed.

(** After [get_buckets] on sorted segments, the bucket of rank [j] holds
    exactly the elements for which splitter [j] is the first splitter
    they go before (the last bucket: those that go before none); its
    [bucket_size] is its number of elements; and the buckets of all ranks
    together hold the elements of all segments. *)
Theorem get_buckets_exchange (segs : list (list T)) :
  strict_weak_order comp ->
  (forall l, Permutation (std_sort l) l) ->
  exchange_ready segs ->
  (forall seg, In seg segs -> sorted comp seg) ->
  exists splitters buckets,
    result (get_splitters std_sort junk segs (len segs))
    = Some (map (fun _ => splitters) segs) /\
    result (get_buckets comp std_sort junk segs (len segs)) = Some buckets /\
    length buckets = length segs /\
    Permutation (concat (map bucket_elems buckets)) (concat segs) /\
    forall j b, nth_error buckets j = Some b ->
      bucket_size b = len (bucket_elems b) /\
      forall x, In x (bucket_elems b) ->
        (forall i sp, (i < j)%nat -> nth_error splitters i = Some sp ->
                      comp x sp = false) /\
        (forall sp, nth_error splitters j = Some sp -> comp x sp = true).
Proof.
  intros swo sort_perm Hready Hsorted.
  destruct (exchange_ready_sizes segs Hready) as (HP & Hcap & Hsegs).
  set (spl := splitters_spec std_sort (junk 0%nat) segs).
  exists spl. eexists.
  split; [apply get_splitters_exact; assumption|].
  split; [apply (get_buckets_exact comp std_sort (junk 0%nat) junk sort_perm segs Hready)|].
  split; [rewrite length_map; apply length_ranked|].
  split.
  - rewrite map_map. cbn [bucket_elems].
    rewrite <- (map_map fst (bucket_of comp std_sort (junk 0%nat) segs)).
    rewrite map_fst_ranked. unfold bucket_of. fold spl.
    rewrite <- (length_splitters_spec std_sort (junk 0%nat) segs ltac:(lia)).
    apply buckets_perm.
  - intros j b Hb. apply nth_error_map_ranked in Hb.
    destruct Hb as (seg & Hseg & ->). cbn [bucket_size bucket_elems fst].
    split; [reflexivity|].
    intros x Hx. unfold bucket_of, bucket_spec in Hx. fold spl in Hx.
    apply in_concat in Hx. destruct Hx as (blk & Hblk & Hx).
    apply in_map_iff in Hblk. destruct Hblk as (s & <- & Hs).
    assert (Hj : (j <= length spl)%nat).
    { pose proof (length_splitters_spec std_sort (junk 0%nat) segs ltac:(lia)).
      fold spl in H.
      assert (j < length segs)%nat by (apply nth_error_Some; congruence). lia. }
    apply (pieces_bucket comp swo s (Hsorted s Hs) spl 0%nat j
             (piece comp spl j s) x ltac:(lia)
             (nth_error_piece comp spl s j Hj) Hx).
Qed.

(** The bucket a rank receives in [get_buckets] is made of one run from
    every rank, in rank order; the run from a rank is a sub-range of that
    rank's segment and, the segments being sorted, is sorted. *)
Theorem get_buckets_runs (segs : list (list T)) :
  strict_weak_order comp ->
  (forall l, Permutation (std_sort l) l) ->
  exchange_ready segs ->
  (forall seg, In seg segs -> sorted comp seg) ->
  exists buckets,
    result (get_buckets comp std_sort junk segs (len segs)) = Some buckets /\
    forall b, In b buckets ->
      exists runs,
        bucket_elems b = concat runs /\
        Forall2 (fun seg run =>
                   sorted comp run /\
                   exists a c, (a <= c <= length seg)%nat /\ run = slice a c seg)
                segs runs.
Proof.
  intros swo sort_perm Hready Hsorted.
  eexists.
  split; [apply (get_buckets_exact comp std_sort (junk 0%nat) junk sort_perm segs Hready)|].
  intros b Hb. apply in_map_iff in Hb. destruct Hb as ([j seg] & <- & _).
  cbn [bucket_elems fst].
  set (spl := splitters_spec std_sort (junk 0%nat) segs).
  exists (map (piece comp spl j) segs).
  split; [reflexivity|].
  rewrite <- (map_id segs) at 1. apply Forall2_map_same.
  intros s Hs.
  destruct (piece_is_slice comp spl s j) as (a & c & Hac & E).
  split.
  - rewrite E. apply (sorted_slice comp swo). apply Hsorted, Hs.
  - exists a, c. split; assumption.
Qed.

(** When no element goes before another (all elements are equivalent, as
    when they are all equal), every element is sent to the last rank:
    the other ranks receive an empty bucket and the last rank receives all
    segments, one after the other. *)
Theorem get_buckets_all_equivalent (segs : list (list T)) :
  strict_weak_order comp ->
  (forall l, Permutation (std_sort l) l) ->
  exchange_ready segs ->
  (forall x y, In x (concat segs) -> In y (concat segs) -> comp x y = false) ->
  exists buckets,
    result (get_buckets comp std_sort junk segs (len segs)) = Some buckets /\
    forall j b, nth_error buckets j = Some b ->
      ((j + 1 < length segs)%nat -> bucket_elems b = [] /\ bucket_size b = 0) /\
      ((j + 1 = length segs)%nat -> bucket_elems b = concat segs).
Proof.
  intros swo sort_perm Hready Heq.
  destruct (exchange_ready_sizes segs Hready) as (HP & Hcap & Hsegs).
  set (spl := splitters_spec std_sort (junk 0%nat) segs).
  pose proof (length_splitters_spec std_sort (junk 0%nat) segs ltac:(lia)) as Hl.
  fold spl in Hl.
  assert (Hsorted : forall seg, In seg segs -> sorted comp seg).
  { intros seg Hseg. apply (sorted_of_pairs comp).
    intros i k x y _ Hx Hy. unfold not_after. apply Heq; apply in_concat;
      exists seg; (split; [assumption|eapply nth_error_In; eassumption]). }
  assert (Hempty : forall k seg, In seg segs -> (k < length spl)%nat ->
                                 piece comp spl k seg = []).
  { intros k seg Hseg Hk. apply nil_of_no_element. intros x Hx.
    destruct (nth_error spl k) as [sp|] eqn:Esp.
    2:{ apply nth_error_None in Esp. lia. }
    destruct (pieces_bucket comp swo seg (Hsorted seg Hseg) spl 0%nat k
                (piece comp spl k seg) x ltac:(lia)
                (nth_error_piece comp spl seg k ltac:(lia)) Hx) as [_ H].
    specialize (H sp Esp).
    rewrite Heq in H; [discriminate| |].
    - apply in_concat. exists seg. split; [assumption|].
      destruct (piece_is_slice comp spl seg k) as (a & c & _ & E).
      rewrite E in Hx. apply (In_slice a c seg x Hx).
    - apply (In_splitters_spec std_sort (junk 0%nat) sort_perm segs sp HP).
      + intros s Hs. apply Hsegs, Hs.
      + eapply nth_error_In. exact Esp. }
  assert (Hlast : forall seg, In seg segs -> piece comp spl (length spl) seg = seg).
  { intros seg Hseg.
    pose proof (nth_error_piece comp spl seg (length spl) ltac:(lia)) as Hp.
    destruct (block_of_concat _ _ _ Hp) as [_ Hs].
    pose proof (offset_S _ _ _ Hp) as HS.
    rewrite (offset_all _ (S (length spl))) in HS
      by (rewrite length_pieces; lia).
    rewrite concat_pieces_0 in Hs, HS.
    assert (H0 : offset (pieces comp seg 0 spl) (length spl) = 0%nat).
    { unfold offset. apply length_zero_iff_nil. apply nil_of_no_element.
      intros x Hx. apply in_concat in Hx. destruct Hx as (blk & Hblk & Hx).
      apply In_nth_error in Hblk. destruct Hblk as [k Hk].
      assert (Hklt : (k < length spl)%nat).
      { assert (k < length (firstn (length spl) (pieces comp seg 0 spl)))%nat
          by (apply nth_error_Some; congruence).
        rewrite length_firstn in H. lia. }
      rewrite nth_error_firstn in Hk.
      destruct (Nat.ltb_spec k (length spl)); [|lia].
      rewrite (nth_error_piece comp spl seg k ltac:(lia)) in Hk.
      injection Hk as <-. rewrite (Hempty k seg Hseg Hklt) in Hx. destruct Hx. }
    rewrite H0 in Hs, HS. simpl in Hs, HS.
    rewrite <- Hs, <- HS. apply slice_all. lia. }
  eexists.
  split; [apply (get_buckets_exact comp std_sort (junk 0%nat) junk sort_perm segs Hready)|].
  intros j b Hb. apply nth_error_map_ranked in Hb.
  destruct Hb as (seg & Hseg & ->). cbn [bucket_size bucket_elems fst].
  unfold bucket_of, bucket_spec. fold spl. split.
  - intros Hj.
    assert (E : concat (map (piece comp spl j) segs) = []).
    { apply nil_of_no_element. intros x Hx. apply in_concat in Hx.
      destruct Hx as (blk & Hblk & Hx). apply in_map_iff in Hblk.
      destruct Hblk as (s & <- & Hs).
      rewrite (Hempty j s Hs ltac:(lia)) in Hx. destruct Hx. }
    rewrite E. split; reflexivity.
  - intros Hj. replace j with (length spl) by lia.
    f_equal. rewrite <- (map_id segs) at 2.
    apply map_ext_in. intros s Hs. apply Hlast, Hs.
Qed.

End BucketClaims.

(* ================================================================== *)
(** ** redistribute keeps the global sequence *)

Lemma concat_eq_by_lengths {A} (l1 : list (list A)) : forall l2,
  concat l1 = concat l2 -> map (@length A) l1 = map (@length A) l2 -> l1 = l2.
Proof.
  induction l1 as [|a l1 IH]; intros [|b l2] Hc Hl; try discriminate;
    [reflexivity|].
  simpl in Hc, Hl. injection Hl as Hab Hl.
  assert (E : a = b /\ concat l1 = concat l2).
  { clear IH Hl. revert b Hab Hc. induction a as [|x a IHa]; intros [|y b] Hab Hc;
      try discriminate.
    - split; [reflexivity|assumption].
    - simpl in Hc, Hab. injection Hc as -> Hc. injection Hab as Hab.
      destruct (IHa b Hab Hc) as [-> E]. split; [reflexivity|assumption]. }
  destruct E as [-> E]. f_equal. apply IH; assumption.
Qed.

Lemma offset_by_lengths {A B} (l1 : list (list A)) (l2 : list (list B)) k :
  map (@length A) l1 = map (@length B) l2 -> offset l1 k = offset l2 k.
Proof.
  intros H.
  pose proof (offset_psum l1 k) as H1. pose proof (offset_psum l2 k) as H2.
  assert (E : map len l1 = map len l2).
  { unfold len.
    rewrite <- (map_map (@length A) Z.of_nat), <- (map_map (@length B) Z.of_nat), H.
    reflexivity. }
  rewrite E in H1. lia.
Qed.

Section RedistributeOrder.
Context {T : Type}.

(** What [redistribute] delivers for any buckets that hold as many
    elements as the segments. *)
Lemma redistribute_relayout (segs : list (list T)) (buckets : list (bucket T)) :
  1 <= len segs -> 2 * len segs + 1 <= INT_MAX ->
  len (concat segs) <= INT_MAX ->
  length buckets = length segs ->
  (forall b, In b buckets -> bucket_size b = len (bucket_elems b)) ->
  length (concat (map bucket_elems buckets)) = length (concat segs) ->
  result (redistribute segs buckets (len segs))
  = Some (map (relayout segs (map bucket_elems buckets)) (seq 0 (length segs))).
Proof.
  intros HP Hn Hcap Hlen Hsize Hsum.
  destruct (buckets_by_rank segs buckets Hlen Hsize) as [Hb Hheld].
  set (bk := fun k => bucket_elems (nth k buckets (mk_bucket 0 []))) in *.
  assert (Hb' : buckets
                = map (fun p => mk_bucket (len (bk (fst p))) (bk (fst p)))
                      (ranked segs)) by exact Hb.
  rewrite Hb' at 1.
  rewrite (redistribute_exact segs bk HP Hn) by (try assumption; rewrite Hheld; assumption).
  rewrite Hheld. f_equal.
  rewrite <- (map_fst_ranked segs), map_map. reflexivity.
Qed.

(** [redistribute] moves the elements without reordering them: for any
    buckets that hold as many elements in total as the segments, the
    segments afterwards, one after the other, are the buckets one after
    the other, and rank [k] holds the elements of that sequence from the
    total size of the segments before it on. *)
Theorem redistribute_keeps_order (segs : list (list T)) (buckets : list (bucket T)) :
  1 <= len segs -> 2 * len segs + 1 <= INT_MAX ->
  len (concat segs) <= INT_MAX ->
  length buckets = length segs ->
  (forall b, In b buckets -> bucket_size b = len (bucket_elems b)) ->
  length (concat (map bucket_elems buckets)) = length (concat segs) ->
  exists out,
    result (redistribute segs buckets (len segs)) = Some out /\
    concat out = concat (map bucket_elems buckets) /\
    forall k seg, nth_error segs k = Some seg ->
      nth_error out k
      = Some (slice (length (concat (firstn k segs)))
                    (length (concat (firstn k segs)) + length seg)
                    (concat (map bucket_elems buckets))).
Proof.
  intros HP Hn Hcap Hlen Hsize Hsum.
  eexists. split; [apply redistribute_relayout; assumption|]. split.
  - unfold relayout.
    rewrite (concat_slices_tile _ (offset segs) (length segs) (offset_mono segs)).
    apply slice_all. rewrite offset_all by lia. lia.
  - intros k seg Hk.
    assert (Hlt : (k < length segs)%nat) by (apply nth_error_Some; congruence).
    rewrite (nth_error_map_seq (relayout segs (map bucket_elems buckets)))
      by assumption.
    unfold relayout. rewrite (offset_S _ _ _ Hk). reflexivity.
Qed.

(** When every rank's bucket has the size of the rank's segment, no
    element changes rank: every rank ends with its own bucket. *)
Theorem redistribute_same_layout (segs : list (list T)) (buckets : list (bucket T)) :
  1 <= len segs -> 2 * len segs + 1 <= INT_MAX ->
  len (concat segs) <= INT_MAX ->
  (forall b, In b buckets -> bucket_size b = len (bucket_elems b)) ->
  map (fun b => length (bucket_elems b)) buckets = map (@length T) segs ->
  result (redistribute segs buckets (len segs)) = Some (map bucket_elems buckets).
Proof.
  intros HP Hn Hcap Hsize Hsame.
  assert (Hlen : length buckets = length segs).
  { apply (f_equal (@length nat)) in Hsame. rewrite !length_map in Hsame.
    assumption. }
  assert (Hl : map (@length T) segs = map (@length T) (map bucket_elems buckets))
    by (rewrite map_map; symmetry; assumption).
  assert (Hsum : length (concat (map bucket_elems buckets)) = length (concat segs)).
  { rewrite <- (offset_all (map bucket_elems buckets) (length segs))
      by (rewrite length_map; lia).
    rewrite <- (offset_all segs (length segs)) by lia.
    symmetry. apply offset_by_lengths. assumption. }
  rewrite redistribute_relayout by assumption. f_equal.
  apply nth_error_ext. intros k.
  destruct (Nat.lt_ge_cases k (length segs)) as [Hk|Hk].
  - rewrite (nth_error_map_seq (relayout segs (map bucket_elems buckets)))
      by assumption.
    destruct (nth_error (map bucket_elems buckets) k) as [blk|] eqn:E.
    2:{ apply nth_error_None in E. rewrite length_map in E. lia. }
    f_equal. unfold relayout.
    rewrite !(offset_by_lengths segs (map bucket_elems buckets)) by assumption.
    rewrite (offset_S _ _ _ E).
    apply (block_of_concat _ _ _ E).
  - transitivity (@None (list T)); [|symmetry]; apply nth_error_None.
    + rewrite length_map, length_seq. assumption.
    + rewrite length_map. lia.
Qed.

End RedistributeOrder.

(* ================================================================== *)
(** ** samplesort as a whole *)

Section Whole.
Context {T : Type}.
Variable comp : T -> T -> bool.
Variable std_sort : list T -> list T.

Hypothesis swo : strict_weak_order comp.
Hypothesis sort_perm : forall l, Permutation (std_sort l) l.

(** Two sorted lists with the same elements are the same list when
    equivalent elements are equal. *)
Lemma sorted_perm_unique (l1 : list T) :
  (forall x y, equiv comp x y -> x = y) ->
  forall l2, sorted comp l1 -> sorted comp l2 -> Permutation l1 l2 -> l1 = l2.
Proof.
  intros Hanti. induction l1 as [|a l1 IH]; intros l2 H1 H2 Hp.
  - apply Permutation_nil in Hp. symmetry. assumption.
  - destruct l2 as [|b l2].
    { apply Permutation_sym, Permutation_nil in Hp. discriminate. }
    assert (Hab : a = b).
    { apply (sorted_strongly comp swo) in H1, H2.
      inversion H1 as [|? ? _ Ha]; subst. inversion H2 as [|? ? _ Hb]; subst.
      rewrite Forall_forall in Ha, Hb.
      assert (Ia : In a (b :: l2)) by (apply (Permutation_in _ Hp); left; reflexivity).
      assert (Ib : In b (a :: l1))
        by (apply (Permutation_in _ (Permutation_sym Hp)); left; reflexivity).
      destruct Ia as [->|Ia]; [reflexivity|].
      destruct Ib as [->|Ib]; [reflexivity|].
      apply Hanti. split; [apply (Hb a Ia)|apply (Ha b Ib)]. }
    subst b. f_equal. apply IH.
    + inversion H1; assumption.
    + inversion H2; assumption.
    + apply (Permutation_cons_inv Hp).
Qed.

Lemma sorted_unique_sort (l : list T) :
  (forall x y, equiv comp x y -> x = y) ->
  (forall l, sorted comp (std_sort l)) ->
  sorted comp l -> std_sort l = l.
Proof.
  intros Hanti sort_sorted Hl.
  apply (sorted_perm_unique _ Hanti); [apply sort_sorted|assumption|apply sort_perm].
Qed.

Variable junk : nat -> T.

(** A result of [samplesort] is globally sorted. *)
Lemma samplesort_result_sorted (segs : list (list T)) :
  (forall l, sorted comp (std_sort l)) ->
  fits segs ->
  forall out,
    result (samplesort comp std_sort junk segs (len segs)) = Some out ->
    sorted comp (concat out).
Proof.
  intros sort_sorted Hfits out.
  destruct (samplesort_cases comp std_sort (junk 0%nat) junk sort_perm segs Hfits)
    as [[HP E]|[[Hready E]|[Hin E]]]; rewrite E.
  - intros [= <-]. destruct segs as [|seg [|seg' rest]].
    + constructor.
    + simpl. rewrite app_nil_r. apply sort_sorted.
    + unfold len in HP. simpl in HP. lia.
  - intros [= <-]. destruct Hready as (HP & _).
    rewrite (concat_samplesort_spec comp std_sort (junk 0%nat) sort_perm) by lia.
    apply sorted_buckets_sorted; try assumption. lia.
  - intros [=].
Qed.

(** A result of [samplesort] keeps the size of every segment. *)
Lemma samplesort_result_lengths (segs : list (list T)) :
  fits segs ->
  forall out,
    result (samplesort comp std_sort junk segs (len segs)) = Some out ->
    map (@length T) out = map (@length T) segs.
Proof.
  intros Hfits out.
  destruct (samplesort_cases comp std_sort (junk 0%nat) junk sort_perm segs Hfits)
    as [[HP E]|[[Hready E]|[Hin E]]]; rewrite E.
  - intros [= <-]. rewrite map_map. apply map_ext. intros seg.
    apply (length_std_sort std_sort sort_perm).
  - intros [= <-]. destruct Hready as (HP & _).
    apply (length_samplesort_spec comp std_sort (junk 0%nat) sort_perm). lia.
  - intros [=].
Qed.

Lemma samplesort_result_exists (segs : list (list T)) :
  fits segs ->
  len segs <= 1 \/ (forall seg, In seg segs -> seg <> []) ->
  exists out, result (samplesort comp std_sort junk segs (len segs)) = Some out.
Proof.
  intros Hfits Hok.
  destruct (samplesort_cases comp std_sort (junk 0%nat) junk sort_perm segs Hfits)
    as [[HP E]|[[Hready E]|[Hin E]]]; rewrite E.
  - eexists. reflexivity.
  - eexists. reflexivity.
  - exfalso. destruct Hok as [HP|Hne].
    + unfold samplesort in E.
      destruct (Z.leb_spec (len segs) 1); [discriminate|lia].
    + apply (Hne [] Hin). reflexivity.
Qed.

End Whole.

Section WholeClaims.
Context {T : Type}.
Variable comp : T -> T -> bool.
Variable std_sort : list T -> list T.
Variable junk : nat -> T.

(** With a comparator for which equivalent elements are equal, the
    segments [samplesort] leaves, one after the other, are what
    [std::sort] makes of all the elements in one array, whichever way
    [std::sort] orders and however the elements were spread; every rank
    holds as many elements as before. *)
Theorem samplesort_sequential_sort (segs : list (list T)) :
  strict_weak_order comp ->
  (forall x y, equiv comp x y -> x = y) ->
  (forall l, Permutation (std_sort l) l) ->
  (forall l, sorted comp (std_sort l)) ->
  fits segs ->
  forall out,
    result (samplesort comp std_sort junk segs (len segs)) = Some out ->
    concat out = std_sort (concat segs) /\
    map (@length T) out = map (@length T) segs.
Proof.
  intros swo Hanti sort_perm sort_sorted Hfits out Hout. split.
  - apply (sorted_perm_unique comp swo _ Hanti).
    + apply (samplesort_result_sorted comp std_sort swo sort_perm junk segs
               sort_sorted Hfits out Hout).
    + apply sort_sorted.
    + rewrite (samplesort_result_perm comp std_sort (junk 0%nat) junk sort_perm
                 segs Hfits out Hout).
      symmetry. apply sort_perm.
  - apply (samplesort_result_lengths comp std_sort sort_perm junk segs Hfits out Hout).
Qed.

(** [samplesort] leaves a distributed sequence that is sorted already as
    it is: with a comparator for which equivalent elements are equal, and
    one rank or no empty segment, every rank ends with the segment it
    had. *)
Theorem samplesort_idempotent (segs : list (list T)) :
  strict_weak_order comp ->
  (forall x y, equiv comp x y -> x = y) ->
  (forall l, Permutation (std_sort l) l) ->
  (forall l, sorted comp (std_sort l)) ->
  fits segs ->
  len segs <= 1 \/ (forall seg, In seg segs -> seg <> []) ->
  sorted comp (concat segs) ->
  result (samplesort comp std_sort junk segs (len segs)) = Some segs.
Proof.
  intros swo Hanti sort_perm sort_sorted Hfits Hok Hsorted.
  destruct (samplesort_result_exists comp std_sort sort_perm junk segs Hfits Hok)
    as [out Hout].
  rewrite Hout. f_equal.
  apply concat_eq_by_lengths.
  - apply (sorted_perm_unique comp swo _ Hanti).
    + apply (samplesort_result_sorted comp std_sort swo sort_perm junk segs
               sort_sorted Hfits out Hout).
    + assumption.
    + apply (samplesort_result_perm comp std_sort (junk 0%nat) junk sort_perm
               segs Hfits out Hout).
  - apply (samplesort_result_lengths comp std_sort sort_perm junk segs Hfits out Hout).
Qed.

(** Within the sizes the size fields can hold, [samplesort] has no
    result exactly when there are two or more ranks and one of them holds
    an empty segment. *)
Theorem samplesort_fails_iff (segs : list (list T)) :
  (forall l, Permutation (std_sort l) l) ->
  fits segs ->
  (samplesort comp std_sort junk segs (len segs) = None
   <-> 2 <= len segs /\ In [] segs).
Proof.
  intros sort_perm Hfits. split.
  - intros Hnone.
    destruct (samplesort_cases comp std_sort (junk 0%nat) junk sort_perm segs Hfits)
      as [[HP E]|[[Hready E]|[Hin E]]].
    + rewrite E in Hnone. discriminate.
    + rewrite Hnone in E. discriminate.
    + split; [|assumption].
      destruct (Z.le_gt_cases (len segs) 1) as [HP|HP]; [|lia].
      unfold samplesort in E.
      destruct (Z.leb_spec (len segs) 1); [discriminate|lia].
  - intros [HP Hin]. apply samplesort_empty; try assumption.
    destruct Hfits as [_ Hcap]. unfold UINT_MAX in *. nia.
Qed.

(** Two arrays are allocated and then filled by a collective:
    [all_samples] on rank 0, by the gather of [get_splitters], and
    [bucket_elems] on every rank, by the exchange of [get_buckets].  What
    they hold when they are allocated has no influence on the splitters,
    on the buckets or on the result of [samplesort]: every element of
    them that is read has been received before. *)
Theorem samplesort_ignores_fresh_storage (segs : list (list T))
    (junk1 junk2 : nat -> T) :
  (forall l, Permutation (std_sort l) l) ->
  fits segs ->
  (2 <= len segs ->
   result (get_splitters std_sort junk1 segs (len segs))
   = result (get_splitters std_sort junk2 segs (len segs)) /\
   result (get_buckets comp std_sort junk1 segs (len segs))
   = result (get_buckets comp std_sort junk2 segs (len segs))) /\
  result (samplesort comp std_sort junk1 segs (len segs))
  = result (samplesort comp std_sort junk2 segs (len segs)).
Proof.
  intros sort_perm Hfits. split.
  - intros HP. destruct Hfits as [Htot Hcap].
    destruct (empty_or_not segs) as [Hne|He].
    + assert (Hready : exchange_ready segs).
      { split; [assumption|]. split; [assumption|]. split; assumption. }
      destruct (exchange_ready_sizes segs Hready) as (_ & _ & Hsegs).
      split.
      * rewrite (get_splitters_exact std_sort (junk1 0%nat) junk1 sort_perm
                   segs HP Hcap Hsegs).
        rewrite (get_splitters_exact std_sort (junk1 0%nat) junk2 sort_perm
                   segs HP Hcap Hsegs).
        reflexivity.
      * rewrite (get_buckets_exact comp std_sort (junk1 0%nat) junk1 sort_perm
                   segs Hready).
        rewrite (get_buckets_exact comp std_sort (junk1 0%nat) junk2 sort_perm
                   segs Hready).
        reflexivity.
    + assert (Hs : forall junk,
                result (get_splitters std_sort junk segs (len segs)) = None).
      { intros junk0. unfold get_splitters. apply result_bind_fail.
        apply (result_mapM_fail _ _ []); [assumption|].
        rewrite local_sample_empty; [reflexivity|].
        unfold UINT_MAX in *. nia. }
      split; [rewrite !Hs; reflexivity|].
      unfold get_buckets.
      rewrite !result_bind_fail by apply Hs. reflexivity.
  - destruct (samplesort_cases comp std_sort (junk1 0%nat) junk1 sort_perm segs Hfits)
      as [[HP E1]|[[Hready E1]|[Hin E1]]];
    destruct (samplesort_cases comp std_sort (junk1 0%nat) junk2 sort_perm segs Hfits)
      as [[HP' E2]|[[Hready' E2]|[Hin' E2]]];
    rewrite E1, E2; try reflexivity.
    + destruct Hready' as (H & _). lia.
    + unfold samplesort in E2.
      destruct (Z.leb_spec (len segs) 1); [discriminate|lia].
    + destruct Hready as (H & _). lia.
    + destruct Hready as (_ & _ & Hne & _). exfalso. apply (Hne [] Hin'). reflexivity.
    + unfold samplesort in E1.
      destruct (Z.leb_spec (len segs) 1); [discriminate|lia].
    + destruct Hready' as (_ & _ & Hne & _). exfalso. apply (Hne [] Hin). reflexivity.
Qed.

End WholeClaims.

(* ================================================================== *)
(** ** The collectives of a run *)

Lemma mpi_calls_app t1 t2 : mpi_calls (t1 ++ t2) = mpi_calls t1 ++ mpi_calls t2.
Proof.
  induction t1 as [|[n|c] t1 IH]; simpl; [reflexivity|assumption|].
  rewrite IH. reflexivity.
Qed.

Lemma calls_ret {A} (a : A) : calls (ret a) [].
Proof. intros x t [= _ <-]. reflexivity. Qed.

Lemma calls_fail {A} cs : calls (@fail A) cs.
Proof. intros x t [=]. Qed.

Lemma calls_log_new n : calls (log (Ev_new n)) [].
Proof. intros x t [= _ <-]. reflexivity. Qed.

Lemma calls_log_mpi c : calls (log (Ev_mpi c)) [c].
Proof. intros x t [= _ <-]. reflexivity. Qed.

Lemma calls_bind {A B} (m : M A) (f : A -> M B) c1 c2 cs :
  calls m c1 -> (forall a, calls (f a) c2) -> c1 ++ c2 = cs ->
  calls (bind m f) cs.
Proof.
  intros Hm Hf <- b t. unfold bind.
  destruct m as [[a t1]|]; [|discriminate].
  destruct (f a) as [[b' t2]|] eqn:E; [|discriminate].
  intros [= <- <-]. rewrite mpi_calls_app.
  rewrite (Hm a t1 eq_refl), (Hf a b' t2 E). reflexivity.
Qed.

Lemma calls_mapM {A B} (f : A -> M B) l :
  (forall a, calls (f a) []) -> calls (mapM f l) [].
Proof.
  intros H. induction l as [|a l IH]; simpl; [apply calls_ret|].
  eapply calls_bind; [apply H| |reflexivity].
  intros b. eapply calls_bind; [apply IH| |reflexivity].
  intros bs. apply calls_ret.
Qed.

Lemma calls_mapiM {A B} (f : nat -> A -> M B) l : forall i,
  (forall i a, calls (f i a) []) -> calls (mapiM f i l) [].
Proof.
  induction l as [|a l IH]; intros i H; simpl; [apply calls_ret|].
  eapply calls_bind; [apply H| |reflexivity].
  intros b. eapply calls_bind; [apply IH; assumption| |reflexivity].
  intros bs. apply calls_ret.
Qed.

Section LocalArrays.
Context {T : Type}.

Lemma calls_read (buf : list T) i : calls (read buf i) [].
Proof.
  unfold read. destruct ((0 <=? i) && (i <? len buf)); [|apply calls_fail].
  destruct (nth_error buf (Z.to_nat i)); [apply calls_ret|apply calls_fail].
Qed.

Lemma calls_read_block (buf : list T) d c : calls (read_block buf d c) [].
Proof.
  unfold read_block.
  destruct ((0 <=? d) && (0 <=? c) && (d + c <=? len buf));
    [apply calls_ret|apply calls_fail].
Qed.

Lemma calls_write_block (buf : list T) d blk : calls (write_block buf d blk) [].
Proof.
  unfold write_block.
  destruct ((0 <=? d) && (d + len blk <=? len buf));
    [apply calls_ret|apply calls_fail].
Qed.

Lemma calls_new_array (junk : nat -> T) n : calls (new_array junk n) [].
Proof.
  unfold new_array. destruct (n <? 0); [apply calls_fail|].
  eapply calls_bind; [apply calls_log_new| |reflexivity].
  intros _. apply calls_ret.
Qed.

End LocalArrays.

Section LocalCollectives.
Context {T : Type}.

Lemma calls_gather_loop (sendbufs : list (list T)) count : forall i recvbuf,
  calls (gather_loop sendbufs count i recvbuf) [].
Proof.
  induction sendbufs as [|sb rest IH]; intros i recvbuf; simpl;
    [apply calls_ret|].
  eapply calls_bind; [apply calls_read_block| |reflexivity].
  intros blk. eapply calls_bind; [apply calls_write_block| |reflexivity].
  intros buf. apply IH.
Qed.

Lemma calls_MPI_Gather (sendbufs : list (list T)) count recvbuf :
  calls (MPI_Gather sendbufs count recvbuf) [Gather].
Proof.
  unfold MPI_Gather.
  eapply calls_bind; [apply calls_log_mpi| |reflexivity].
  intros _. apply calls_gather_loop.
Qed.

Lemma calls_MPI_Bcast (bufs : list (list T)) count :
  calls (MPI_Bcast bufs count) [Bcast].
Proof.
  unfold MPI_Bcast.
  eapply calls_bind; [apply calls_log_mpi| |reflexivity].
  intros _. destruct bufs as [|root others]; [apply calls_ret|].
  eapply calls_bind; [apply calls_read_block| |reflexivity].
  intros blk. apply calls_mapM. intros b. apply calls_write_block.
Qed.

Lemma calls_MPI_Alltoall (sendbufs : list (list T)) :
  calls (MPI_Alltoall sendbufs) [Alltoall].
Proof.
  unfold MPI_Alltoall.
  eapply calls_bind; [apply calls_log_mpi| |reflexivity].
  intros _. apply calls_mapiM. intros j _.
  apply calls_mapM. intros sb. apply calls_read.
Qed.

Lemma calls_MPI_Allgather (sendbufs : list (list T)) count :
  calls (MPI_Allgather sendbufs count) [Allgather].
Proof.
  unfold MPI_Allgather.
  eapply calls_bind; [apply calls_log_mpi| |reflexivity].
  intros _.
  eapply calls_bind;
    [apply calls_mapM; intros sb; apply calls_read_block| |reflexivity].
  intros blocks. apply calls_ret.
Qed.

Lemma calls_recv_loop j (me : alltoallv_args T) senders : forall i buf,
  calls (recv_loop j me senders i buf) [].
Proof.
  induction senders as [|s rest IH]; intros i buf; simpl; [apply calls_ret|].
  eapply calls_bind; [apply calls_read| |reflexivity]. intros sc.
  eapply calls_bind; [apply calls_read| |reflexivity]. intros sd.
  eapply calls_bind; [apply calls_read| |reflexivity]. intros rc.
  eapply calls_bind; [apply calls_read| |reflexivity]. intros rd.
  destruct (sc =? rc); [|apply calls_fail].
  eapply calls_bind; [apply calls_read_block| |reflexivity]. intros blk.
  eapply calls_bind; [apply calls_write_block| |reflexivity]. intros buf'.
  apply IH.
Qed.

Lemma calls_MPI_Alltoallv (args : list (alltoallv_args T)) :
  calls (MPI_Alltoallv args) [Alltoallv].
Proof.
  unfold MPI_Alltoallv.
  eapply calls_bind; [apply calls_log_mpi| |reflexivity].
  intros _. apply calls_mapiM. intros j me. apply calls_recv_loop.
Qed.

End LocalCollectives.

Lemma calls_exclusive_sum_loop arr k : forall prev i,
  calls (exclusive_sum_loop arr prev i k) [].
Proof.
  induction k as [|k IH]; intros prev i; simpl; [apply calls_ret|].
  destruct (nth_error arr (i - 1)); [|apply calls_fail].
  eapply calls_bind; [apply IH| |reflexivity]. intros rest. apply calls_ret.
Qed.

Lemma calls_exclusive_sum arr n : calls (exclusive_sum arr n) [].
Proof.
  unfold exclusive_sum.
  eapply calls_bind; [apply calls_log_new| |reflexivity]. intros _.
  destruct n; [apply calls_fail|].
  eapply calls_bind; [apply calls_exclusive_sum_loop| |reflexivity].
  intros rest. apply calls_ret.
Qed.

Section Stages.
Context {T : Type}.
Variable comp : T -> T -> bool.
Variable std_sort : list T -> list T.
Variable junk : nat -> T.

Lemma calls_sample_loop (seg : list T) jump leftover k : forall i s_pos,
  calls (sample_loop seg jump leftover i s_pos k) [].
Proof.
  induction k as [|k IH]; intros i s_pos; simpl; [apply calls_ret|].
  eapply calls_bind; [apply calls_read| |reflexivity]. intros x.
  eapply calls_bind; [apply IH| |reflexivity]. intros rest. apply calls_ret.
Qed.

Lemma calls_local_sample (seg : list T) numprocs :
  calls (local_sample seg numprocs) [].
Proof.
  unfold local_sample.
  eapply calls_bind; [apply calls_log_new| |reflexivity]. intros _.
  apply calls_sample_loop.
Qed.

Lemma calls_splitter_loop (all : list T) sample_size bound k : forall as_pos,
  calls (splitter_loop all sample_size bound as_pos k) [].
Proof.
  induction k as [|k IH]; intros as_pos; simpl; [apply calls_ret|].
  destruct (to_unsigned (to_unsigned (as_pos + sample_size) - 1) <? bound);
    [|apply calls_fail].
  eapply calls_bind; [apply calls_read| |reflexivity]. intros x.
  eapply calls_bind; [apply IH| |reflexivity]. intros rest. apply calls_ret.
Qed.

Lemma calls_get_splitters (segs : list (list T)) numprocs :
  calls (get_splitters std_sort junk segs numprocs) [Gather; Bcast].
Proof.
  unfold get_splitters.
  eapply calls_bind; [apply calls_mapM; intros seg; apply calls_local_sample| |reflexivity].
  intros samples. eapply calls_bind; [apply calls_new_array| |reflexivity].
  intros all0. eapply calls_bind; [apply calls_MPI_Gather| |reflexivity].
  intros all. eapply calls_bind; [apply calls_splitter_loop| |reflexivity].
  intros root. apply calls_MPI_Bcast.
Qed.

Lemma calls_split_loop (seg splitters : list T) k : forall s_pos i,
  calls (split_loop comp seg splitters s_pos i k) [].
Proof.
  induction k as [|k IH]; intros s_pos i; simpl; [apply calls_ret|].
  eapply calls_bind; [apply calls_read| |reflexivity]. intros sp.
  eapply calls_bind; [apply IH| |reflexivity]. intros rest. apply calls_ret.
Qed.

Lemma calls_split_counts (seg splitters : list T) numprocs :
  calls (split_counts comp seg splitters numprocs) [].
Proof.
  unfold split_counts.
  eapply calls_bind; [apply calls_log_new| |reflexivity]. intros _.
  apply calls_split_loop.
Qed.

Lemma calls_bucket_size_of rc rd numprocs :
  calls (bucket_size_of rc rd numprocs) [].
Proof.
  unfold bucket_size_of.
  eapply calls_bind; [apply calls_read| |reflexivity]. intros d.
  eapply calls_bind; [apply calls_read| |reflexivity]. intros c.
  apply calls_ret.
Qed.

Lemma calls_get_buckets (segs : list (list T)) numprocs :
  calls (get_buckets comp std_sort junk segs numprocs)
        [Gather; Bcast; Alltoall; Alltoallv].
Proof.
  unfold get_buckets.
  eapply calls_bind; [apply calls_get_splitters| |reflexivity].
  intros splitters. eapply calls_bind; [apply calls_mapM; intros a; apply calls_split_counts| |reflexivity].
  intros sc. eapply calls_bind; [apply calls_mapM; intros a; apply calls_log_new| |reflexivity].
  intros _. eapply calls_bind; [apply calls_MPI_Alltoall| |reflexivity].
  intros rc. eapply calls_bind; [apply calls_mapM; intros a; apply calls_exclusive_sum| |reflexivity].
  intros sd. eapply calls_bind; [apply calls_mapM; intros a; apply calls_exclusive_sum| |reflexivity].
  intros rd. eapply calls_bind; [apply calls_mapM; intros a; apply calls_bucket_size_of| |reflexivity].
  intros sizes. eapply calls_bind; [apply calls_mapM; intros a; apply calls_new_array| |reflexivity].
  intros fresh. eapply calls_bind; [apply calls_MPI_Alltoallv| |reflexivity].
  intros received. apply calls_ret.
Qed.

Lemma calls_my_begin_loop all_sizes k : forall i ob bb,
  calls (my_begin_loop all_sizes i k ob bb) [].
Proof.
  induction k as [|k IH]; intros i ob bb; simpl; [apply calls_ret|].
  eapply calls_bind; [apply calls_read| |reflexivity]. intros o.
  eapply calls_bind; [apply calls_read| |reflexivity]. intros b.
  apply IH.
Qed.

Lemma calls_counts_loop all_sizes gob goe gbb gbe k : forall i cob cbb,
  calls (counts_loop all_sizes gob goe gbb gbe i k cob cbb) [].
Proof.
  induction k as [|k IH]; intros i cob cbb; simpl; [apply calls_ret|].
  eapply calls_bind; [apply calls_read| |reflexivity]. intros o.
  eapply calls_bind; [apply calls_read| |reflexivity]. intros b.
  eapply calls_bind; [apply IH| |reflexivity]. intros rest. apply calls_ret.
Qed.

Lemma calls_redistribute_counts all_sizes numprocs myid :
  calls (redistribute_counts all_sizes numprocs myid) [].
Proof.
  unfold redistribute_counts.
  eapply calls_bind; [apply calls_log_new| |reflexivity]. intros _.
  eapply calls_bind; [apply calls_log_new| |reflexivity]. intros _.
  eapply calls_bind; [apply calls_my_begin_loop| |reflexivity]. intros begins.
  eapply calls_bind; [apply calls_read| |reflexivity]. intros o.
  eapply calls_bind; [apply calls_read| |reflexivity]. intros b.
  apply calls_counts_loop.
Qed.

Lemma calls_redistribute (segs : list (list T)) buckets numprocs :
  calls (redistribute segs buckets numprocs) [Allgather; Alltoallv].
Proof.
  unfold redistribute.
  eapply calls_bind; [apply calls_mapM; intros a; apply calls_log_new| |reflexivity].
  intros _. eapply calls_bind; [apply calls_MPI_Allgather| |reflexivity].
  intros all_sizes. eapply calls_bind; [apply calls_mapiM; intros i a; apply calls_redistribute_counts| |reflexivity].
  intros counts. eapply calls_bind; [apply calls_mapM; intros a; apply calls_exclusive_sum| |reflexivity].
  intros sd. eapply calls_bind; [apply calls_mapM; intros a; apply calls_exclusive_sum| |reflexivity].
  intros rd. apply calls_MPI_Alltoallv.
Qed.

(** Whatever the data, a call of [samplesort] with more than one rank
    that has a result has called exactly six collectives, in this order:
    gather and broadcast (the splitters), all-to-all and all-to-all-v (the
    buckets), all-gather and all-to-all-v (the redistribution); with one
    rank it has called none. *)
Theorem samplesort_collectives (segs out : list (list T)) (numprocs : Z)
    (t : list event) :
  samplesort comp std_sort junk segs numprocs = Some (out, t) ->
  mpi_calls t
  = if numprocs <=? 1 then []
    else [Gather; Bcast; Alltoall; Alltoallv; Allgather; Alltoallv].
Proof.
  unfold samplesort. destruct (numprocs <=? 1).
  - intros [= _ <-]. reflexivity.
  - apply (calls_bind _ _ [Gather; Bcast; Alltoall; Alltoallv]
             [Allgather; Alltoallv]).
    + apply calls_get_buckets.
    + intros buckets. apply calls_redistribute.
    + reflexivity.
Qed.

End Stages.

(* ================================================================== *)
(** ** The further theorems at concrete inputs *)

Module ZRunMore.

(** Four ranks whose segments are sorted already, as [get_splitters] and
    [get_buckets] find them. *)
Lemma sorted_ranks_ready :
  exchange_ready [[1; 5; 9]; [0; 3; 11]; [2; 7; 8]; [4; 6; 10]].
Proof.
  split; [vm_compute; discriminate|].
  split; [vm_compute; discriminate|].
  split; [|vm_compute; discriminate].
  intros seg H. repeat (destruct H as [<-|H]; [discriminate|]). destruct H.
Qed.

Lemma sorted_ranks_sorted seg :
  In seg [[1; 5; 9]; [0; 3; 11]; [2; 7; 8]; [4; 6; 10]] -> sorted Z.ltb seg.
Proof.
  intros H. repeat (destruct H as [<-|H]; [repeat constructor|]). destruct H.
Qed.

Lemma equal_ranks_ready : exchange_ready [[5; 5; 5]; [5; 5]; [5]].
Proof.
  split; [vm_compute; discriminate|].
  split; [vm_compute; discriminate|].
  split; [|vm_compute; discriminate].
  intros seg H. repeat (destruct H as [<-|H]; [discriminate|]). destruct H.
Qed.

Lemma equal_ranks_equivalent x y :
  In x (concat [[5; 5; 5]; [5; 5]; [5]]) ->
  In y (concat [[5; 5; 5]; [5; 5]; [5]]) -> (x <? y) = false.
Proof.
  simpl. intros Hx Hy.
  assert (x = 5) by (repeat (destruct Hx as [<-|Hx]; [reflexivity|]); destruct Hx).
  assert (y = 5) by (repeat (destruct Hy as [<-|Hy]; [reflexivity|]); destruct Hy).
  subst. reflexivity.
Qed.

(** On integers, two values neither of which goes before the other are
    the same value. *)
Lemma ltb_equiv_eq x y : equiv Z.ltb x y -> x = y.
Proof. intros [H1 H2]. apply Z.ltb_ge in H1, H2. lia. Qed.

Lemma sorted_segs_fit : fits [[0; 1; 2]; [3; 4]; [5; 6; 7; 8]].
Proof. split; vm_compute; discriminate. Qed.

Lemma empty_rank_fit : fits [[1]; @nil Z].
Proof. split; vm_compute; discriminate. Qed.

End ZRunMore.

Lemma exclusive_sum_modular_witness :
  (1 <= 3 <= length [3; 0; 2] + 1)%nat /\
  result (exclusive_sum [3; 0; 2] 3) = Some [0; 3; 3] /\
  exclusive_sum [3; 0; 2] 5 = None.
Proof.
  assert (H : (1 <= 3 <= length [3; 0; 2] + 1)%nat) by (simpl; lia).
  split; [exact H|]. split.
  - destruct (exclusive_sum_modular [3; 0; 2] 3) as [H1 _].
    exact (proj1 (H1 H)).
  - destruct (exclusive_sum_modular [3; 0; 2] 5) as [_ H2].
    apply H2. right. simpl. lia.
Defined.

Lemma interval_overlap_adjacent_witness :
  (0 <= 2 <= 4 /\ 4 <= 7 /\ 7 <= UINT_MAX /\ 0 <= 3 <= 6 /\ 6 <= UINT_MAX) /\
  interval_overlap 2 4 3 6 + interval_overlap 4 7 3 6 = interval_overlap 2 7 3 6.
Proof.
  assert (B7 : 7 <= UINT_MAX) by (vm_compute; discriminate).
  assert (B6 : 6 <= UINT_MAX) by (vm_compute; discriminate).
  assert (H1 : 0 <= 2 <= 4) by lia.
  assert (H2 : 4 <= 7) by lia.
  assert (H3 : 0 <= 3 <= 6) by lia.
  split; [repeat split; assumption || lia|].
  exact (interval_overlap_adjacent 2 4 7 3 6 H1 H2 B7 H3 B6).
Defined.

Lemma interval_overlap_bounds_witness :
  (0 <= 2 <= 5 /\ 5 <= UINT_MAX /\ 0 <= 3 <= 9 /\ 9 <= UINT_MAX) /\
  0 <= interval_overlap 2 5 3 9 /\
  interval_overlap 2 5 3 9 <= 5 - 2 /\
  interval_overlap 2 5 3 9 <= 9 - 3 /\
  interval_overlap 2 5 2 5 = 5 - 2.
Proof.
  assert (B5 : 5 <= UINT_MAX) by (vm_compute; discriminate).
  assert (B9 : 9 <= UINT_MAX) by (vm_compute; discriminate).
  assert (H1 : 0 <= 2 <= 5) by lia.
  assert (H2 : 0 <= 3 <= 9) by lia.
  split; [repeat split; assumption || lia|].
  destruct (interval_overlap_bounds 2 5 3 9 H1 B5 H2 B9) as (Ha & Hb & Hc & _ & Hd).
  repeat split; assumption.
Defined.

Lemma redistribute_counts_agree_witness :
  (length [3; 1] = length [1; 3] /\ sizes_fit [3; 1] /\ sizes_fit [1; 3] /\
   zsum [3; 1] = zsum [1; 3] /\ 2 * len [3; 1] + 1 <= INT_MAX) /\
  exists counts : nat -> list Z * list Z,
    result (redistribute_counts (flat_sizes [3; 1] [1; 3]) 2 0) = Some (counts 0%nat) /\
    result (redistribute_counts (flat_sizes [3; 1] [1; 3]) 2 1) = Some (counts 1%nat) /\
    nth_error (fst (counts 0%nat)) 1 = nth_error (snd (counts 1%nat)) 0.
Proof.
  assert (H0 : length [3; 1] = length [1; 3]) by reflexivity.
  assert (H1 : sizes_fit [3; 1]).
  { split; [repeat constructor; lia|vm_compute; discriminate]. }
  assert (H2 : sizes_fit [1; 3]).
  { split; [repeat constructor; lia|vm_compute; discriminate]. }
  assert (H3 : zsum [3; 1] = zsum [1; 3]) by reflexivity.
  assert (H4 : 2 * len [3; 1] + 1 <= INT_MAX) by (vm_compute; discriminate).
  split; [repeat split; assumption || apply H1 || apply H2|].
  destruct (redistribute_counts_agree [3; 1] [1; 3] H0 H1 H2 H3 H4)
    as (counts & Hc & Hx).
  exists counts. split; [|split].
  - apply (Hc 0%nat). simpl. lia.
  - apply (Hc 1%nat). simpl. lia.
  - apply Hx; simpl; lia.
Defined.

Lemma get_splitters_sorted_witness :
  2 <= len [[1; 5; 9]; [0; 3; 11]; [2; 7; 8]; [4; 6; 10]] /\
  exists splitters,
    result (get_splitters ZRun.isort (fun _ => 0)
              [[1; 5; 9]; [0; 3; 11]; [2; 7; 8]; [4; 6; 10]] 4)
    = Some (map (fun _ => splitters)
              [[1; 5; 9]; [0; 3; 11]; [2; 7; 8]; [4; 6; 10]]) /\
    len splitters = 3 /\
    sorted Z.ltb splitters.
Proof.
  split; [vm_compute; discriminate|].
  destruct (get_splitters_sorted Z.ltb ZRun.isort (fun _ => 0)
              [[1; 5; 9]; [0; 3; 11]; [2; 7; 8]; [4; 6; 10]]
              ZRunFacts.ltb_swo ZRunFacts.isort_perm ZRunFacts.isort_sorted)
    as (splitters & Hs & Hl & Hsorted & _).
  - vm_compute; discriminate.
  - vm_compute; discriminate.
  - intros seg H.
    repeat (destruct H as [<-|H]; [split; vm_compute; discriminate|]).
    destruct H.
  - exists splitters. split; [exact Hs|]. split; [exact Hl|exact Hsorted].
Defined.

Lemma get_buckets_exchange_witness :
  exchange_ready [[1; 5; 9]; [0; 3; 11]; [2; 7; 8]; [4; 6; 10]] /\
  exists buckets,
    result (get_buckets Z.ltb ZRun.isort (fun _ => 0)
              [[1; 5; 9]; [0; 3; 11]; [2; 7; 8]; [4; 6; 10]] 4)
    = Some buckets /\
    length buckets = 4%nat /\
    Permutation (concat (map bucket_elems buckets))
                (concat [[1; 5; 9]; [0; 3; 11]; [2; 7; 8]; [4; 6; 10]]).
Proof.
  split; [exact ZRunMore.sorted_ranks_ready|].
  destruct (get_buckets_exchange Z.ltb ZRun.isort (fun _ => 0)
              [[1; 5; 9]; [0; 3; 11]; [2; 7; 8]; [4; 6; 10]]
              ZRunFacts.ltb_swo ZRunFacts.isort_perm
              ZRunMore.sorted_ranks_ready ZRunMore.sorted_ranks_sorted)
    as (splitters & buckets & _ & Hb & Hl & Hp & _).
  exists buckets. repeat split; assumption.
Defined.

Lemma get_buckets_runs_witness :
  exchange_ready [[1; 5; 9]; [0; 3; 11]; [2; 7; 8]; [4; 6; 10]] /\
  exists buckets,
    result (get_buckets Z.ltb ZRun.isort (fun _ => 0)
              [[1; 5; 9]; [0; 3; 11]; [2; 7; 8]; [4; 6; 10]] 4)
    = Some buckets /\
    forall b, In b buckets ->
      exists runs,
        bucket_elems b = concat runs /\
        Forall2 (fun seg run =>
                   sorted Z.ltb run /\
                   exists a c, (a <= c <= length seg)%nat /\ run = slice a c seg)
                [[1; 5; 9]; [0; 3; 11]; [2; 7; 8]; [4; 6; 10]] runs.
Proof.
  split; [exact ZRunMore.sorted_ranks_ready|].
  exact (get_buckets_runs Z.ltb ZRun.isort (fun _ => 0)
           [[1; 5; 9]; [0; 3; 11]; [2; 7; 8]; [4; 6; 10]]
           ZRunFacts.ltb_swo ZRunFacts.isort_perm
           ZRunMore.sorted_ranks_ready ZRunMore.sorted_ranks_sorted).
Defined.

Lemma get_buckets_all_equivalent_witness :
  exchange_ready [[5; 5; 5]; [5; 5]; [5]] /\
  exists buckets,
    result (get_buckets Z.ltb ZRun.isort (fun _ => 0) [[5; 5; 5]; [5; 5]; [5]] 3)
    = Some buckets /\
    forall j b, nth_error buckets j = Some b ->
      ((j + 1 < 3)%nat -> bucket_elems b = [] /\ bucket_size b = 0) /\
      ((j + 1 = 3)%nat -> bucket_elems b = [5; 5; 5; 5; 5; 5]).
Proof.
  split; [exact ZRunMore.equal_ranks_ready|].
  exact (get_buckets_all_equivalent Z.ltb ZRun.isort (fun _ => 0)
           [[5; 5; 5]; [5; 5]; [5]]
           ZRunFacts.ltb_swo ZRunFacts.isort_perm
           ZRunMore.equal_ranks_ready ZRunMore.equal_ranks_equivalent).
Defined.

Lemma redistribute_keeps_order_witness :
  (1 <= len [[7; 7]; [7]] /\ len (concat [[7; 7]; [7]]) <= INT_MAX) /\
  exists out,
    result (redistribute [[7; 7]; [7]]
              [mk_bucket 1 [1]; mk_bucket 2 [2; 3]] 2) = Some out /\
    concat out = [1; 2; 3] /\
    nth_error out 0 = Some [1; 2] /\
    nth_error out 1 = Some [3].
Proof.
  assert (H1 : 1 <= len [[7; 7]; [7]]) by (vm_compute; discriminate).
  assert (H2 : 2 * len [[7; 7]; [7]] + 1 <= INT_MAX) by (vm_compute; discriminate).
  assert (H3 : len (concat [[7; 7]; [7]]) <= INT_MAX) by (vm_compute; discriminate).
  split; [split; assumption|].
  destruct (redistribute_keeps_order [[7; 7]; [7]]
              [mk_bucket 1 [1]; mk_bucket 2 [2; 3]] H1 H2 H3)
    as (out & Ho & Hc & Hk).
  - reflexivity.
  - intros b H. repeat (destruct H as [<-|H]; [reflexivity|]). destruct H.
  - reflexivity.
  - exists out. split; [exact Ho|]. split; [exact Hc|]. split.
    + exact (Hk 0%nat [7; 7] eq_refl).
    + exact (Hk 1%nat [7] eq_refl).
Defined.

Lemma redistribute_same_layout_witness :
  (1 <= len [[7; 7]; [7]] /\ len (concat [[7; 7]; [7]]) <= INT_MAX) /\
  result (redistribute [[7; 7]; [7]]
            [mk_bucket 2 [1; 2]; mk_bucket 1 [3]] 2)
  = Some [[1; 2]; [3]].
Proof.
  assert (H1 : 1 <= len [[7; 7]; [7]]) by (vm_compute; discriminate).
  assert (H2 : 2 * len [[7; 7]; [7]] + 1 <= INT_MAX) by (vm_compute; discriminate).
  assert (H3 : len (concat [[7; 7]; [7]]) <= INT_MAX) by (vm_compute; discriminate).
  split; [split; assumption|].
  apply (redistribute_same_layout [[7; 7]; [7]]
           [mk_bucket 2 [1; 2]; mk_bucket 1 [3]] H1 H2 H3).
  - intros b H. repeat (destruct H as [<-|H]; [reflexivity|]). destruct H.
  - reflexivity.
Defined.

Lemma samplesort_sequential_sort_witness :
  fits ZRun.uneven_ranks /\
  concat [[0; 1; 1]; [1; 1]; [1; 1; 2; 3; 4; 5; 7; 8]; [9]]
  = ZRun.isort (concat ZRun.uneven_ranks) /\
  map (@length Z) [[0; 1; 1]; [1; 1]; [1; 1; 2; 3; 4; 5; 7; 8]; [9]]
  = map (@length Z) ZRun.uneven_ranks.
Proof.
  split; [exact ZRunFacts.uneven_ranks_fit|].
  exact (samplesort_sequential_sort Z.ltb ZRun.isort (fun _ => 0)
           ZRun.uneven_ranks ZRunFacts.ltb_swo ZRunMore.ltb_equiv_eq
           ZRunFacts.isort_perm ZRunFacts.isort_sorted
           ZRunFacts.uneven_ranks_fit _ ZRunFacts.uneven_ranks_run).
Defined.

Lemma samplesort_idempotent_witness :
  (fits [[0; 1; 2]; [3; 4]; [5; 6; 7; 8]] /\
   sorted Z.ltb (concat [[0; 1; 2]; [3; 4]; [5; 6; 7; 8]])) /\
  result (samplesort Z.ltb ZRun.isort (fun _ => 0)
            [[0; 1; 2]; [3; 4]; [5; 6; 7; 8]] 3)
  = Some [[0; 1; 2]; [3; 4]; [5; 6; 7; 8]].
Proof.
  assert (Hs : sorted Z.ltb (concat [[0; 1; 2]; [3; 4]; [5; 6; 7; 8]]))
    by (repeat constructor).
  split; [split; [exact ZRunMore.sorted_segs_fit|exact Hs]|].
  apply (samplesort_idempotent Z.ltb ZRun.isort (fun _ => 0)
           [[0; 1; 2]; [3; 4]; [5; 6; 7; 8]]
           ZRunFacts.ltb_swo ZRunMore.ltb_equiv_eq
           ZRunFacts.isort_perm ZRunFacts.isort_sorted
           ZRunMore.sorted_segs_fit).
  - right. intros seg H.
    repeat (destruct H as [<-|H]; [discriminate|]). destruct H.
  - exact Hs.
Defined.

Lemma samplesort_fails_iff_witness :
  fits [[1]; @nil Z] /\
  (samplesort Z.ltb ZRun.isort (fun _ => 0) [[1]; []] 2 = None
   <-> 2 <= len [[1]; @nil Z] /\ In [] [[1]; @nil Z]).
Proof.
  split; [exact ZRunMore.empty_rank_fit|].
  exact (samplesort_fails_iff Z.ltb ZRun.isort (fun _ => 0) [[1]; []]
           ZRunFacts.isort_perm ZRunMore.empty_rank_fit).
Defined.

Lemma samplesort_ignores_fresh_storage_witness :
  fits ZRun.four_ranks /\
  result (get_buckets Z.ltb ZRun.isort (fun _ => 0) ZRun.four_ranks 4)
  = result (get_buckets Z.ltb ZRun.isort (fun n => Z.of_nat n + 7) ZRun.four_ranks 4) /\
  result (samplesort Z.ltb ZRun.isort (fun _ => 0) ZRun.four_ranks 4)
  = result (samplesort Z.ltb ZRun.isort (fun n => Z.of_nat n + 7) ZRun.four_ranks 4).
Proof.
  split; [exact ZRunFacts.four_ranks_fit|].
  destruct (samplesort_ignores_fresh_storage Z.ltb ZRun.isort ZRun.four_ranks
              (fun _ => 0) (fun n => Z.of_nat n + 7)
              ZRunFacts.isort_perm ZRunFacts.four_ranks_fit) as [H1 H2].
  split; [|exact H2].
  apply H1. vm_compute. discriminate.
Defined.

Lemma samplesort_collectives_witness :
  exists out t,
    samplesort Z.ltb ZRun.isort (fun _ => 0) ZRun.four_ranks 4 = Some (out, t) /\
    mpi_calls t = [Gather; Bcast; Alltoall; Alltoallv; Allgather; Alltoallv].
Proof.
  destruct (samplesort Z.ltb ZRun.isort (fun _ => 0) ZRun.four_ranks 4)
    as [[out t]|] eqn:E.
  - exists out, t. split; [reflexivity|].
    exact (samplesort_collectives Z.ltb ZRun.isort (fun _ => 0)
             ZRun.four_ranks out 4 t E).
  - vm_compute in E. discriminate.
Defined.
